(** * The PLONK prover of [internal/backend/bn256/plonk/prove.go]

    A shallow embedding of the prover's polynomial engine: the functions
    [ComputeLRO], [ComputeZ], [evalConstraints], [evalIDCosets],
    [evalConstraintOrdering], [evaluateCosets], [shiftZ], [computeH] and
    [Prove], written in a small state-and-panic monad over a store of
    slices, followed by the properties the specification states about them. *)

From Stdlib Require Import ZArith Lia String.
From stdpp Require Import base list option.

Local Open Scope Z_scope.

(** ** Field elements ([fr.Element] of gurvy/bn256)

    An element is its canonical residue in [0, q).  The Go methods write
    their result into the receiver; here they are functions of the
    operands. *)
Module Fr.

Definition q : Z :=
  21888242871839275222246405745257275088548364400416034343698204186575808495617.

Definition t := Z.

Definition zero : t := 0.
Definition one : t := 1.

(** [SetString]: the decimal value reduced modulo [q]. *)
Definition of_Z (x : Z) : t := x mod q.

Definition add (x y : t) : t := (x + y) mod q.
Definition sub (x y : t) : t := (x - y) mod q.
Definition mul (x y : t) : t := (x * y) mod q.
Definition square (x : t) : t := mul x x.

(** Square-and-multiply on the binary digits of the exponent. *)
Fixpoint exp_pos (x : t) (e : positive) : t :=
  match e with
  | xH => x mod q
  | xO e' => square (exp_pos x e')
  | xI e' => mul x (square (exp_pos x e'))
  end.

(** [Exp(x, e)] for a [big.Int] exponent [e >= 0]. *)
Definition exp (x : t) (e : Z) : t :=
  match e with
  | Zpos p => exp_pos x p
  | _ => one
  end.

(** The extended Euclidean algorithm on [(a, b)], carrying the Bezout
    coefficients [x0], [x1] of the operand: the coefficient of the final
    remainder when that remainder is 1, zero otherwise. *)
Fixpoint egcd (fuel : nat) (a b x0 x1 : Z) : Z :=
  match fuel with
  | O => 0
  | S fuel' =>
      if Z.eqb b 0 then (if Z.eqb a 1 then x0 else 0)
      else let (k, r) := Z.div_eucl a b in
           egcd fuel' b r x1 (x0 - k * x1)
  end.

(** [Inverse]: the inverse modulo [q], which leaves zero at zero.  The
    remainders at least halve every two rounds, so 512 rounds are more than
    a 254-bit modulus needs. *)
Definition inverse (x : t) : t := egcd 512 q (x mod q) 0 1 mod q.

(** [Div(x, y)]: [x] times the inverse of [y]. *)
Definition div (x y : t) : t := mul x (inverse y).

(** [x^n] as [n] successive multiplications by [x] on the right, the way
    the loops of the prover build the powers of a generator. *)
Fixpoint pow (x : t) (n : nat) : t :=
  match n with
  | O => one
  | S n' => mul (pow x n') x
  end.

End Fr.

Abbreviation fr := Fr.t.

(** ** Polynomials ([bn256.Poly]) *)

Definition Poly := list fr.

(** Modelled from the spec: [Poly.Eval] lives in crypto/polynomial/bn256,
    which is not part of the sources at hand; the specification describes it
    as direct evaluation by Horner's method of a coefficient-form sequence. *)
Fixpoint Eval (p : Poly) (x : fr) : fr :=
  match p with
  | [] => Fr.zero
  | c :: p' => Fr.add c (Fr.mul x (Eval p' x))
  end.

(** ** The FFT domain ([fft.Domain]) *)

Record Domain := mkDomain {
  Cardinality : nat;
  Generator : fr;
  FinerGenerator : fr
}.

(** The low [k] bits of [i], reversed, pushed onto [acc]. *)
Fixpoint bitrev (k i acc : nat) : nat :=
  match k with
  | O => acc
  | S k' => bitrev k' (i / 2)%nat (2 * acc + i mod 2)%nat
  end.

(** Modelled from the spec: [fft.BitReverse] (package fft is not part of the
    sources at hand) permutes a sequence between natural and bit-reversed
    index order. *)
Definition BitReverse (a : list fr) : list fr :=
  let n := length a in
  map (fun i => default Fr.zero (a !! bitrev (Nat.log2 n) i 0%nat)) (seq 0 n).

(** The coset shift selected by a coset index: [FinerGenerator^coset]
    (index 0 is the domain itself). *)
Definition cosetShift (d : Domain) (coset : nat) : fr :=
  Fr.pow (FinerGenerator d) coset.

(** Modelled from the spec: [Domain.FFT(data, DIF, coset)] (package fft is
    not part of the sources at hand) evaluates a coefficient-form sequence at
    the points [Generator^i * cosetShift], in bit-reversed order. *)
Definition FFT (d : Domain) (a : list fr) (coset : nat) : list fr :=
  BitReverse
    (map (fun i => Eval a (Fr.mul (Fr.pow (Generator d) i) (cosetShift d coset)))
         (seq 0 (length a))).

(** Modelled from the spec: [Domain.FFTInverse(data, DIF, coset)] is the
    inverse of [FFT] up to the same bit-reversal convention: from the values
    at [Generator^i * cosetShift] in natural order it yields the coefficients
    in bit-reversed order. *)
Definition FFTInverse (d : Domain) (a : list fr) (coset : nat) : list fr :=
  let n := length a in
  let ninv := Fr.inverse (Fr.of_Z (Z.of_nat n)) in
  let ginv := Fr.inverse (Generator d) in
  let sinv := Fr.inverse (cosetShift d coset) in
  BitReverse
    (map (fun j => Fr.mul (Fr.mul ninv (Fr.pow sinv j)) (Eval a (Fr.pow ginv j)))
         (seq 0 n)).

(** ** The store of slices

    A Go slice is a reference to a backing array; the prover never reslices
    or appends, so a slice is the address of its array.  [make] appends a
    fresh zeroed array to the store, an index out of range panics. *)

Definition slice := nat.
Abbreviation store := (list (list fr)).

(** A computation reads and updates the store and either returns a value or
    panics ([None]). *)
Definition M (A : Type) : Type := store -> option (A * store).

Definition ret {A} (a : A) : M A := fun st => Some (a, st).

Definition bind {A B} (c : M A) (k : A -> M B) : M B :=
  fun st => match c st with
            | Some (a, st') => k a st'
            | None => None
            end.

Declare Scope go_scope.
Delimit Scope go_scope with go.
Notation "'let*' x ':=' c 'in' k" := (bind c (fun x => k))
  (at level 10, x pattern, c at level 100, k at level 200) : go_scope.
Notation "c ';;;' k" := (bind c (fun _ => k))
  (at level 100, k at level 200, right associativity) : go_scope.
Local Open Scope go_scope.

(** [make([]fr.Element, n)] *)
Definition make (n : nat) : M slice :=
  fun st => Some (length st, st ++ [replicate n Fr.zero]).

(** [len(s)] *)
Definition len (s : slice) : M nat :=
  fun st => match st !! s with
            | Some a => Some (length a, st)
            | None => None
            end.

(** [s[i]] read *)
Definition load (s : slice) (i : nat) : M fr :=
  fun st => match st !! s with
            | Some a => match a !! i with
                        | Some v => Some (v, st)
                        | None => None
                        end
            | None => None
            end.

(** [s[i] = v] *)
Definition storeAt (s : slice) (i : nat) (v : fr) : M unit :=
  fun st => match st !! s with
            | Some a => if decide (i < length a)%nat
                        then Some (tt, <[s := <[i := v]> a]> st)
                        else None
            | None => None
            end.

(** The whole contents of a slice, as handed to a callee that only reads. *)
Definition read (s : slice) : M (list fr) :=
  fun st => match st !! s with
            | Some a => Some (a, st)
            | None => None
            end.

(** A callee that transforms a slice in place. *)
Definition modify (s : slice) (f : list fr -> list fr) : M unit :=
  fun st => match st !! s with
            | Some a => Some (tt, <[s := f a]> st)
            | None => None
            end.

(** [copy(dst, src)]: the first [min(len dst, len src)] elements. *)
Definition copyInto (src dst : list fr) : list fr :=
  take (length dst) src ++ drop (length src) dst.

Definition copy (dst : slice) (src : list fr) : M unit :=
  modify dst (copyInto src).

(** [p[i]] on a read-only sequence *)
Definition index (p : list fr) (i : nat) : M fr :=
  fun st => match p !! i with
            | Some v => Some (v, st)
            | None => None
            end.

(** [for i := start; i < start+n; i++ { a = body i a }], where [a] stands
    for the local variables the loop carries from one round to the next. *)
Fixpoint forM {A} (start n : nat) (a : A) (body : nat -> A -> M A) : M A :=
  match n with
  | O => ret a
  | S n' => let* a' := body start a in forM (S start) n' a' body
  end.

(** A loop that carries no local variable. *)
Definition for_ (start n : nat) (body : nat -> M unit) : M unit :=
  forM start n tt (fun i _ => body i).

(** ** The constraint system ([cs.SparseR1CS]) *)

Record Term := mkTerm { VariableID : nat }.

Module SparseR1C.
Record t := mk { L : Term; R : Term; O : Term }.
End SparseR1C.

Record SparseR1CS := mkSparseR1CS {
  Constraints : list SparseR1C.t;
  Assertions : list SparseR1C.t
}.

Definition Witness := list fr.

(** A Go [error] value; [option error] is an [error] that may be nil. *)
Inductive error := errorString (msg : string).

(** ** Protocol constants (set in [init]) *)

Definition zeta : fr := Fr.of_Z 2938092839238274283.
Definition vBundle : fr := Fr.of_Z 987545678.
Definition gamma : fr := Fr.of_Z 8278263826.
Definition alpha : fr := Fr.of_Z 25678323434.

(** ** The prover's preprocessed material ([PublicRaw]) and the [Proof] *)

Section Prover.

(** The opening proofs of the commitment scheme are opaque objects
    ([polynomial.BatchOpeningProofSinglePoint], [polynomial.OpeningProof]). *)
Variables BatchOpeningProofSinglePoint OpeningProof : Type.

(** [polynomial.CommitmentScheme], an external collaborator. *)
Record CommitmentSchemeT := mkScheme {
  BatchOpenSinglePoint : fr -> fr -> list Poly -> BatchOpeningProofSinglePoint;
  Open : fr -> Poly -> OpeningProof
}.

Record PublicRaw := mkPublicRaw {
  DomainNum : Domain;
  DomainH : Domain;
  Ql : Poly; Qr : Poly; Qm : Poly; Qo : Poly; Qk : Poly;
  LS1 : Poly; LS2 : Poly; LS3 : Poly;
  CS1 : Poly; CS2 : Poly; CS3 : Poly;
  Shifter : fr * fr;
  CommitmentScheme : CommitmentSchemeT
}.

(** The two opening proofs are interface values: nil ([None]) until set. *)
Record Proof := mkProof {
  LROHZ : list fr;
  ZShift : fr;
  BatchOpenings : option BatchOpeningProofSinglePoint;
  OpeningZShift : option OpeningProof
}.

(** [&Proof{}] *)
Definition emptyProof : Proof :=
  {| LROHZ := replicate 5 Fr.zero; ZShift := Fr.zero;
     BatchOpenings := None; OpeningZShift := None |}.

(** [l[i].Set(&solution[a]); r[i].Set(&solution[b]); o[i].Set(&solution[c])]:
    one row of wire values, read from the solution at three variable ids. *)
Definition setRow (l r o : slice) (solution : list fr) (i a b c : nat)
    : M unit :=
  let* v := index solution a in storeAt l i v ;;;
  let* v := index solution b in storeAt r i v ;;;
  let* v := index solution c in storeAt o i v.

(** [cs[i]] on a list of constraints *)
Definition constraintAt (cs : list SparseR1C.t) (i : nat) : M SparseR1C.t :=
  fun st => match cs !! i with
            | Some c => Some (c, st)
            | None => None
            end.

(** [ComputeLRO] (prove.go 59-92) *)
Definition ComputeLRO (spr : SparseR1CS) (publicData : PublicRaw)
    (solution : list fr) : M (slice * slice * slice) :=
  let s := Cardinality (DomainNum publicData) in
  let* l := make s in
  let* r := make s in
  let* o := make s in
  for_ 0 (length (Constraints spr)) (fun i =>
    let* c := constraintAt (Constraints spr) i in
    setRow l r o solution i
      (VariableID (SparseR1C.L c)) (VariableID (SparseR1C.R c))
      (VariableID (SparseR1C.O c))) ;;;
  let offset := length (Constraints spr) in
  for_ 0 (length (Assertions spr)) (fun i =>
    let* c := constraintAt (Assertions spr) i in
    setRow l r o solution (offset + i)
      (VariableID (SparseR1C.L c)) (VariableID (SparseR1C.R c))
      (VariableID (SparseR1C.O c))) ;;;
  let offset := (offset + length (Assertions spr))%nat in
  for_ 0 (s - offset) (fun i =>
    setRow l r o solution (offset + i) 0 0 0) ;;;
  ret (l, r, o).

(** [ComputeZ] (prove.go 103-139).  The loop carries [u[0..2]]. *)
Definition ComputeZ (l r o : slice) (publicData : PublicRaw) : M slice :=
  let d := DomainNum publicData in
  let* z := make (Cardinality d) in
  let nbElmts := Cardinality d in
  let u0 := Fr.one in
  let u1 := fst (Shifter publicData) in
  let u2 := Fr.square (snd (Shifter publicData)) in
  storeAt z 0 Fr.one ;;;
  forM 0 (nbElmts - 1) (u0, u1, u2) (fun i '(u0, u1, u2) =>
    let* li := load l i in
    let* ri := load r i in
    let* oi := load o i in
    let f0 := Fr.add (Fr.add li u0) gamma in
    let f1 := Fr.add (Fr.add ri u1) gamma in
    let f2 := Fr.add (Fr.add oi u2) gamma in
    let u0' := Fr.mul u0 (Generator d) in
    let u1' := Fr.mul u1 (Generator d) in
    let u2' := Fr.mul u2 (Generator d) in
    let* li := load l i in
    let* s1 := index (LS1 publicData) i in
    let g0 := Fr.add (Fr.add li s1) gamma in
    let* ri := load r i in
    let* s2 := index (LS2 publicData) i in
    let g1 := Fr.add (Fr.add ri s2) gamma in
    let* oi := load o i in
    let* s3 := index (LS3 publicData) i in
    let g2 := Fr.add (Fr.add oi s3) gamma in
    let f0 := Fr.mul (Fr.mul f0 f1) f2 in
    let g0 := Fr.mul (Fr.mul g0 g1) g2 in
    let* zi := load z i in
    storeAt z (i + 1) (Fr.mul zi f0) ;;;
    let* zn := load z (i + 1) in
    storeAt z (i + 1) (Fr.div zn g0) ;;;
    ret (u0', u1', u2')) ;;;
  ret z.

(** [evaluateCosets] (prove.go 292-322).  [poly] is only read, and copied
    out before anything is written, so it is passed by value. *)
Definition evaluateCosets (poly : list fr) (res : slice) (domain : Domain)
    : M unit :=
  let* e0 := make (Cardinality domain) in
  let* e1 := make (Cardinality domain) in
  let* e2 := make (Cardinality domain) in
  let* e3 := make (Cardinality domain) in
  copy e0 poly ;;;
  copy e1 poly ;;;
  copy e2 poly ;;;
  copy e3 poly ;;;
  modify e0 (fun a => FFT domain a 1) ;;;
  modify e1 (fun a => FFT domain a 3) ;;;
  modify e0 (fun a => FFT domain a 5) ;;;
  modify e1 (fun a => FFT domain a 7) ;;;
  modify e0 BitReverse ;;;
  modify e1 BitReverse ;;;
  modify e2 BitReverse ;;;
  modify e3 BitReverse ;;;
  for_ 0 (Cardinality domain) (fun i =>
    let* v := load e0 i in storeAt res (4 * i) v ;;;
    let* v := load e1 i in storeAt res (4 * i + 1) v ;;;
    let* v := load e2 i in storeAt res (4 * i + 2) v ;;;
    let* v := load e3 i in storeAt res (4 * i + 3) v).

(** [evalConstraints] (prove.go 147-180) *)
Definition evalConstraints (publicData : PublicRaw) (evalL evalR evalO : slice)
    : M slice :=
  let d := DomainNum publicData in
  let* evalQl := make (4 * Cardinality d) in
  let* evalQr := make (4 * Cardinality d) in
  let* evalQm := make (4 * Cardinality d) in
  let* evalQo := make (4 * Cardinality d) in
  let* evalQk := make (4 * Cardinality d) in
  evaluateCosets (Ql publicData) evalQl d ;;;
  evaluateCosets (Qr publicData) evalQr d ;;;
  evaluateCosets (Qm publicData) evalQm d ;;;
  evaluateCosets (Qo publicData) evalQo d ;;;
  evaluateCosets (Qk publicData) evalQk d ;;;
  for_ 0 (4 * Cardinality d) (fun i =>
    let* ql := load evalQl i in
    let* l := load evalL i in
    let acc := Fr.mul ql l in
    let* qr := load evalQr i in
    let* r := load evalR i in
    let buf := Fr.mul qr r in
    let acc := Fr.add acc buf in
    let* qm := load evalQm i in
    let* l := load evalL i in
    let buf := Fr.mul qm l in
    let* r := load evalR i in
    let buf := Fr.mul buf r in
    let acc := Fr.add acc buf in
    let* qo := load evalQo i in
    let* o := load evalO i in
    let buf := Fr.mul qo o in
    let acc := Fr.add acc buf in
    let* qk := load evalQk i in
    storeAt evalL i (Fr.add acc qk)) ;;;
  ret evalL.

(** [dst[i].Mul(&src[j], &x)] *)
Definition mulTo (dst : slice) (i : nat) (src : slice) (j : nat) (x : fr)
    : M unit :=
  let* a := load src j in storeAt dst i (Fr.mul a x).

(** [dst[i].Set(&src[j])] *)
Definition setTo (dst : slice) (i : nat) (src : slice) (j : nat) : M unit :=
  let* a := load src j in storeAt dst i a.

(** [evalIDCosets] (prove.go 183-230) *)
Definition evalIDCosets (publicData : PublicRaw) : M (slice * slice * slice) :=
  let d := DomainNum publicData in
  let* id := make (4 * Cardinality d) in
  let c := Cardinality d in
  storeAt id 0 Fr.one ;;;
  storeAt id 1 Fr.one ;;;
  storeAt id 2 Fr.one ;;;
  storeAt id 3 Fr.one ;;;
  for_ 1 (c - 1) (fun i =>
    mulTo id (4 * i) id (4 * (i - 1)) (Generator d) ;;;
    setTo id (4 * i + 1) id (4 * i) ;;;
    setTo id (4 * i + 2) id (4 * i) ;;;
    setTo id (4 * i + 3) id (4 * i)) ;;;
  let uu := Fr.square (FinerGenerator d) in
  let u0 := FinerGenerator d in
  let u1 := Fr.mul u0 uu in
  let u2 := Fr.mul u1 uu in
  let u3 := Fr.mul u2 uu in
  let* uid := make (4 * Cardinality d) in
  let* uuid := make (4 * Cardinality d) in
  for_ 0 c (fun i =>
    mulTo id (4 * i) id (4 * i) u0 ;;;
    mulTo id (4 * i + 1) id (4 * i + 1) u1 ;;;
    mulTo id (4 * i + 2) id (4 * i + 2) u2 ;;;
    mulTo id (4 * i + 3) id (4 * i + 3) u3 ;;;
    mulTo uid (4 * i) id (4 * i) (fst (Shifter publicData)) ;;;
    mulTo uid (4 * i + 1) id (4 * i + 1) (fst (Shifter publicData)) ;;;
    mulTo uid (4 * i + 2) id (4 * i + 2) (fst (Shifter publicData)) ;;;
    mulTo uid (4 * i + 3) id (4 * i + 3) (fst (Shifter publicData)) ;;;
    mulTo uuid i id i (snd (Shifter publicData)) ;;;
    mulTo uuid (i + c) id (i + c) (snd (Shifter publicData)) ;;;
    mulTo uuid (i + 2 * c) id (i + 2 * c) (snd (Shifter publicData)) ;;;
    mulTo uuid (i + 3 * c) id (i + 3 * c) (snd (Shifter publicData))) ;;;
  ret (id, uid, uuid).

(** [evalConstraintOrdering] (prove.go 237-283) *)
Definition evalConstraintOrdering (publicData : PublicRaw)
    (z zu evalL evalR evalO : slice) : M slice :=
  let d := DomainNum publicData in
  let* evalZ := make (4 * Cardinality d) in
  let* evalZu := make (4 * Cardinality d) in
  let* evalS1 := make (4 * Cardinality d) in
  let* evalS2 := make (4 * Cardinality d) in
  let* evalS3 := make (4 * Cardinality d) in
  let* zv := read z in evaluateCosets zv evalZ d ;;;
  let* zuv := read zu in evaluateCosets zuv evalZu d ;;;
  evaluateCosets (CS1 publicData) evalS1 d ;;;
  evaluateCosets (CS2 publicData) evalS2 d ;;;
  evaluateCosets (CS3 publicData) evalS3 d ;;;
  let* (evalID, evaluID, evaluuID) := evalIDCosets publicData in
  let* res := make (4 * Cardinality d) in
  for_ 0 (4 * Cardinality d) (fun i =>
    let* l := load evalL i in
    let* id := load evalID i in
    let f0 := Fr.add (Fr.add l id) gamma in
    let* r := load evalR i in
    let* uid := load evaluID i in
    let f1 := Fr.add (Fr.add r uid) gamma in
    let* o := load evalO i in
    let* uuid := load evaluuID i in
    let f2 := Fr.add (Fr.add o uuid) gamma in
    let* l := load evalL i in
    let* s1 := load evalS1 i in
    let g0 := Fr.add (Fr.add l s1) gamma in
    let* r := load evalR i in
    let* s2 := load evalS2 i in
    let g1 := Fr.add (Fr.add r s2) gamma in
    let* o := load evalO i in
    let* s3 := load evalS3 i in
    let g2 := Fr.add (Fr.add o s3) gamma in
    let* l := load evalL i in
    let* zi := load evalZ i in
    let f0 := Fr.mul (Fr.mul (Fr.mul (Fr.mul f0 f1) f2) l) zi in
    let* l := load evalL i in
    let* zui := load evalZu i in
    let g0 := Fr.mul (Fr.mul (Fr.mul (Fr.mul g0 g1) g2) l) zui in
    storeAt res i (Fr.sub g0 f0)) ;;;
  ret res.

(** [shiftZ] (prove.go 325-338) *)
Definition shiftZ (z : slice) : M slice :=
  let* n := len z in
  let* res := make n in
  let* zv := read z in
  copy res zv ;;;
  let* buf := load res 0 in
  for_ 0 (n - 1) (fun i => setTo res i res (i + 1)) ;;;
  storeAt res (n - 1) buf ;;;
  ret res.

(** The four factors [u[0..3]] that [computeH] multiplies the cosets by
    (prove.go 360-376). *)
Definition computeH_u (d : Domain) : fr * fr * fr * fr :=
  let bExpo := Z.of_nat (Cardinality d) in
  let uu := Fr.square (FinerGenerator d) in
  let u0 := Fr.inverse (Fr.exp (FinerGenerator d) bExpo) in
  let u1 := Fr.inverse (Fr.exp (Fr.mul u0 uu) bExpo) in
  let u2 := Fr.inverse (Fr.exp (Fr.mul u1 uu) bExpo) in
  let u3 := Fr.inverse (Fr.exp (Fr.mul u2 uu) bExpo) in
  (u0, u1, u2, u3).

(** The pointwise part of [computeH] (prove.go 349-385): the combined
    evaluations, each multiplied by the factor of its coset. *)
Definition computeH_evals (publicData : PublicRaw)
    (constraintsInd constraintOrdering : slice) : M slice :=
  let d := DomainNum publicData in
  let* h := make (4 * Cardinality d) in
  for_ 0 (4 * Cardinality d) (fun i =>
    let* co := load constraintOrdering i in
    let buf := Fr.mul alpha co in
    let* ci := load constraintsInd i in
    storeAt h i (Fr.add ci buf)) ;;;
  let '(u0, u1, u2, u3) := computeH_u d in
  for_ 0 (Cardinality d) (fun i =>
    mulTo h (4 * i) h (4 * i) u0 ;;;
    mulTo h (4 * i + 1) h (4 * i + 1) u1 ;;;
    mulTo h (4 * i + 2) h (4 * i + 2) u2 ;;;
    mulTo h (4 * i + 3) h (4 * i + 3) u3) ;;;
  ret h.

(** [computeH] (prove.go 347-393) *)
Definition computeH (publicData : PublicRaw)
    (constraintsInd constraintOrdering : slice) : M slice :=
  let* h := computeH_evals publicData constraintsInd constraintOrdering in
  modify h (fun a => FFTInverse (DomainH publicData) a 1) ;;;
  modify h BitReverse ;;;
  ret h.

(** The external solver [spr.Solve]: a solution and an error that is nil
    when the solve succeeded. *)
Variable Solve : SparseR1CS -> Witness -> list fr * option error.

(** The buffers of [Prove] once the gate identity has been evaluated. *)
Record GateStage := mkGateStage {
  gs_l : slice; gs_r : slice; gs_o : slice;
  gs_evalL : slice; gs_evalR : slice; gs_evalO : slice;
  gs_constraintsInd : slice
}.

(** [Prove], from the solution to [constraintsInd] (prove.go 402-414). *)
Definition Prove_gate (spr : SparseR1CS) (publicData : PublicRaw)
    (solution : list fr) : M GateStage :=
  let d := DomainNum publicData in
  let* (l, r, o) := ComputeLRO spr publicData solution in
  let* evalL := make (4 * Cardinality d) in
  let* evalR := make (4 * Cardinality d) in
  let* evalO := make (4 * Cardinality d) in
  evaluateCosets (Ql publicData) evalL d ;;;
  evaluateCosets (Qr publicData) evalR d ;;;
  evaluateCosets (Qm publicData) evalO d ;;;
  let* constraintsInd := evalConstraints publicData evalL evalR evalO in
  ret (mkGateStage l r o evalL evalR evalO constraintsInd).

(** [Prove], up to the point where the local [proof] is fully populated
    (prove.go 399-472). *)
Definition Prove_populate (spr : SparseR1CS) (publicData : PublicRaw)
    (witness : Witness) : M Proof :=
  let d := DomainNum publicData in
  let '(solution, _) := Solve spr witness in
  let* g := Prove_gate spr publicData solution in
  let '(mkGateStage l r o evalL evalR evalO constraintsInd) := g in
  let* z := ComputeZ l r o publicData in
  let* zu := shiftZ z in
  modify z (fun a => FFTInverse d a 0) ;;;
  modify zu (fun a => FFTInverse d a 0) ;;;
  modify z BitReverse ;;;
  modify zu BitReverse ;;;
  let* constraintsOrdering :=
    evalConstraintOrdering publicData z zu evalL evalR evalO in
  let* h := computeH publicData constraintsInd constraintsOrdering in
  modify l (fun a => FFTInverse d a 0) ;;;
  modify r (fun a => FFTInverse d a 0) ;;;
  modify o (fun a => FFTInverse d a 0) ;;;
  modify l BitReverse ;;;
  modify r BitReverse ;;;
  modify o BitReverse ;;;
  let* lv := read l in
  let* rv := read r in
  let* ov := read o in
  let* hv := read h in
  let* zv := read z in
  let lrohz := [Eval lv zeta; Eval rv zeta; Eval ov zeta; Eval hv zeta;
                Eval zv zeta] in
  let zzeta := Fr.mul zeta (Generator d) in
  let zshift := Eval zv zzeta in
  let batch :=
    BatchOpenSinglePoint (CommitmentScheme publicData) zeta vBundle
      [lv; rv; ov; hv; zv] in
  let opening := Open (CommitmentScheme publicData) zzeta zv in
  ret {| LROHZ := lrohz; ZShift := zshift;
         BatchOpenings := Some batch; OpeningZShift := Some opening |}.

(** [Prove] (prove.go 397-475): the populated [proof] is dropped and a
    fresh [&Proof{}] is returned. *)
Definition Prove (spr : SparseR1CS) (publicData : PublicRaw)
    (witness : Witness) : M Proof :=
  let* proof := Prove_populate spr publicData witness in
  ret emptyProof.

End Prover.

Arguments mkScheme {_ _}.
Arguments mkPublicRaw {_ _}.
Arguments mkProof {_ _}.
Arguments emptyProof {_ _}.
Arguments LROHZ {_ _}.
Arguments ZShift {_ _}.
Arguments BatchOpenings {_ _}.
Arguments OpeningZShift {_ _}.
Arguments DomainNum {_ _}.
Arguments DomainH {_ _}.
Arguments Ql {_ _}.
Arguments Qr {_ _}.
Arguments Qm {_ _}.
Arguments Qo {_ _}.
Arguments Qk {_ _}.
Arguments LS1 {_ _}.
Arguments LS2 {_ _}.
Arguments LS3 {_ _}.
Arguments CS1 {_ _}.
Arguments CS2 {_ _}.
Arguments CS3 {_ _}.
Arguments Shifter {_ _}.
Arguments CommitmentScheme {_ _}.
Arguments ComputeLRO {_ _}.
Arguments ComputeZ {_ _}.
Arguments evalConstraints {_ _}.
Arguments evalIDCosets {_ _}.
Arguments evalConstraintOrdering {_ _}.
Arguments computeH_evals {_ _}.
Arguments computeH {_ _}.
Arguments Prove_gate {_ _}.
Arguments Prove_populate {_ _}.
Arguments Prove {_ _}.


(** * Specification vocabulary *)

(** [wp c Q st]: from [st] the computation [c] returns, and its result and
    final store satisfy [Q]. *)
Definition wp {A} (c : M A) (Q : A -> store -> Prop) (st : store) : Prop :=
  match c st with
  | Some (a, st') => Q a st'
  | None => False
  end.

(** The contents of [res] after [i] rounds of the loop of [shiftZ]. *)
Definition shifted (zv : list fr) (i : nat) : list fr :=
  take i (drop 1 zv) ++ drop i zv.

(** The values one wire takes on a list of rows: the solution at the
    variable id that [sel] picks in each row. *)
Definition wire (sel : SparseR1C.t -> Term) (solution : list fr)
    (rows : list SparseR1C.t) : list fr :=
  map (fun c => default Fr.zero (solution !! VariableID (sel c))) rows.

(** A wire once the first [k] rows are written: zero beyond. *)
Definition wireUpTo (sel : SparseR1C.t -> Term) (solution : list fr)
    (rows : list SparseR1C.t) (n k : nat) : list fr :=
  wire sel solution (take k rows) ++ replicate (n - k) Fr.zero.

(** A wire once all rows and [k] padding rows are written. *)
Definition wirePadded (sel : SparseR1C.t -> Term) (solution : list fr)
    (rows : list SparseR1C.t) (n k : nat) : list fr :=
  wire sel solution rows ++ replicate k (default Fr.zero (solution !! 0%nat))
    ++ replicate (n - length rows - k) Fr.zero.

(** [copy(e, poly)] into a fresh slice of the domain's size. *)
Definition padded (poly : list fr) (d : Domain) : list fr :=
  copyInto poly (replicate (Cardinality d) Fr.zero).

(** The four work slices of [evaluateCosets] when its last loop starts. *)
Definition cosetTemps (poly : list fr) (d : Domain) : list (list fr) :=
  [BitReverse (FFT d (FFT d (padded poly d) 1) 5);
   BitReverse (FFT d (FFT d (padded poly d) 3) 7);
   BitReverse (padded poly d);
   BitReverse (padded poly d)].

(** Entry [i] of work slice [j]. *)
Definition tempAt (ts : list (list fr)) (j i : nat) : fr :=
  default Fr.zero (ts !! j ≫= (.!! i)).

(** Rows [0..n) of four sequences, interleaved: index [4i+j] holds entry
    [i] of sequence [j]. *)
Definition interleave4 (ts : list (list fr)) (n : nat) : list fr :=
  flat_map (fun i => [tempAt ts 0 i; tempAt ts 1 i; tempAt ts 2 i; tempAt ts 3 i])
           (seq 0 n).

(** What [evaluateCosets] leaves in [res]. *)
Definition cosetEvals (poly : list fr) (d : Domain) : list fr :=
  interleave4 (cosetTemps poly d) (Cardinality d).

(** Entry [i] of a sequence, zero beyond its end. *)
Definition at0 (a : list fr) (i : nat) : fr := default Fr.zero (a !! i).

(** The gate identity at one point, with the operations in the order
    [evalConstraints] performs them. *)
Definition gate (ql qr qm qo qk l r o : fr) : fr :=
  Fr.add
    (Fr.add
       (Fr.add (Fr.add (Fr.mul ql l) (Fr.mul qr r)) (Fr.mul (Fr.mul qm l) r))
       (Fr.mul qo o))
    qk.

(** The gate identity over the [4n] extended points, from the selector
    evaluations that [evaluateCosets] produces and three wire buffers. *)
Definition gateEvals {BOP OP} (pd : PublicRaw BOP OP) (lv rv ov : list fr)
    : list fr :=
  let d := DomainNum pd in
  map (fun i =>
         gate (at0 (cosetEvals (Ql pd) d) i) (at0 (cosetEvals (Qr pd) d) i)
              (at0 (cosetEvals (Qm pd) d) i) (at0 (cosetEvals (Qo pd) d) i)
              (at0 (cosetEvals (Qk pd) d) i)
              (at0 lv i) (at0 rv i) (at0 ov i))
      (seq 0 (4 * Cardinality d)).

(** The slices [evalConstraints] allocates: the five selector buffers, then
    the work slices of the five coset evaluations. *)
Definition evalConstraintsTemps {BOP OP} (pd : PublicRaw BOP OP)
    : list (list fr) :=
  let d := DomainNum pd in
  [cosetEvals (Ql pd) d; cosetEvals (Qr pd) d; cosetEvals (Qm pd) d;
   cosetEvals (Qo pd) d; cosetEvals (Qk pd) d]
  ++ cosetTemps (Ql pd) d ++ cosetTemps (Qr pd) d ++ cosetTemps (Qm pd) d
  ++ cosetTemps (Qo pd) d ++ cosetTemps (Qk pd) d.

(** The powers [1, g, .., g^(c-1)] of the domain's generator. *)
Definition genPowers (d : Domain) : list fr :=
  map (Fr.pow (Generator d)) (seq 0 (Cardinality d)).

(** [id] after the first loop of [evalIDCosets]: every power four times. *)
Definition idStart (d : Domain) : list fr :=
  interleave4 [genPowers d; genPowers d; genPowers d; genPowers d]
              (Cardinality d).

(** The factors [u[0..3]] of [evalIDCosets], as it computes them. *)
Definition cosetFactor (d : Domain) (j : nat) : fr :=
  let uu := Fr.square (FinerGenerator d) in
  let u0 := FinerGenerator d in
  let u1 := Fr.mul u0 uu in
  let u2 := Fr.mul u1 uu in
  let u3 := Fr.mul u2 uu in
  match j with
  | 0%nat => u0
  | 1%nat => u1
  | 2%nat => u2
  | _ => u3
  end.

(** The four cosets of the domain, one sequence per coset. *)
Definition idRows (d : Domain) : list (list fr) :=
  map (fun j => map (fun x => Fr.mul x (cosetFactor d j)) (genPowers d))
      (seq 0 4).

(** The cosets scaled by the first shifter. *)
Definition uidRows {BOP OP} (pd : PublicRaw BOP OP) : list (list fr) :=
  map (map (fun x => Fr.mul x (fst (Shifter pd)))) (idRows (DomainNum pd)).

(** [id] after [i] rounds of the second loop of [evalIDCosets]. *)
Definition idAfter (d : Domain) (i : nat) : list fr :=
  interleave4 (idRows d) i ++ drop (4 * i) (idStart d).

(** [uid] after [i] rounds of the second loop. *)
Definition uidAfter {BOP OP} (pd : PublicRaw BOP OP) (i : nat) : list fr :=
  interleave4 (uidRows pd) i
  ++ drop (4 * i) (replicate (4 * Cardinality (DomainNum pd)) Fr.zero).

(** What round [i] of the second loop does to [uuid]: it reads [id] at
    [i], [i+c], [i+2c], [i+3c], as [id] stands once round [i] has scaled
    its own four entries. *)
Definition uuidRound {BOP OP} (pd : PublicRaw BOP OP) (i : nat)
    (uuid : list fr) : list fr :=
  let d := DomainNum pd in
  let c := Cardinality d in
  let id := idAfter d (S i) in
  let sh1 := snd (Shifter pd) in
  <[(i + 3 * c)%nat := Fr.mul (at0 id (i + 3 * c)) sh1]>
    (<[(i + 2 * c)%nat := Fr.mul (at0 id (i + 2 * c)) sh1]>
       (<[(i + c)%nat := Fr.mul (at0 id (i + c)) sh1]>
          (<[i := Fr.mul (at0 id i) sh1]> uuid))).

(** [uuid] after [k] rounds. *)
Definition uuidAfter {BOP OP} (pd : PublicRaw BOP OP) (k : nat) : list fr :=
  fold_left (fun uuid i => uuidRound pd i uuid) (seq 0 k)
            (replicate (4 * Cardinality (DomainNum pd)) Fr.zero).

(** The three sequences [evalIDCosets] returns. *)
Definition idCosets {BOP OP} (pd : PublicRaw BOP OP) : list (list fr) :=
  let c := Cardinality (DomainNum pd) in
  [idAfter (DomainNum pd) c; uidAfter pd c; uuidAfter pd c].

(** The permutation identity at one point, with the operations in the
    order [evalConstraintOrdering] performs them: [f] gathers the identity
    factors and is multiplied by [z], [g] gathers the [s1], [s2], [s3]
    factors and is multiplied by [zu]; the result is [g - f]. *)
Definition ordering (z zu l r o id uid uuid s1 s2 s3 : fr) : fr :=
  let f0 := Fr.add (Fr.add l id) gamma in
  let f1 := Fr.add (Fr.add r uid) gamma in
  let f2 := Fr.add (Fr.add o uuid) gamma in
  let g0 := Fr.add (Fr.add l s1) gamma in
  let g1 := Fr.add (Fr.add r s2) gamma in
  let g2 := Fr.add (Fr.add o s3) gamma in
  let f := Fr.mul (Fr.mul (Fr.mul (Fr.mul f0 f1) f2) l) z in
  let g := Fr.mul (Fr.mul (Fr.mul (Fr.mul g0 g1) g2) l) zu in
  Fr.sub g f.

(** The permutation identity over the [4n] extended points. *)
Definition orderingEvals {BOP OP} (pd : PublicRaw BOP OP)
    (zv zuv lv rv ov : list fr) : list fr :=
  let d := DomainNum pd in
  let c := Cardinality d in
  map (fun i =>
         ordering (at0 (cosetEvals zv d) i) (at0 (cosetEvals zuv d) i)
                  (at0 lv i) (at0 rv i) (at0 ov i)
                  (at0 (idAfter d c) i) (at0 (uidAfter pd c) i)
                  (at0 (uuidAfter pd c) i)
                  (at0 (cosetEvals (CS1 pd) d) i)
                  (at0 (cosetEvals (CS2 pd) d) i)
                  (at0 (cosetEvals (CS3 pd) d) i))
      (seq 0 (4 * c)).

(** The slices [evalConstraintOrdering] allocates before [res]: five
    buffers, the work slices of five coset evaluations, and the three
    identity sequences. *)
Definition orderingTemps {BOP OP} (pd : PublicRaw BOP OP) (zv zuv : list fr)
    : list (list fr) :=
  let d := DomainNum pd in
  ([cosetEvals zv d; cosetEvals zuv d; cosetEvals (CS1 pd) d;
    cosetEvals (CS2 pd) d; cosetEvals (CS3 pd) d]
   ++ cosetTemps zv d ++ cosetTemps zuv d ++ cosetTemps (CS1 pd) d
   ++ cosetTemps (CS2 pd) d ++ cosetTemps (CS3 pd) d)
  ++ idCosets pd.

(** The solution has a value at every variable id the rows mention. *)
Definition idsInRange (solution : list fr) (rows : list SparseR1C.t) : bool :=
  forallb (fun c =>
             (VariableID (SparseR1C.L c) <? length solution)%nat
             && (VariableID (SparseR1C.R c) <? length solution)%nat
             && (VariableID (SparseR1C.O c) <? length solution)%nat)
          rows.

(** The three wires [ComputeLRO] builds for a domain of [n] points. *)
Definition wiresLRO (solution : list fr) (rows : list SparseR1C.t) (n : nat)
    : list fr * list fr * list fr :=
  (wirePadded SparseR1C.L solution rows n (n - length rows),
   wirePadded SparseR1C.R solution rows n (n - length rows),
   wirePadded SparseR1C.O solution rows n (n - length rows)).

(** The point [4i+j] of the extended domain: [Generator^i] on the coset of
    [FinerGenerator^(2j+1)]. *)
Definition extendedPoint (d : Domain) (i j : nat) : fr :=
  Fr.mul (Fr.pow (Generator d) i) (Fr.pow (FinerGenerator d) (2 * j + 1)).

(** The vanishing polynomial [X^n - 1] of a domain of [n] points. *)
Definition vanishing (d : Domain) (x : fr) : fr :=
  Fr.sub (Fr.exp x (Z.of_nat (Cardinality d))) Fr.one.

(** The numerator [(l+id+gamma)(r+u*id+gamma)(o+w*id+gamma)] of one step of
    the accumulator, for shifters [u] and [w]. *)
Definition numerator (l r o id u w : fr) : fr :=
  Fr.mul (Fr.mul (Fr.add (Fr.add l id) gamma)
                 (Fr.add (Fr.add r (Fr.mul u id)) gamma))
         (Fr.add (Fr.add o (Fr.mul w id)) gamma).

(** The denominator [(l+s1+gamma)(r+s2+gamma)(o+s3+gamma)] of one step. *)
Definition denominator (l r o s1 s2 s3 : fr) : fr :=
  Fr.mul (Fr.mul (Fr.add (Fr.add l s1) gamma)
                 (Fr.add (Fr.add r s2) gamma))
         (Fr.add (Fr.add o s3) gamma).

(** [x] multiplied [n] times by [g] on the right: what the variables
    [u[0..2]] of [ComputeZ] hold after [n] rounds. *)
Fixpoint scaled (x g : fr) (n : nat) : fr :=
  match n with
  | O => x
  | S n' => Fr.mul (scaled x g n') g
  end.

(** The product [(l+x+gamma)(r+y+gamma)(o+w+gamma)] that one round of
    [ComputeZ] forms twice: once with the identity values [x, y, w] of the
    three wire copies, once with the values of the permutation. *)
Definition wireProduct (l r o x y w : fr) : fr :=
  Fr.mul (Fr.mul (Fr.add (Fr.add l x) gamma)
                 (Fr.add (Fr.add r y) gamma))
         (Fr.add (Fr.add o w) gamma).

(** The numerator of round [i] of [ComputeZ], as it computes it: the
    identity of the three wire copies is [gen^i], [Shifter[0]*gen^i] and
    [Shifter[1]^2*gen^i]. *)
Definition zNum {BOP OP} (pd : PublicRaw BOP OP) (lv rv ov : list fr)
    (i : nat) : fr :=
  let g := Generator (DomainNum pd) in
  wireProduct (at0 lv i) (at0 rv i) (at0 ov i)
    (scaled Fr.one g i) (scaled (fst (Shifter pd)) g i)
    (scaled (Fr.square (snd (Shifter pd))) g i).

(** The denominator of round [i] of [ComputeZ]. *)
Definition zDen {BOP OP} (pd : PublicRaw BOP OP) (lv rv ov : list fr)
    (i : nat) : fr :=
  wireProduct (at0 lv i) (at0 rv i) (at0 ov i)
    (at0 (LS1 pd) i) (at0 (LS2 pd) i) (at0 (LS3 pd) i).

(** Entry [i] of the accumulator [ComputeZ] builds. *)
Fixpoint zValue {BOP OP} (pd : PublicRaw BOP OP) (lv rv ov : list fr)
    (i : nat) : fr :=
  match i with
  | O => Fr.one
  | S i' => Fr.div (Fr.mul (zValue pd lv rv ov i') (zNum pd lv rv ov i'))
                   (zDen pd lv rv ov i')
  end.

(** The accumulator over a domain of [n] points. *)
Definition zAcc {BOP OP} (pd : PublicRaw BOP OP) (lv rv ov : list fr)
    : list fr :=
  map (zValue pd lv rv ov) (seq 0 (Cardinality (DomainNum pd))).

(** The accumulator slice once entries [0..k) are written. *)
Definition zUpTo {BOP OP} (pd : PublicRaw BOP OP) (lv rv ov : list fr)
    (k : nat) : list fr :=
  map (zValue pd lv rv ov) (seq 0 k)
  ++ replicate (Cardinality (DomainNum pd) - k) Fr.zero.

(** ** Vocabulary for the whole run of the prover *)

Local Open Scope nat_scope.

(** The combined evaluations of [computeH] after its first loop:
    [constraintsInd + alpha * constraintOrdering] at each of the [4n]
    points. *)
Definition hCombined {BOP OP} (pd : PublicRaw BOP OP) (ci co : list fr)
    : list fr :=
  map (fun m => Fr.add (at0 ci m) (Fr.mul alpha (at0 co m)))
      (seq 0 (4 * Cardinality (DomainNum pd))).

(** The factor [u[j]] that [computeH] applies to coset [j]. *)
Definition hFactor (d : Domain) (j : nat) : fr :=
  let '(u0, u1, u2, u3) := computeH_u d in
  match j with
  | 0 => u0
  | 1 => u1
  | 2 => u2
  | _ => u3
  end.

(** The four cosets of the combined evaluations, each scaled by its
    factor. *)
Definition hRows {BOP OP} (pd : PublicRaw BOP OP) (ci co : list fr)
    : list (list fr) :=
  map (fun j =>
         map (fun i => Fr.mul (at0 (hCombined pd ci co) (4 * i + j))
                              (hFactor (DomainNum pd) j))
             (seq 0 (Cardinality (DomainNum pd))))
      (seq 0 4).

(** The buffer [h] of [computeH] before the inverse FFT. *)
Definition hEvals {BOP OP} (pd : PublicRaw BOP OP) (ci co : list fr)
    : list fr :=
  interleave4 (hRows pd ci co) (Cardinality (DomainNum pd)).

(** The coefficients [computeH] returns. *)
Definition hCoefficients {BOP OP} (pd : PublicRaw BOP OP) (ci co : list fr)
    : list fr :=
  BitReverse (FFTInverse (DomainH pd) (hEvals pd ci co) 1).

(** A sequence rotated left by one position: what [shiftZ] builds. *)
Definition rotated (zv : list fr) : list fr := drop 1 zv ++ take 1 zv.

(** Coefficient form of a sequence in Lagrange form over the domain [d]:
    the inverse FFT followed by the bit reversal, as [Prove] applies them. *)
Definition canonical (d : Domain) (a : list fr) : list fr :=
  BitReverse (FFTInverse d a 0).

(** The five polynomials [l, r, o, h, z] that [Prove] opens, in
    coefficient form, from the solution of the circuit. *)
Definition provePolys {BOP OP} (spr : SparseR1CS) (pd : PublicRaw BOP OP)
    (solution : list fr) : list Poly :=
  let d := DomainNum pd in
  let n := Cardinality d in
  let '(lw, rw, ow) := wiresLRO solution (Constraints spr ++ Assertions spr) n in
  let cL := cosetEvals (Ql pd) d in
  let cR := cosetEvals (Qr pd) d in
  let cO := cosetEvals (Qm pd) d in
  let ci := gateEvals pd cL cR cO in
  let zl := zAcc pd lw rw ow in
  let z := canonical d zl in
  let zu := canonical d (rotated zl) in
  let co := orderingEvals pd z zu ci cR cO in
  [canonical d lw; canonical d rw; canonical d ow; hCoefficients pd ci co; z].

(** The [Proof] that [Prove] assembles from those polynomials. *)
Definition populatedProof {BOP OP} (pd : PublicRaw BOP OP)
    (polys : list Poly) : Proof BOP OP :=
  let zzeta := Fr.mul zeta (Generator (DomainNum pd)) in
  let z := default [] (polys !! 4) in
  {| LROHZ := map (fun p => Eval p zeta) polys;
     ZShift := Eval z zzeta;
     BatchOpenings :=
       Some (BatchOpenSinglePoint _ _ (CommitmentScheme pd) zeta vBundle polys);
     OpeningZShift := Some (Open _ _ (CommitmentScheme pd) zzeta z) |}.

(** The inputs on which [Prove] runs to the end: a domain with at least
    one point that the rows fit, a solution covering every variable id (and
    the dummy slot when rows are padded), and permutation sequences long
    enough for the accumulator. *)
Definition wellFormed {BOP OP} (spr : SparseR1CS) (pd : PublicRaw BOP OP)
    (solution : list fr) : bool :=
  let n := Cardinality (DomainNum pd) in
  let rows := Constraints spr ++ Assertions spr in
  (0 <? n) && (length rows <=? n)
  && idsInRange solution rows
  && ((n <=? length rows) || (0 <? length solution))
  && (n - 1 <=? length (LS1 pd)) && (n - 1 <=? length (LS2 pd))
  && (n - 1 <=? length (LS3 pd)).

(** The slices [Prove] has allocated once the gate identity is evaluated:
    the wires, the buffers [evalL] (holding [constraintsInd]), [evalR],
    [evalO], and the work slices of the coset evaluations. *)
Definition gateStore {BOP OP} (spr : SparseR1CS) (pd : PublicRaw BOP OP)
    (solution : list fr) : list (list fr) :=
  let d := DomainNum pd in
  let n := Cardinality d in
  let w := wiresLRO solution (Constraints spr ++ Assertions spr) n in
  let cL := cosetEvals (Ql pd) d in
  let cR := cosetEvals (Qr pd) d in
  let cO := cosetEvals (Qm pd) d in
  [w.1.1; w.1.2; w.2; gateEvals pd cL cR cO; cR; cO]
  ++ cosetTemps (Ql pd) d ++ cosetTemps (Qr pd) d ++ cosetTemps (Qm pd) d
  ++ evalConstraintsTemps pd.

(** The inputs on which [ComputeLRO] does not run out of range: the rows
    fit the domain, every variable id has a value in the solution, and the
    dummy slot 0 exists when a row is padded. *)
Definition lroInRange {BOP OP} (spr : SparseR1CS) (pd : PublicRaw BOP OP)
    (solution : list fr) : bool :=
  let n := Cardinality (DomainNum pd) in
  let rows := Constraints spr ++ Assertions spr in
  (length rows <=? n) && idsInRange solution rows
  && ((n <=? length rows) || (0 <? length solution)).

(** The variable ids of a row are all within the solution. *)
Definition rowInRange (solution : list fr) (c : SparseR1C.t) : bool :=
  (VariableID (SparseR1C.L c) <? length solution)
  && (VariableID (SparseR1C.R c) <? length solution)
  && (VariableID (SparseR1C.O c) <? length solution).

(** The shape the store keeps while [ComputeLRO] fills the three wires. *)
Definition wiresOf (st : store) (n : nat) (st' : store) : Prop :=
  exists a b c, st' = st ++ [a; b; c] /\
                length a = n /\ length b = n /\ length c = n.

(** The shape the store keeps while the last loop of [evaluateCosets]
    writes [res]: only [res] changes, and it keeps its length. *)
Definition onlySlice (base : store) (res : slice) (len : nat) (st' : store)
    : Prop :=
  exists cur, st' = <[res := cur]> base /\ length cur = len.

Local Close Scope nat_scope.

(** * Concrete inputs

    Domains of one and two points in the scalar field, and the circuit with
    the single multiplication gate [a * b = c]. *)
Module Example.

(** A primitive [2^28]-th root of unity of the scalar field, and the roots
    of order 16, 8, 4 and 2 it generates. *)
Definition root28 : fr :=
  19103219067921713944291392827692070036145651957329286315305642004821462161904%Z.
Definition w16 : fr := Eval vm_compute in Fr.exp root28 (2 ^ 24).
Definition w8 : fr := Eval vm_compute in Fr.exp root28 (2 ^ 25).
Definition w4 : fr := Eval vm_compute in Fr.exp root28 (2 ^ 26).
Definition w2 : fr := Eval vm_compute in Fr.exp root28 (2 ^ 27).

(** The domain of one point, with its finer generator of order 8, and the
    extended domain of four points. *)
Definition d1 : Domain := mkDomain 1 1 w8.
Definition dH1 : Domain := mkDomain 4 w4 w8.

(** The domain of two points, with its finer generator of order 16, and the
    extended domain of eight points. *)
Definition d2 : Domain := mkDomain 2 w2 w16.
Definition dH2 : Domain := mkDomain 8 w8 w16.

(** A commitment scheme whose opening proofs record the opened values. *)
Definition scheme : CommitmentSchemeT (list fr) (fr * fr) :=
  mkScheme (fun point _ polys => map (fun p => Eval p point) polys)
           (fun point p => (point, Eval p point)).

(** Coefficient form, over [d2], of a sequence in Lagrange form. *)
Definition canonical2 (a : list fr) : list fr :=
  BitReverse (FFTInverse d2 a 0).

(** The shifters: [shifter0] and its square. *)
Definition shifter0 : fr := w16.
Definition shifter1 : fr := Eval vm_compute in Fr.square w16.

(** The gate [a * b = c] in row 0 ([Qm = 1], [Qo = -1]) and a dummy row;
    the permutation fixes row 0 and cycles the three wires of the dummy
    row. *)
Definition ql2 : Poly := [0; 0]%Z.
Definition qm2 : Poly := Eval vm_compute in canonical2 [1; 0]%Z.
Definition qo2 : Poly := Eval vm_compute in canonical2 [Fr.q - 1; 0]%Z.
Definition ls1 : Poly := Eval vm_compute in [1%Z; Fr.mul shifter0 w2].
Definition ls2 : Poly := Eval vm_compute in [shifter0; Fr.mul shifter1 w2].
Definition ls3 : Poly := Eval vm_compute in [shifter1; w2].
Definition cs1 : Poly := Eval vm_compute in canonical2 ls1.
Definition cs2 : Poly := Eval vm_compute in canonical2 ls2.
Definition cs3 : Poly := Eval vm_compute in canonical2 ls3.

Definition publicData2 : PublicRaw (list fr) (fr * fr) :=
  mkPublicRaw d2 dH2 ql2 ql2 qm2 qo2 ql2 ls1 ls2 ls3 cs1 cs2 cs3
              (shifter0, shifter1) scheme.

(** One constraint, on the variables 1, 2 and 3. *)
Definition mulGate : SparseR1CS :=
  mkSparseR1CS [SparseR1C.mk (mkTerm 1) (mkTerm 2) (mkTerm 3)] [].

(** The assignment [3 * 4 = 12], with the dummy slot 0. *)
Definition assignment : list fr := [0; 3; 4; 12]%Z.

(** A solver that succeeds, and one that reports a failure; both hand back
    the witness as the solution. *)
Definition solveOk (_ : SparseR1CS) (w : Witness) : list fr * option error :=
  (w, None).
Definition solveFails (_ : SparseR1CS) (w : Witness) : list fr * option error :=
  (w, Some (errorString "unsatisfied constraint")).

(** Public data over the domain of one point: the gate [a * b = c] alone,
    constant permutation polynomials, shifters 2 and 4. *)
Definition publicData1 : PublicRaw (list fr) (fr * fr) :=
  mkPublicRaw d1 dH1 [0%Z] [0%Z] [1%Z] [(Fr.q - 1)%Z] [0%Z]
              [4%Z] [5%Z] [6%Z] [4%Z] [5%Z] [6%Z] (2%Z, 4%Z) scheme.

End Example.

(** * Reasoning about computations *)

Lemma wp_runs {A} (c : M A) Q st :
  wp c Q st -> exists a st', c st = Some (a, st') /\ Q a st'.
Proof.
  unfold wp. destruct (c st) as [[a st']|]; [eauto | tauto].
Qed.

Lemma runs_wp {A} (c : M A) (Q : A -> store -> Prop) st a st' :
  c st = Some (a, st') -> Q a st' -> wp c Q st.
Proof. unfold wp. intros ->. auto. Qed.

Lemma wp_mono {A} (c : M A) (Q Q' : A -> store -> Prop) st :
  wp c Q st -> (forall a st', Q a st' -> Q' a st') -> wp c Q' st.
Proof.
  unfold wp. destruct (c st) as [[a st']|]; [auto | tauto].
Qed.

Lemma wp_ret {A} (a : A) (Q : A -> store -> Prop) st :
  Q a st -> wp (ret a) Q st.
Proof. auto. Qed.

Lemma wp_bind {A B} (c : M A) (k : A -> M B) Q st :
  wp c (fun a st' => wp (k a) Q st') st -> wp (bind c k) Q st.
Proof.
  unfold wp, bind. destruct (c st) as [[a st']|]; [auto | tauto].
Qed.

Lemma wp_make n (Q : slice -> store -> Prop) st :
  Q (length st) (st ++ [replicate n Fr.zero]) -> wp (make n) Q st.
Proof. auto. Qed.

Lemma wp_len s a (Q : nat -> store -> Prop) (st : store) :
  st !! s = Some a -> Q (length a) st -> wp (len s) Q st.
Proof. unfold wp, len. intros ->. auto. Qed.

Lemma wp_read s a (Q : list fr -> store -> Prop) (st : store) :
  st !! s = Some a -> Q a st -> wp (read s) Q st.
Proof. unfold wp, read. intros ->. auto. Qed.

Lemma wp_load s i a v (Q : fr -> store -> Prop) (st : store) :
  st !! s = Some a -> a !! i = Some v -> Q v st -> wp (load s i) Q st.
Proof. unfold wp, load. intros -> ->. auto. Qed.

Lemma wp_index (p : list fr) i v (Q : fr -> store -> Prop) (st : store) :
  p !! i = Some v -> Q v st -> wp (index p i) Q st.
Proof. unfold wp, index. intros ->. auto. Qed.

Lemma wp_storeAt s i v a (Q : unit -> store -> Prop) (st : store) :
  st !! s = Some a -> (i < length a)%nat ->
  Q tt (<[s := <[i := v]> a]> st) -> wp (storeAt s i v) Q st.
Proof.
  unfold wp, storeAt. intros -> Hi. destruct (decide (i < length a)%nat); [auto | lia].
Qed.

Lemma wp_modify s f a (Q : unit -> store -> Prop) (st : store) :
  st !! s = Some a -> Q tt (<[s := f a]> st) -> wp (modify s f) Q st.
Proof. unfold wp, modify. intros ->. auto. Qed.

(** A loop establishes its invariant at the exit index when every round
    carries it one index further. *)
Lemma wp_forM {A} (I : nat -> A -> store -> Prop) start n a
    (body : nat -> A -> M A) (Q : A -> store -> Prop) st :
  I start a st ->
  (forall i a st, (start <= i < start + n)%nat -> I i a st ->
     wp (body i a) (fun a' st' => I (S i) a' st') st) ->
  (forall a st, I (start + n)%nat a st -> Q a st) ->
  wp (forM start n a body) Q st.
Proof.
  revert start a st. induction n as [|n IH]; intros start a st H0 Hstep Hq; simpl.
  - apply wp_ret, Hq. by rewrite Nat.add_0_r.
  - apply wp_bind. eapply wp_mono; [apply (Hstep start a st); [lia | done]|].
    intros a' st' H'. apply IH; [done | |].
    + intros i a0 st0 Hi. apply Hstep. lia.
    + intros a0 st0 Hi. apply Hq. by replace (start + S n)%nat with (S start + n)%nat by lia.
Qed.

Lemma wp_for (I : nat -> store -> Prop) start n (body : nat -> M unit)
    (Q : unit -> store -> Prop) st :
  I start st ->
  (forall i st, (start <= i < start + n)%nat -> I i st ->
     wp (body i) (fun _ st' => I (S i) st') st) ->
  (forall st, I (start + n)%nat st -> Q tt st) ->
  wp (for_ start n body) Q st.
Proof.
  intros H0 Hstep Hq. unfold for_.
  apply (wp_forM (fun i _ st => I i st)); [done | |].
  - intros i [] st0 Hi HI. by apply Hstep.
  - intros [] st0 HI. by apply Hq.
Qed.

(** ** Lookups in a store that grew or was updated *)

Lemma store_lookup_new (st : store) a : (st ++ [a]) !! length st = Some a.
Proof. rewrite lookup_app_r by lia. by rewrite Nat.sub_diag. Qed.

Lemma store_lookup_old (st : store) a s :
  (s < length st)%nat -> (st ++ [a]) !! s = st !! s.
Proof. intros. by rewrite lookup_app_l. Qed.

Lemma store_lookup_set (st : store) s a b :
  st !! s = Some b -> (<[s := a]> st) !! s = Some a.
Proof. intros H. apply list_lookup_insert_eq. by eapply lookup_lt_Some. Qed.

Lemma store_lookup_other (st : store) s s' a :
  s ≠ s' -> (<[s := a]> st) !! s' = st !! s'.
Proof. intros. by apply list_lookup_insert_ne. Qed.

Lemma store_set_new (st : store) a b :
  <[length st := a]> (st ++ [b]) = st ++ [a].
Proof.
  rewrite insert_app_r_alt by lia. by rewrite Nat.sub_diag.
Qed.

Lemma copyInto_zeros (src : list fr) :
  copyInto src (replicate (length src) Fr.zero) = src.
Proof.
  unfold copyInto. rewrite length_replicate, firstn_all.
  rewrite drop_ge by (rewrite length_replicate; lia). apply app_nil_r.
Qed.

(** ** [shiftZ] *)

Lemma shifted_step (zv : list fr) i v :
  zv !! (i + 1)%nat = Some v ->
  <[i := v]> (shifted zv i) = shifted zv (S i).
Proof.
  intros Hv. unfold shifted.
  assert (Hlen : (i + 1 < length zv)%nat) by (by eapply lookup_lt_Some).
  assert (Htk : length (take i (drop 1 zv)) = i)
    by (rewrite length_take, length_drop; lia).
  rewrite insert_app_r_alt by lia. rewrite Htk, Nat.sub_diag.
  assert (Hd : drop 1 zv !! i = Some v)
    by (rewrite lookup_drop; by replace (1 + i)%nat with (i + 1)%nat by lia).
  rewrite (take_S_r _ _ _ Hd), <- app_assoc. f_equal.
  destruct (drop i zv) as [|w ws] eqn:E.
  - apply (f_equal length) in E. rewrite length_drop in E. simpl in E. lia.
  - simpl. f_equal.
    assert (E' : drop (S i) zv = drop 1 (drop i zv))
      by (rewrite drop_drop; f_equal; lia).
    rewrite E', E. reflexivity.
Qed.

Lemma shifted_lookup_next (zv : list fr) i :
  (i + 1 < length zv)%nat -> shifted zv i !! (i + 1)%nat = zv !! (i + 1)%nat.
Proof.
  intros Hlen. unfold shifted.
  assert (Htk : length (take i (drop 1 zv)) = i)
    by (rewrite length_take, length_drop; lia).
  rewrite lookup_app_r by lia. rewrite Htk, lookup_drop. f_equal. lia.
Qed.

Lemma length_shifted (zv : list fr) i :
  (i < length zv)%nat -> length (shifted zv i) = length zv.
Proof.
  intros. unfold shifted. rewrite length_app, length_take, !length_drop. lia.
Qed.

Lemma shifted_last (v : fr) (tl : list fr) :
  <[length tl := v]> (shifted (v :: tl) (length tl)) = tl ++ [v].
Proof.
  unfold shifted. simpl drop at 1. rewrite drop_0, firstn_all.
  rewrite insert_app_r_alt by lia. rewrite Nat.sub_diag. f_equal.
  assert (Hl : length (drop (length tl) (v :: tl)) = 1%nat)
    by (rewrite length_drop; simpl; lia).
  destruct (drop (length tl) (v :: tl)) as [|w [|w' ws]]; simpl in Hl; try lia.
  reflexivity.
Qed.

(** [shiftZ] allocates one slice, holding the input rotated left by one
    position, and touches nothing else. *)
Lemma shiftZ_spec (z : slice) (v : fr) (tl : list fr) (st : store) :
  st !! z = Some (v :: tl) ->
  shiftZ z st = Some (length st, st ++ [tl ++ [v]]).
Proof.
  intros Hz.
  assert (Hzl : (z < length st)%nat) by (by eapply lookup_lt_Some).
  set (zv := v :: tl) in *.
  enough (Hwp : wp (shiftZ z)
                   (fun res st' => res = length st /\ st' = st ++ [tl ++ [v]]) st).
  { apply wp_runs in Hwp as (a & st' & Hr & -> & ->). exact Hr. }
  unfold shiftZ.
  apply wp_bind. eapply wp_len; [exact Hz|].
  apply wp_bind. apply wp_make.
  apply wp_bind. eapply wp_read; [by rewrite store_lookup_old|].
  apply wp_bind. eapply wp_modify; [apply store_lookup_new|].
  rewrite store_set_new, copyInto_zeros.
  apply wp_bind. eapply wp_load; [apply store_lookup_new | reflexivity |].
  apply wp_bind.
  apply (wp_for (fun i st' => st' = st ++ [shifted zv i])).
  - reflexivity.
  - intros i st' Hi ->. unfold setTo. simpl in Hi.
    assert (Hlt : (i + 1 < length zv)%nat) by (simpl; lia).
    destruct (lookup_lt_is_Some_2 zv (i + 1)%nat Hlt) as [w Hw].
    apply wp_bind. eapply wp_load;
      [apply store_lookup_new | by rewrite shifted_lookup_next |].
    eapply wp_storeAt; [apply store_lookup_new | rewrite length_shifted; lia |].
    rewrite store_set_new. by rewrite (shifted_step _ _ _ Hw).
  - intros st' ->. simpl. rewrite Nat.sub_0_r.
    apply wp_bind. eapply wp_storeAt;
      [apply store_lookup_new | rewrite length_shifted; simpl; lia |].
    rewrite store_set_new.
    apply wp_ret. split; [reflexivity|]. do 2 f_equal. apply shifted_last.
Qed.

(** ** [ComputeLRO] *)

Lemma store3_lookup (st : store) (a b c : list fr) :
  (st ++ [a; b; c]) !! length st = Some a /\
  (st ++ [a; b; c]) !! S (length st) = Some b /\
  (st ++ [a; b; c]) !! S (S (length st)) = Some c.
Proof.
  repeat split; rewrite lookup_app_r by lia.
  - by rewrite Nat.sub_diag.
  - by replace (S (length st) - length st)%nat with 1%nat by lia.
  - by replace (S (S (length st)) - length st)%nat with 2%nat by lia.
Qed.

Lemma store3_set (st : store) (a b c x : list fr) :
  <[length st := x]> (st ++ [a; b; c]) = st ++ [x; b; c] /\
  <[S (length st) := x]> (st ++ [a; b; c]) = st ++ [a; x; c] /\
  <[S (S (length st)) := x]> (st ++ [a; b; c]) = st ++ [a; b; x].
Proof.
  repeat split; rewrite insert_app_r_alt by lia.
  - by rewrite Nat.sub_diag.
  - by replace (S (length st) - length st)%nat with 1%nat by lia.
  - by replace (S (S (length st)) - length st)%nat with 2%nat by lia.
Qed.

(** One row written: each of the three wires is updated at index [i]. *)
Lemma setRow_spec (st : store) (solution a b c : list fr) i ia ib ic va vb vc
    (Q : unit -> store -> Prop) :
  solution !! ia = Some va -> solution !! ib = Some vb ->
  solution !! ic = Some vc ->
  (i < length a)%nat -> (i < length b)%nat -> (i < length c)%nat ->
  Q tt (st ++ [<[i := va]> a; <[i := vb]> b; <[i := vc]> c]) ->
  wp (setRow (length st) (S (length st)) (S (S (length st))) solution i ia ib ic)
     Q (st ++ [a; b; c]).
Proof.
  intros Ha Hb Hc La Lb Lc HQ. unfold setRow.
  apply wp_bind. eapply wp_index; [exact Ha|].
  apply wp_bind. eapply wp_storeAt; [apply store3_lookup | exact La |].
  rewrite (proj1 (store3_set _ _ _ _ _)).
  apply wp_bind. eapply wp_index; [exact Hb|].
  apply wp_bind. eapply wp_storeAt; [apply store3_lookup | exact Lb |].
  rewrite (proj1 (proj2 (store3_set _ _ _ _ _))).
  apply wp_bind. eapply wp_index; [exact Hc|].
  eapply wp_storeAt; [apply store3_lookup | exact Lc |].
  by rewrite (proj2 (proj2 (store3_set _ _ _ _ _))).
Qed.

Lemma length_wire sel solution rows : length (wire sel solution rows) = length rows.
Proof. unfold wire. by rewrite length_map. Qed.

Lemma length_wireUpTo sel solution rows n k :
  (k <= length rows)%nat -> (k <= n)%nat ->
  length (wireUpTo sel solution rows n k) = n.
Proof.
  intros. unfold wireUpTo.
  rewrite length_app, length_wire, length_take, length_replicate. lia.
Qed.

Lemma length_wirePadded sel solution rows n k :
  (length rows + k <= n)%nat -> length (wirePadded sel solution rows n k) = n.
Proof.
  intros. unfold wirePadded.
  rewrite !length_app, length_wire, !length_replicate. lia.
Qed.

Lemma wireUpTo_step sel solution rows n k c v :
  rows !! k = Some c -> (k < n)%nat ->
  solution !! VariableID (sel c) = Some v ->
  <[k := v]> (wireUpTo sel solution rows n k) = wireUpTo sel solution rows n (S k).
Proof.
  intros Hc Hk Hv. unfold wireUpTo.
  assert (Hlt : (k < length rows)%nat) by (by eapply lookup_lt_Some).
  assert (Hl : length (wire sel solution (take k rows)) = k)
    by (rewrite length_wire, length_take; lia).
  rewrite insert_app_r_alt by lia. rewrite Hl, Nat.sub_diag.
  rewrite (take_S_r _ _ _ Hc). unfold wire at 2. rewrite map_app.
  rewrite <- app_assoc. f_equal. simpl. rewrite Hv. simpl.
  replace (n - k)%nat with (S (n - S k)) by lia. reflexivity.
Qed.

Lemma wireUpTo_all sel solution rows n :
  wireUpTo sel solution rows n (length rows) = wirePadded sel solution rows n 0.
Proof.
  unfold wireUpTo, wirePadded. rewrite firstn_all. simpl.
  by rewrite Nat.sub_0_r.
Qed.

Lemma wirePadded_step sel solution rows n k v :
  (length rows + k < n)%nat -> solution !! 0%nat = Some v ->
  <[(length rows + k)%nat := v]> (wirePadded sel solution rows n k)
  = wirePadded sel solution rows n (S k).
Proof.
  intros Hk Hv. unfold wirePadded. rewrite Hv. simpl default.
  rewrite insert_app_r_alt by (rewrite length_wire; lia).
  rewrite length_wire. f_equal.
  rewrite insert_app_r_alt by (rewrite length_replicate; lia).
  rewrite length_replicate.
  replace (length rows + k - length rows - k)%nat with 0%nat by lia.
  replace (n - length rows - k)%nat with (S (n - length rows - S k)) by lia.
  simpl. rewrite cons_middle, app_assoc, <- replicate_S_end. reflexivity.
Qed.

Lemma wp_constraintAt (cs : list SparseR1C.t) i c
    (Q : SparseR1C.t -> store -> Prop) (st : store) :
  cs !! i = Some c -> Q c st -> wp (constraintAt cs i) Q st.
Proof. unfold wp, constraintAt. intros ->. auto. Qed.

Section ComputeLRO_correct.

Context {BOP OP : Type}.
Variables (spr : SparseR1CS) (publicData : PublicRaw BOP OP)
          (solution : list fr).

Let n := Cardinality (DomainNum publicData).
Let rows := Constraints spr ++ Assertions spr.

Hypothesis Hfit : (length rows <= n)%nat.
Hypothesis Hids : idsInRange solution rows = true.
Hypothesis Hpad : (length rows < n)%nat -> (0 < length solution)%nat.

Lemma idsInRange_lookup c :
  c ∈ rows ->
  is_Some (solution !! VariableID (SparseR1C.L c)) /\
  is_Some (solution !! VariableID (SparseR1C.R c)) /\
  is_Some (solution !! VariableID (SparseR1C.O c)).
Proof.
  intros Hc. unfold idsInRange in Hids.
  rewrite forallb_forall in Hids.
  apply list_elem_of_In, Hids in Hc.
  apply andb_prop in Hc as [Hc Ho]. apply andb_prop in Hc as [Hl Hr].
  apply Nat.ltb_lt in Hl, Hr, Ho.
  repeat split; by apply lookup_lt_is_Some_2.
Qed.

Lemma setRow_wireUpTo (st : store) k c (Q : unit -> store -> Prop) :
  rows !! k = Some c ->
  Q tt (st ++ [wireUpTo SparseR1C.L solution rows n (S k);
               wireUpTo SparseR1C.R solution rows n (S k);
               wireUpTo SparseR1C.O solution rows n (S k)]) ->
  wp (setRow (length st) (S (length st)) (S (S (length st))) solution k
        (VariableID (SparseR1C.L c)) (VariableID (SparseR1C.R c))
        (VariableID (SparseR1C.O c)))
     Q (st ++ [wireUpTo SparseR1C.L solution rows n k;
               wireUpTo SparseR1C.R solution rows n k;
               wireUpTo SparseR1C.O solution rows n k]).
Proof.
  intros Hc HQ.
  assert (Hk : (k < length rows)%nat) by (by eapply lookup_lt_Some).
  destruct (idsInRange_lookup c) as ([vl Hvl] & [vr Hvr] & [vo Hvo]).
  { eapply list_elem_of_lookup_2, Hc. }
  eapply setRow_spec; try eassumption;
    try (rewrite length_wireUpTo; lia).
  by rewrite !(wireUpTo_step _ _ _ _ _ c) by (done || lia).
Qed.

Lemma ComputeLRO_spec (st : store) :
  ComputeLRO spr publicData solution st
  = Some ((length st, S (length st), S (S (length st))),
          st ++ [(wiresLRO solution rows n).1.1; (wiresLRO solution rows n).1.2;
                (wiresLRO solution rows n).2]).
Proof.
  enough (Hwp : wp (ComputeLRO spr publicData solution)
            (fun res st' =>
               res = (length st, S (length st), S (S (length st))) /\
               st' = st ++ [(wiresLRO solution rows n).1.1; (wiresLRO solution rows n).1.2;
                (wiresLRO solution rows n).2]) st).
  { apply wp_runs in Hwp as (a & st' & Hr & -> & ->). exact Hr. }
  unfold ComputeLRO. fold n.
  apply wp_bind, wp_make. apply wp_bind, wp_make. apply wp_bind, wp_make.
  rewrite !length_app. simpl length. rewrite <- !app_assoc. simpl app.
  replace (length st + 1)%nat with (S (length st)) by lia.
  replace (S (length st) + 1)%nat with (S (S (length st))) by lia.
  assert (Hrows : length rows = (length (Constraints spr) + length (Assertions spr))%nat)
    by (unfold rows; by rewrite length_app).
  apply wp_bind.
  apply (wp_for (fun i st' =>
    st' = st ++ [wireUpTo SparseR1C.L solution rows n i;
                 wireUpTo SparseR1C.R solution rows n i;
                 wireUpTo SparseR1C.O solution rows n i])).
  { unfold wireUpTo. simpl. by rewrite Nat.sub_0_r. }
  { intros i st' Hi ->.
    destruct (lookup_lt_is_Some_2 (Constraints spr) i) as [c Hc]; [lia|].
    apply wp_bind. eapply wp_constraintAt; [exact Hc|].
    apply setRow_wireUpTo; [|done].
    unfold rows. by apply lookup_app_l_Some. }
  intros st' ->. simpl.
  apply wp_bind.
  apply (wp_for (fun i st' =>
    st' = st ++ [wireUpTo SparseR1C.L solution rows n (length (Constraints spr) + i);
                 wireUpTo SparseR1C.R solution rows n (length (Constraints spr) + i);
                 wireUpTo SparseR1C.O solution rows n (length (Constraints spr) + i)])).
  { by rewrite Nat.add_0_r. }
  { intros i st' Hi ->.
    destruct (lookup_lt_is_Some_2 (Assertions spr) i) as [c Hc]; [lia|].
    apply wp_bind. eapply wp_constraintAt; [exact Hc|].
    replace (length (Constraints spr) + S i)%nat
      with (S (length (Constraints spr) + i)) by lia.
    apply setRow_wireUpTo; [|done].
    unfold rows. rewrite lookup_app_r by lia.
    by replace (length (Constraints spr) + i - length (Constraints spr))%nat
      with i by lia. }
  intros st' ->. simpl.
  rewrite <- Hrows, !wireUpTo_all.
  apply wp_bind.
  apply (wp_for (fun i st' =>
    st' = st ++ [wirePadded SparseR1C.L solution rows n i;
                 wirePadded SparseR1C.R solution rows n i;
                 wirePadded SparseR1C.O solution rows n i])).
  { done. }
  { intros i st' Hi ->.
    destruct (lookup_lt_is_Some_2 solution 0) as [v Hv]; [apply Hpad; lia|].
    eapply setRow_spec; try exact Hv;
      try (rewrite length_wirePadded; lia).
    by rewrite !wirePadded_step by (done || lia). }
  intros st' ->. simpl. apply wp_ret. done.
Qed.

End ComputeLRO_correct.

(** ** Stores of the shape [base ++ news] and [<[s := cur]> base] *)

Lemma store_app_lookup (st news : store) k :
  (st ++ news) !! (length st + k)%nat = news !! k.
Proof.
  rewrite lookup_app_r by lia. f_equal. lia.
Qed.

Lemma store_app_set (st news : store) k a :
  <[(length st + k)%nat := a]> (st ++ news) = st ++ <[k := a]> news.
Proof. apply insert_app_r. Qed.

Lemma store_app_lookup_old (st news : store) s :
  (s < length st)%nat -> (st ++ news) !! s = st !! s.
Proof. intros. by apply lookup_app_l. Qed.

Lemma wp_load_set s i cur v (base : store) (Q : fr -> store -> Prop) :
  (s < length base)%nat -> cur !! i = Some v ->
  Q v (<[s := cur]> base) -> wp (load s i) Q (<[s := cur]> base).
Proof.
  intros Hs Hv HQ. eapply wp_load; [by apply list_lookup_insert_eq | exact Hv | exact HQ].
Qed.

Lemma wp_load_other s s' i cur a v (base : store) (Q : fr -> store -> Prop) :
  s ≠ s' -> base !! s' = Some a -> a !! i = Some v ->
  Q v (<[s := cur]> base) -> wp (load s' i) Q (<[s := cur]> base).
Proof.
  intros Hne Ha Hv HQ.
  eapply wp_load; [by rewrite list_lookup_insert_ne | exact Hv | exact HQ].
Qed.

Lemma wp_storeAt_set s i v cur (base : store) (Q : unit -> store -> Prop) :
  (s < length base)%nat -> (i < length cur)%nat ->
  Q tt (<[s := <[i := v]> cur]> base) ->
  wp (storeAt s i v) Q (<[s := cur]> base).
Proof.
  intros Hs Hi HQ.
  eapply wp_storeAt; [by apply list_lookup_insert_eq | exact Hi |].
  by rewrite list_insert_insert_eq.
Qed.

(** ** [evaluateCosets] *)

Lemma length_BitReverse a : length (BitReverse a) = length a.
Proof. unfold BitReverse. by rewrite length_map, length_seq. Qed.

Lemma length_FFT d a k : length (FFT d a k) = length a.
Proof. unfold FFT. by rewrite length_BitReverse, length_map, length_seq. Qed.

Lemma length_FFTInverse d a k : length (FFTInverse d a k) = length a.
Proof. unfold FFTInverse. by rewrite length_BitReverse, length_map, length_seq. Qed.

Lemma length_copyInto src dst : length (copyInto src dst) = length dst.
Proof.
  unfold copyInto. rewrite length_app, length_take, length_drop. lia.
Qed.

Lemma length_padded poly d : length (padded poly d) = Cardinality d.
Proof. unfold padded. by rewrite length_copyInto, length_replicate. Qed.

Lemma cosetTemps_lookup poly d j i :
  (j < 4)%nat -> (i < Cardinality d)%nat ->
  exists e, cosetTemps poly d !! j = Some e /\
            e !! i = Some (tempAt (cosetTemps poly d) j i).
Proof.
  intros Hj Hi. unfold tempAt.
  destruct j as [|[|[|[|j]]]]; try lia; simpl;
    (eexists; split; [reflexivity|]);
    match goal with |- ?e !! i = _ =>
      destruct (lookup_lt_is_Some_2 e i) as [v Hv];
        [rewrite ?length_BitReverse, ?length_FFT, length_padded; lia
        | by rewrite Hv]
    end.
Qed.

Lemma length_interleave4 ts n : length (interleave4 ts n) = (4 * n)%nat.
Proof.
  unfold interleave4.
  transitivity (4 * length (seq 0 n))%nat; [|by rewrite length_seq].
  induction (seq 0 n) as [|k l IH]; simpl; [done|]. rewrite IH. lia.
Qed.

Lemma interleave4_S ts n :
  interleave4 ts (S n)
  = interleave4 ts n ++ [tempAt ts 0 n; tempAt ts 1 n; tempAt ts 2 n; tempAt ts 3 n].
Proof.
  unfold interleave4. rewrite seq_S, flat_map_app. reflexivity.
Qed.

(** Entry [4i+j] of the interleaving is entry [i] of sequence [j]. *)
Lemma interleave4_lookup ts n i j :
  (i < n)%nat -> (j < 4)%nat ->
  interleave4 ts n !! (4 * i + j)%nat = Some (tempAt ts j i).
Proof.
  intros Hi Hj. induction n as [|n IH]; [lia|].
  rewrite interleave4_S.
  destruct (decide (i = n)) as [->|Hne].
  - rewrite lookup_app_r by (rewrite length_interleave4; lia).
    rewrite length_interleave4.
    replace (4 * n + j - 4 * n)%nat with j by lia.
    destruct j as [|[|[|[|j]]]]; try lia; reflexivity.
  - rewrite lookup_app_l by (rewrite length_interleave4; lia).
    apply IH. lia.
Qed.

(** The contents of [res] after [i] rounds of the last loop. *)
Lemma interleave4_write (ts : list (list fr)) (old : list fr) i :
  (4 * i + 3 < length old)%nat ->
  <[(4 * i + 3)%nat := tempAt ts 3 i]>
    (<[(4 * i + 2)%nat := tempAt ts 2 i]>
       (<[(4 * i + 1)%nat := tempAt ts 1 i]>
          (<[(4 * i)%nat := tempAt ts 0 i]>
             (interleave4 ts i ++ drop (4 * i) old))))
  = interleave4 ts (S i) ++ drop (4 * S i) old.
Proof.
  intros Hlen.
  assert (Hl := length_interleave4 ts i).
  assert (Hd : exists a b c e, drop (4 * i) old = a :: b :: c :: e :: drop (4 * S i) old).
  { replace (4 * S i)%nat with (4 * i + 4)%nat by lia.
    rewrite <- drop_drop.
    assert (Hdl : (4 <= length (drop (4 * i) old))%nat) by (rewrite length_drop; lia).
    destruct (drop (4 * i) old) as [|a [|b [|c [|e rest]]]]; simpl in Hdl; try lia.
    by exists a, b, c, e. }
  destruct Hd as (a & b & c & e & ->).
  rewrite interleave4_S, <- app_assoc.
  rewrite !insert_app_r_alt by (rewrite ?length_insert, ?length_app; simpl; lia).
  rewrite Hl.
  replace (4 * i - 4 * i)%nat with 0%nat by lia.
  replace (4 * i + 1 - 4 * i)%nat with 1%nat by lia.
  replace (4 * i + 2 - 4 * i)%nat with 2%nat by lia.
  replace (4 * i + 3 - 4 * i)%nat with 3%nat by lia.
  reflexivity.
Qed.

Lemma store_app_lookup0 (st news : store) :
  (st ++ news) !! length st = news !! 0%nat.
Proof. rewrite <- (store_app_lookup st news 0). f_equal. lia. Qed.

Lemma store_app_set0 (st news : store) a :
  <[length st := a]> (st ++ news) = st ++ <[0%nat := a]> news.
Proof. rewrite <- (store_app_set st news 0). f_equal. lia. Qed.

(** In-place transformation of a slice allocated after [st]. *)
Ltac modify_new :=
  eapply wp_modify;
  [ first [ rewrite store_app_lookup0 | rewrite store_app_lookup ]; reflexivity
  | first [ rewrite store_app_set0 | rewrite store_app_set ]; simpl list_insert ].

(** [evaluateCosets] fills [res] with the interleaving of its four work
    slices, which stay behind in the store; nothing else changes. *)
Lemma evaluateCosets_spec (poly : list fr) (res : slice) (d : Domain)
    (old : list fr) (st : store) :
  st !! res = Some old -> length old = (4 * Cardinality d)%nat ->
  evaluateCosets poly res d st
  = Some (tt, <[res := cosetEvals poly d]> (st ++ cosetTemps poly d)).
Proof.
  intros Hres Hold.
  assert (Hlt : (res < length st)%nat) by (by eapply lookup_lt_Some).
  enough (Hwp : wp (evaluateCosets poly res d)
            (fun _ st' => st' = <[res := cosetEvals poly d]> (st ++ cosetTemps poly d)) st).
  { apply wp_runs in Hwp as ([] & st' & Hr & ->). exact Hr. }
  unfold evaluateCosets.
  apply wp_bind, wp_make. apply wp_bind, wp_make.
  apply wp_bind, wp_make. apply wp_bind, wp_make.
  rewrite !length_app. simpl length. rewrite <- !app_assoc. simpl app.
  replace (length st + 1 + 1)%nat with (length st + 2)%nat by lia.
  replace (length st + 2 + 1)%nat with (length st + 3)%nat by lia.
  unfold copy.
  do 12 (apply wp_bind; modify_new).
  change (st ++ _) with (st ++ cosetTemps poly d).
  set (ts := cosetTemps poly d).
  apply (wp_for (fun i st' =>
    st' = <[res := interleave4 ts i ++ drop (4 * i) old]> (st ++ ts))).
  - simpl. rewrite drop_0. symmetry. apply list_insert_id.
    by rewrite store_app_lookup_old.
  - intros i st' Hi ->. simpl in Hi.
    assert (Hb : (res < length (st ++ ts))%nat) by (rewrite length_app; lia).
    assert (Hcur : length (interleave4 ts i ++ drop (4 * i) old) = length old)
      by (rewrite length_app, length_interleave4, length_drop; lia).
    destruct (cosetTemps_lookup poly d 0 i) as (e0 & He0 & Hv0); [lia | lia |].
    destruct (cosetTemps_lookup poly d 1 i) as (e1 & He1 & Hv1); [lia | lia |].
    destruct (cosetTemps_lookup poly d 2 i) as (e2 & He2 & Hv2); [lia | lia |].
    destruct (cosetTemps_lookup poly d 3 i) as (e3 & He3 & Hv3); [lia | lia |].
    apply wp_bind. eapply wp_load_other;
      [lia | rewrite store_app_lookup0; exact He0 | exact Hv0 |].
    apply wp_bind. apply wp_storeAt_set; [exact Hb | lia |].
    apply wp_bind. eapply wp_load_other;
      [lia | rewrite store_app_lookup; exact He1 | exact Hv1 |].
    apply wp_bind. apply wp_storeAt_set; [exact Hb | rewrite length_insert; lia |].
    apply wp_bind. eapply wp_load_other;
      [lia | rewrite store_app_lookup; exact He2 | exact Hv2 |].
    apply wp_bind. apply wp_storeAt_set; [exact Hb | rewrite !length_insert; lia |].
    apply wp_bind. eapply wp_load_other;
      [lia | rewrite store_app_lookup; exact He3 | exact Hv3 |].
    apply wp_storeAt_set; [exact Hb | rewrite !length_insert; lia |].
    fold ts. by rewrite interleave4_write by lia.
  - intros st' ->. simpl.
    rewrite drop_ge by lia. by rewrite app_nil_r.
Qed.

(** ** [evalConstraints] *)

Lemma at0_lookup (a : list fr) i : (i < length a)%nat -> a !! i = Some (at0 a i).
Proof.
  intros Hi. unfold at0. destruct (lookup_lt_is_Some_2 a i Hi) as [v ->]. done.
Qed.

Lemma length_cosetEvals poly d : length (cosetEvals poly d) = (4 * Cardinality d)%nat.
Proof. apply length_interleave4. Qed.

(** A buffer overwritten front to back: after [i] rounds it holds the
    first [i] new entries, then the old ones. *)
Lemma overwrite_lookup (new old : list fr) i :
  (i <= length new)%nat -> (take i new ++ drop i old) !! i = old !! i.
Proof.
  intros Hi. rewrite lookup_app_r by (rewrite length_take; lia).
  rewrite length_take, lookup_drop. f_equal. lia.
Qed.

Lemma overwrite_step (new old : list fr) i v :
  new !! i = Some v -> (i < length old)%nat ->
  <[i := v]> (take i new ++ drop i old) = take (S i) new ++ drop (S i) old.
Proof.
  intros Hv Hi.
  assert (Hn : (i < length new)%nat) by (by eapply lookup_lt_Some).
  rewrite insert_app_r_alt by (rewrite length_take; lia).
  rewrite length_take. replace (i - i `min` length new)%nat with 0%nat by lia.
  rewrite (take_S_r _ _ _ Hv), <- app_assoc. f_equal.
  destruct (drop i old) as [|w ws] eqn:E.
  - apply (f_equal length) in E. rewrite length_drop in E. simpl in E. lia.
  - simpl. f_equal.
    assert (E' : drop (S i) old = drop 1 (drop i old))
      by (rewrite drop_drop; f_equal; lia).
    by rewrite E', E.
Qed.

Lemma length_overwrite (new old : list fr) i :
  length new = length old -> length (take i new ++ drop i old) = length old.
Proof.
  intros H. rewrite length_app, length_take, length_drop. lia.
Qed.

Lemma length_gateEvals {BOP OP} (pd : PublicRaw BOP OP) lv rv ov :
  length (gateEvals pd lv rv ov) = (4 * Cardinality (DomainNum pd))%nat.
Proof. unfold gateEvals. by rewrite length_map, length_seq. Qed.

Lemma gateEvals_lookup {BOP OP} (pd : PublicRaw BOP OP) lv rv ov i :
  (i < 4 * Cardinality (DomainNum pd))%nat ->
  gateEvals pd lv rv ov !! i
  = Some (gate (at0 (cosetEvals (Ql pd) (DomainNum pd)) i)
               (at0 (cosetEvals (Qr pd) (DomainNum pd)) i)
               (at0 (cosetEvals (Qm pd) (DomainNum pd)) i)
               (at0 (cosetEvals (Qo pd) (DomainNum pd)) i)
               (at0 (cosetEvals (Qk pd) (DomainNum pd)) i)
               (at0 lv i) (at0 rv i) (at0 ov i)).
Proof.
  intros Hi. unfold gateEvals.
  rewrite list_lookup_fmap, lookup_seq_lt by lia. reflexivity.
Qed.

(** A call whose outcome is known. *)
Ltac call_with H :=
  apply wp_bind; eapply runs_wp; [ eapply H | ].

(** Coset evaluation into the buffer [k] slices after [st]. *)
Ltac cosets_into_new :=
  call_with evaluateCosets_spec;
  [ first [ rewrite store_app_lookup | rewrite store_app_lookup0 ]; reflexivity
  | by rewrite ?length_replicate
  | rewrite <- ?app_assoc;
    first [ rewrite store_app_set | rewrite store_app_set0 ];
    simpl list_insert; simpl app ].

Lemma evalConstraints_spec {BOP OP} (pd : PublicRaw BOP OP)
    (evalL evalR evalO : slice) (lv rv ov : list fr) (st : store) :
  st !! evalL = Some lv -> st !! evalR = Some rv -> st !! evalO = Some ov ->
  evalL ≠ evalR -> evalL ≠ evalO ->
  length lv = (4 * Cardinality (DomainNum pd))%nat ->
  (4 * Cardinality (DomainNum pd) <= length rv)%nat ->
  (4 * Cardinality (DomainNum pd) <= length ov)%nat ->
  evalConstraints pd evalL evalR evalO st
  = Some (evalL, <[evalL := gateEvals pd lv rv ov]> (st ++ evalConstraintsTemps pd)).
Proof.
  intros HL HR HO Hlr Hlo Llv Lrv Lov.
  assert (HlL : (evalL < length st)%nat) by (by eapply lookup_lt_Some).
  assert (HlR : (evalR < length st)%nat) by (by eapply lookup_lt_Some).
  assert (HlO : (evalO < length st)%nat) by (by eapply lookup_lt_Some).
  enough (Hwp : wp (evalConstraints pd evalL evalR evalO)
            (fun res st' => res = evalL /\
               st' = <[evalL := gateEvals pd lv rv ov]> (st ++ evalConstraintsTemps pd)) st).
  { apply wp_runs in Hwp as (a & st' & Hr & -> & ->). exact Hr. }
  unfold evalConstraints.
  do 5 (apply wp_bind, wp_make).
  rewrite !length_app. simpl length. rewrite <- !app_assoc. simpl app.
  replace (length st + 1 + 1)%nat with (length st + 2)%nat by lia.
  replace (length st + 2 + 1)%nat with (length st + 3)%nat by lia.
  replace (length st + 3 + 1)%nat with (length st + 4)%nat by lia.
  do 5 cosets_into_new.
  change (st ++ _) with (st ++ evalConstraintsTemps pd).
  set (ts := evalConstraintsTemps pd).
  set (G := gateEvals pd lv rv ov).
  apply wp_bind.
  apply (wp_for (fun i st' => st' = <[evalL := take i G ++ drop i lv]> (st ++ ts))).
  - simpl. rewrite drop_0. symmetry. apply list_insert_id.
    by rewrite store_app_lookup_old.
  - intros i st' Hi ->.
    assert (Hb : (evalL < length (st ++ ts))%nat) by (rewrite length_app; lia).
    assert (HG : length G = length lv) by (unfold G; rewrite length_gateEvals; lia).
    assert (Hcur : (take i G ++ drop i lv) !! i = Some (at0 lv i))
      by (rewrite overwrite_lookup by lia; apply at0_lookup; lia).
    assert (HR' : (st ++ ts) !! evalR = Some rv) by (by rewrite store_app_lookup_old).
    assert (HO' : (st ++ ts) !! evalO = Some ov) by (by rewrite store_app_lookup_old).
    assert (Hsel : forall k p, ts !! k = Some (cosetEvals p (DomainNum pd)) ->
              (st ++ ts) !! (length st + k)%nat = Some (cosetEvals p (DomainNum pd)) /\
              cosetEvals p (DomainNum pd) !! i = Some (at0 (cosetEvals p (DomainNum pd)) i)).
    { intros k p Hk. split; [by rewrite store_app_lookup|].
      apply at0_lookup. rewrite length_cosetEvals. lia. }
    destruct (Hsel 0%nat (Ql pd) eq_refl) as [Hql1 Hql2].
    rewrite Nat.add_0_r in Hql1.
    destruct (Hsel 1%nat (Qr pd) eq_refl) as [Hqr1 Hqr2].
    destruct (Hsel 2%nat (Qm pd) eq_refl) as [Hqm1 Hqm2].
    destruct (Hsel 3%nat (Qo pd) eq_refl) as [Hqo1 Hqo2].
    destruct (Hsel 4%nat (Qk pd) eq_refl) as [Hqk1 Hqk2].
    apply wp_bind. eapply wp_load_other; [lia | exact Hql1 | exact Hql2 |].
    apply wp_bind. eapply wp_load_set; [exact Hb | exact Hcur |].
    apply wp_bind. eapply wp_load_other; [lia | exact Hqr1 | exact Hqr2 |].
    apply wp_bind. eapply wp_load_other; [done | exact HR' | apply at0_lookup; lia |].
    apply wp_bind. eapply wp_load_other; [lia | exact Hqm1 | exact Hqm2 |].
    apply wp_bind. eapply wp_load_set; [exact Hb | exact Hcur |].
    apply wp_bind. eapply wp_load_other; [done | exact HR' | apply at0_lookup; lia |].
    apply wp_bind. eapply wp_load_other; [lia | exact Hqo1 | exact Hqo2 |].
    apply wp_bind. eapply wp_load_other; [done | exact HO' | apply at0_lookup; lia |].
    apply wp_bind. eapply wp_load_other; [lia | exact Hqk1 | exact Hqk2 |].
    apply wp_storeAt_set; [exact Hb | rewrite length_overwrite; lia |].
    f_equal. apply overwrite_step; [|lia].
    unfold G. by rewrite gateEvals_lookup by lia.
  - intros st' ->. simpl. apply wp_ret. split; [done|]. f_equal.
    rewrite drop_ge by lia. rewrite app_nil_r. apply take_ge.
    unfold G. rewrite length_gateEvals. lia.
Qed.

(** ** [evalIDCosets] *)

Local Open Scope nat_scope.

Lemma wp_mulTo3_0 (st : store) (a b c : list fr) dst src i j x
    (Q : unit -> store -> Prop) :
  src = length st -> dst = length st ->
  (j < length a)%nat -> (i < length a)%nat ->
  Q tt (st ++ [<[i := Fr.mul (at0 a j) x]> a; b; c]) ->
  wp (mulTo dst i src j x) Q (st ++ [a; b; c]).
Proof.
  intros -> -> Hj Hi HQ. unfold mulTo.
  apply wp_bind. eapply wp_load;
    [rewrite store_app_lookup0; reflexivity | by apply at0_lookup |].
  eapply wp_storeAt; [rewrite store_app_lookup0; reflexivity | exact Hi |].
  by rewrite store_app_set0.
Qed.

Lemma wp_mulTo3_1 (st : store) (a b c : list fr) dst src i j x
    (Q : unit -> store -> Prop) :
  src = length st -> dst = length st + 1 ->
  (j < length a)%nat -> (i < length b)%nat ->
  Q tt (st ++ [a; <[i := Fr.mul (at0 a j) x]> b; c]) ->
  wp (mulTo dst i src j x) Q (st ++ [a; b; c]).
Proof.
  intros -> -> Hj Hi HQ. unfold mulTo.
  apply wp_bind. eapply wp_load;
    [rewrite store_app_lookup0; reflexivity | by apply at0_lookup |].
  eapply wp_storeAt; [rewrite store_app_lookup; reflexivity | exact Hi |].
  by rewrite store_app_set.
Qed.

Lemma wp_mulTo3_2 (st : store) (a b c : list fr) dst src i j x
    (Q : unit -> store -> Prop) :
  src = length st -> dst = length st + 2 ->
  (j < length a)%nat -> (i < length c)%nat ->
  Q tt (st ++ [a; b; <[i := Fr.mul (at0 a j) x]> c]) ->
  wp (mulTo dst i src j x) Q (st ++ [a; b; c]).
Proof.
  intros -> -> Hj Hi HQ. unfold mulTo.
  apply wp_bind. eapply wp_load;
    [rewrite store_app_lookup0; reflexivity | by apply at0_lookup |].
  eapply wp_storeAt; [rewrite store_app_lookup; reflexivity | exact Hi |].
  by rewrite store_app_set.
Qed.

Lemma wp_mulTo_new (st : store) (a : list fr) i j x (Q : unit -> store -> Prop) :
  (j < length a)%nat -> (i < length a)%nat ->
  Q tt (st ++ [<[i := Fr.mul (at0 a j) x]> a]) ->
  wp (mulTo (length st) i (length st) j x) Q (st ++ [a]).
Proof.
  intros Hj Hi HQ. unfold mulTo.
  apply wp_bind. eapply wp_load;
    [apply store_lookup_new | by apply at0_lookup |].
  eapply wp_storeAt; [apply store_lookup_new | exact Hi |].
  by rewrite store_set_new.
Qed.

Lemma wp_storeAt_new (st : store) (a : list fr) i v (Q : unit -> store -> Prop) :
  (i < length a)%nat -> Q tt (st ++ [<[i := v]> a]) ->
  wp (storeAt (length st) i v) Q (st ++ [a]).
Proof.
  intros Hi HQ. eapply wp_storeAt; [apply store_lookup_new | exact Hi |].
  by rewrite store_set_new.
Qed.

Lemma wp_setTo_new (st : store) (a : list fr) i j (Q : unit -> store -> Prop) :
  (j < length a)%nat -> (i < length a)%nat ->
  Q tt (st ++ [<[i := at0 a j]> a]) ->
  wp (setTo (length st) i (length st) j) Q (st ++ [a]).
Proof.
  intros Hj Hi HQ. unfold setTo.
  apply wp_bind. eapply wp_load;
    [apply store_lookup_new | by apply at0_lookup |].
  eapply wp_storeAt; [apply store_lookup_new | exact Hi |].
  by rewrite store_set_new.
Qed.

Lemma length_genPowers d : length (genPowers d) = Cardinality d.
Proof. unfold genPowers. by rewrite length_map, length_seq. Qed.

Lemma genPowers_lookup d i :
  (i < Cardinality d)%nat -> genPowers d !! i = Some (Fr.pow (Generator d) i).
Proof.
  intros Hi. unfold genPowers. by rewrite list_lookup_fmap, lookup_seq_lt.
Qed.

Lemma idStart_temp d j i :
  (j < 4)%nat -> (i < Cardinality d)%nat ->
  tempAt [genPowers d; genPowers d; genPowers d; genPowers d] j i
  = Fr.pow (Generator d) i.
Proof.
  intros Hj Hi. unfold tempAt.
  destruct j as [|[|[|[|j]]]]; try lia; simpl; by rewrite genPowers_lookup.
Qed.

Lemma idRows_temp d j i :
  (j < 4)%nat -> (i < Cardinality d)%nat ->
  tempAt (idRows d) j i = Fr.mul (Fr.pow (Generator d) i) (cosetFactor d j).
Proof.
  intros Hj Hi. unfold tempAt, idRows.
  rewrite list_lookup_fmap, lookup_seq_lt by lia. simpl.
  by rewrite list_lookup_fmap, genPowers_lookup.
Qed.

Lemma uidRows_temp {BOP OP} (pd : PublicRaw BOP OP) j i :
  (j < 4)%nat -> (i < Cardinality (DomainNum pd))%nat ->
  tempAt (uidRows pd) j i
  = Fr.mul (tempAt (idRows (DomainNum pd)) j i) (fst (Shifter pd)).
Proof.
  intros Hj Hi. rewrite idRows_temp by done. unfold tempAt, uidRows, idRows.
  rewrite !list_lookup_fmap, lookup_seq_lt by lia. simpl.
  by rewrite !list_lookup_fmap, genPowers_lookup.
Qed.

Lemma length_idStart d : length (idStart d) = (4 * Cardinality d)%nat.
Proof. apply length_interleave4. Qed.

Lemma length_idAfter d i :
  (i <= Cardinality d)%nat -> length (idAfter d i) = (4 * Cardinality d)%nat.
Proof.
  intros. unfold idAfter.
  rewrite length_app, length_interleave4, length_drop, length_idStart. lia.
Qed.

Lemma length_uidAfter {BOP OP} (pd : PublicRaw BOP OP) i :
  (i <= Cardinality (DomainNum pd))%nat ->
  length (uidAfter pd i) = (4 * Cardinality (DomainNum pd))%nat.
Proof.
  intros. unfold uidAfter.
  rewrite length_app, length_interleave4, length_drop, length_replicate. lia.
Qed.

Lemma length_uuidRound {BOP OP} (pd : PublicRaw BOP OP) i uuid :
  length (uuidRound pd i uuid) = length uuid.
Proof. unfold uuidRound. by rewrite !length_insert. Qed.

Lemma uuidAfter_S {BOP OP} (pd : PublicRaw BOP OP) k :
  uuidAfter pd (S k) = uuidRound pd k (uuidAfter pd k).
Proof. unfold uuidAfter. by rewrite seq_S, fold_left_app. Qed.

Lemma length_uuidAfter {BOP OP} (pd : PublicRaw BOP OP) k :
  length (uuidAfter pd k) = (4 * Cardinality (DomainNum pd))%nat.
Proof.
  induction k as [|k IH].
  - unfold uuidAfter. simpl. by rewrite length_replicate.
  - by rewrite uuidAfter_S, length_uuidRound.
Qed.

(** A value read at [4i+j] from a buffer whose rows below [i] are already
    rewritten comes from the old contents. *)
Lemma interleave4_old_lookup (ts : list (list fr)) (old : list fr) i m :
  (4 * i <= m)%nat ->
  (interleave4 ts i ++ drop (4 * i) old) !! m = old !! m.
Proof.
  intros Hm. rewrite lookup_app_r by (rewrite length_interleave4; lia).
  rewrite length_interleave4, lookup_drop. f_equal. lia.
Qed.

Lemma at0_interleave4_old (ts : list (list fr)) (old : list fr) i m :
  (4 * i <= m)%nat -> at0 (interleave4 ts i ++ drop (4 * i) old) m = at0 old m.
Proof. intros. unfold at0. by rewrite interleave4_old_lookup. Qed.

Lemma at0_interleave4_new (ts : list (list fr)) (rest : list fr) n i j :
  (i < n)%nat -> (j < 4)%nat ->
  at0 (interleave4 ts n ++ rest) (4 * i + j) = tempAt ts j i.
Proof.
  intros Hi Hj. unfold at0.
  rewrite lookup_app_l by (rewrite length_interleave4; lia).
  by rewrite interleave4_lookup.
Qed.

Lemma at0_insert_ne (a : list fr) i j v : i ≠ j -> at0 (<[i := v]> a) j = at0 a j.
Proof. intros. unfold at0. by rewrite list_lookup_insert_ne. Qed.

Lemma at0_idStart d i j :
  (i < Cardinality d)%nat -> (j < 4)%nat ->
  at0 (idStart d) (4 * i + j) = Fr.pow (Generator d) i.
Proof.
  intros Hi Hj. unfold idStart.
  rewrite <- (app_nil_r (interleave4 _ _)).
  rewrite at0_interleave4_new by lia. by apply idStart_temp.
Qed.

Lemma at0_insert_eq (a : list fr) i v : i < length a -> at0 (<[i := v]> a) i = v.
Proof. intros. unfold at0. by rewrite list_lookup_insert_eq. Qed.

Lemma at0_rows_old (ts : list (list fr)) (old : list fr) i j :
  at0 (interleave4 ts i ++ drop (4 * i) old) (4 * i + j) = at0 old (4 * i + j).
Proof. apply at0_interleave4_old. lia. Qed.

(** The first loop of [evalIDCosets], one round. *)
Lemma idStart_round (d : Domain) (zs : list fr) i :
  0 < i < Cardinality d -> length zs = 4 * Cardinality d ->
  let ps := [genPowers d; genPowers d; genPowers d; genPowers d] in
  let cur := interleave4 ps i ++ drop (4 * i) zs in
  let v := Fr.mul (at0 cur (4 * (i - 1))) (Generator d) in
  let c1 := <[4 * i := v]> cur in
  let c2 := <[4 * i + 1 := at0 c1 (4 * i)]> c1 in
  let c3 := <[4 * i + 2 := at0 c2 (4 * i)]> c2 in
  <[4 * i + 3 := at0 c3 (4 * i)]> c3
  = interleave4 ps (S i) ++ drop (4 * S i) zs.
Proof.
  intros Hi Hz ps cur v c1 c2 c3.
  assert (Hlen : length cur = 4 * Cardinality d)
    by (unfold cur; rewrite length_app, length_interleave4, length_drop; lia).
  assert (Hv : v = Fr.pow (Generator d) i).
  { unfold v, cur. replace (4 * (i - 1)) with (4 * (i - 1) + 0) by lia.
    rewrite at0_interleave4_new by lia.
    unfold ps. rewrite idStart_temp by lia.
    destruct i as [|i]; [lia|]. simpl. by rewrite Nat.sub_0_r. }
  assert (H1 : at0 c1 (4 * i) = v)
    by (unfold c1; rewrite at0_insert_eq by lia; done).
  assert (H2 : at0 c2 (4 * i) = v)
    by (unfold c2; rewrite at0_insert_ne by lia; done).
  assert (H3 : at0 c3 (4 * i) = v)
    by (unfold c3; rewrite at0_insert_ne by lia; done).
  rewrite H3. unfold c3. rewrite H2. unfold c2. rewrite H1. unfold c1, cur.
  rewrite <- interleave4_write by lia.
  unfold ps. rewrite !idStart_temp by lia. by rewrite Hv.
Qed.

(** The second loop, the four entries of [id] in round [i]. *)
Lemma idAfter_round (d : Domain) i :
  i < Cardinality d ->
  let c0 := idAfter d i in
  let c1 := <[4 * i := Fr.mul (at0 c0 (4 * i)) (cosetFactor d 0)]> c0 in
  let c2 := <[4 * i + 1 := Fr.mul (at0 c1 (4 * i + 1)) (cosetFactor d 1)]> c1 in
  let c3 := <[4 * i + 2 := Fr.mul (at0 c2 (4 * i + 2)) (cosetFactor d 2)]> c2 in
  <[4 * i + 3 := Fr.mul (at0 c3 (4 * i + 3)) (cosetFactor d 3)]> c3
  = idAfter d (S i).
Proof.
  intros Hi c0 c1 c2 c3.
  assert (H0 : forall j, j < 4 -> at0 c0 (4 * i + j) = Fr.pow (Generator d) i).
  { intros j Hj. unfold c0, idAfter. rewrite at0_rows_old. by apply at0_idStart. }
  assert (E0 : at0 c0 (4 * i) = Fr.pow (Generator d) i)
    by (rewrite <- (H0 0) by lia; f_equal; lia).
  assert (E1 : at0 c1 (4 * i + 1) = Fr.pow (Generator d) i)
    by (unfold c1; rewrite at0_insert_ne by lia; apply H0; lia).
  assert (E2 : at0 c2 (4 * i + 2) = Fr.pow (Generator d) i)
    by (unfold c2, c1; rewrite !at0_insert_ne by lia; apply H0; lia).
  assert (E3 : at0 c3 (4 * i + 3) = Fr.pow (Generator d) i)
    by (unfold c3, c2, c1; rewrite !at0_insert_ne by lia; apply H0; lia).
  rewrite E3. unfold c3. rewrite E2. unfold c2. rewrite E1. unfold c1.
  rewrite E0. unfold c0, idAfter.
  rewrite <- interleave4_write by (rewrite length_idStart; lia).
  by rewrite !idRows_temp by lia.
Qed.

(** The second loop, the four entries of [uid] in round [i]. *)
Lemma uidAfter_round {BOP OP} (pd : PublicRaw BOP OP) i :
  i < Cardinality (DomainNum pd) ->
  let id := idAfter (DomainNum pd) (S i) in
  let sh0 := fst (Shifter pd) in
  <[4 * i + 3 := Fr.mul (at0 id (4 * i + 3)) sh0]>
    (<[4 * i + 2 := Fr.mul (at0 id (4 * i + 2)) sh0]>
       (<[4 * i + 1 := Fr.mul (at0 id (4 * i + 1)) sh0]>
          (<[4 * i := Fr.mul (at0 id (4 * i)) sh0]> (uidAfter pd i))))
  = uidAfter pd (S i).
Proof.
  intros Hi id sh0.
  assert (H0 : forall j, j < 4 ->
            at0 id (4 * i + j) = tempAt (idRows (DomainNum pd)) j i).
  { intros j Hj. unfold id, idAfter. by rewrite at0_interleave4_new by lia. }
  replace (at0 id (4 * i)) with (at0 id (4 * i + 0)) by (f_equal; lia).
  rewrite !H0 by lia. unfold uidAfter.
  rewrite <- interleave4_write by (rewrite length_replicate; lia).
  by rewrite !uidRows_temp by lia.
Qed.

Lemma evalIDCosets_spec {BOP OP} (pd : PublicRaw BOP OP) (st : store) :
  0 < Cardinality (DomainNum pd) ->
  evalIDCosets pd st
  = Some ((length st, length st + 1, length st + 2), st ++ idCosets pd).
Proof.
  intros Hc.
  enough (Hwp : wp (evalIDCosets pd)
            (fun res st' => res = (length st, length st + 1, length st + 2) /\
                            st' = st ++ idCosets pd) st).
  { apply wp_runs in Hwp as (a & st' & Hr & -> & ->). exact Hr. }
  unfold evalIDCosets.
  set (d := DomainNum pd) in *. set (c := Cardinality d) in *.
  set (zs := replicate (4 * c) Fr.zero).
  assert (Hzs : length zs = 4 * c) by apply length_replicate.
  set (ps := [genPowers d; genPowers d; genPowers d; genPowers d]).
  apply wp_bind, wp_make. fold zs.
  apply wp_bind, wp_storeAt_new; [lia|].
  apply wp_bind, wp_storeAt_new; [rewrite !length_insert; lia|].
  apply wp_bind, wp_storeAt_new; [rewrite !length_insert; lia|].
  apply wp_bind, wp_storeAt_new; [rewrite !length_insert; lia|].
  assert (H1 : <[3 := Fr.one]> (<[2 := Fr.one]> (<[1 := Fr.one]> (<[0 := Fr.one]> zs)))
               = interleave4 ps 1 ++ drop (4 * 1) zs).
  { rewrite <- interleave4_write by lia.
    unfold ps. rewrite !idStart_temp by (fold d c; lia). reflexivity. }
  rewrite H1. clear H1.
  apply wp_bind.
  apply (wp_for (fun i st' => st' = st ++ [interleave4 ps i ++ drop (4 * i) zs])).
  { reflexivity. }
  { intros i st' Hi ->.
    assert (Hcur : length (interleave4 ps i ++ drop (4 * i) zs) = 4 * c)
      by (rewrite length_app, length_interleave4, length_drop; lia).
    apply wp_bind, wp_mulTo_new; [lia | lia |].
    apply wp_bind, wp_setTo_new; [rewrite !length_insert; lia ..|].
    apply wp_bind, wp_setTo_new; [rewrite !length_insert; lia ..|].
    apply wp_setTo_new; [rewrite !length_insert; lia ..|].
    f_equal. f_equal. apply idStart_round; [fold d c; lia | done]. }
  intros st' ->.
  replace (1 + (c - 1)) with c by lia.
  rewrite drop_ge by lia. rewrite app_nil_r. fold (idStart d).
  apply wp_bind, wp_make. apply wp_bind, wp_make.
  rewrite !length_app. simpl length. rewrite <- !app_assoc. simpl app.
  replace (length st + 1 + 1) with (length st + 2) by lia.
  fold zs.
  change (Fr.mul (Fr.mul (Fr.mul (FinerGenerator d) (Fr.square (FinerGenerator d)))
                         (Fr.square (FinerGenerator d)))
                 (Fr.square (FinerGenerator d))) with (cosetFactor d 3).
  change (Fr.mul (Fr.mul (FinerGenerator d) (Fr.square (FinerGenerator d)))
                 (Fr.square (FinerGenerator d))) with (cosetFactor d 2).
  change (Fr.mul (FinerGenerator d) (Fr.square (FinerGenerator d)))
    with (cosetFactor d 1).
  change (FinerGenerator d) with (cosetFactor d 0).
  apply wp_bind.
  apply (wp_for (fun i st' => st' = st ++ [idAfter d i; uidAfter pd i; uuidAfter pd i])).
  { unfold idAfter, uidAfter, uuidAfter. simpl interleave4. simpl app.
    by rewrite !drop_0. }
  { intros i st' Hi ->.
    assert (Li : forall k, k <= c -> length (idAfter d k) = 4 * c)
      by (intros; by apply length_idAfter).
    assert (Lu : length (uidAfter pd i) = 4 * c) by (apply length_uidAfter; fold d c; lia).
    assert (Luu : length (uuidAfter pd i) = 4 * c) by apply length_uuidAfter.
    do 4 (apply wp_bind; eapply wp_mulTo3_0;
          [reflexivity | reflexivity
          | rewrite ?length_insert, Li; lia
          | rewrite ?length_insert, Li; lia |]).
    rewrite (idAfter_round d i) by (fold c; lia).
    do 4 (apply wp_bind; eapply wp_mulTo3_1;
          [reflexivity | reflexivity
          | rewrite Li; lia
          | rewrite ?length_insert, Lu; lia |]).
    assert (Hu := uidAfter_round pd i). cbv zeta in Hu. fold d c in Hu.
    rewrite Hu by lia. clear Hu.
    do 3 (apply wp_bind; eapply wp_mulTo3_2;
          [reflexivity | reflexivity
          | rewrite Li; lia
          | rewrite ?length_insert, Luu; lia |]).
    eapply wp_mulTo3_2;
          [reflexivity | reflexivity
          | rewrite Li; lia
          | rewrite ?length_insert, Luu; lia |].
    by rewrite uuidAfter_S. }
  intros st' ->. apply wp_ret. done.
Qed.

(** ** [evalConstraintOrdering] *)

Lemma store_last_lookup (st pre : store) (cur : list fr) k :
  length pre = k -> (st ++ (pre ++ [cur])) !! (length st + k) = Some cur.
Proof.
  intros <-. rewrite store_app_lookup. apply store_lookup_new.
Qed.

Lemma store_last_set (st pre : store) (cur new : list fr) k :
  length pre = k ->
  <[length st + k := new]> (st ++ (pre ++ [cur])) = st ++ (pre ++ [new]).
Proof.
  intros <-. rewrite store_app_set. f_equal. apply store_set_new.
Qed.

Lemma store_pre_lookup (st pre : store) (cur a : list fr) k :
  pre !! k = Some a -> (st ++ (pre ++ [cur])) !! (length st + k) = Some a.
Proof.
  intros H. rewrite store_app_lookup. by apply lookup_app_l_Some.
Qed.

Lemma length_orderingEvals {BOP OP} (pd : PublicRaw BOP OP) zv zuv lv rv ov :
  length (orderingEvals pd zv zuv lv rv ov) = 4 * Cardinality (DomainNum pd).
Proof. unfold orderingEvals. by rewrite length_map, length_seq. Qed.

Lemma orderingEvals_lookup {BOP OP} (pd : PublicRaw BOP OP) zv zuv lv rv ov i :
  i < 4 * Cardinality (DomainNum pd) ->
  orderingEvals pd zv zuv lv rv ov !! i
  = Some (ordering (at0 (cosetEvals zv (DomainNum pd)) i)
                   (at0 (cosetEvals zuv (DomainNum pd)) i)
                   (at0 lv i) (at0 rv i) (at0 ov i)
                   (at0 (idAfter (DomainNum pd) (Cardinality (DomainNum pd))) i)
                   (at0 (uidAfter pd (Cardinality (DomainNum pd))) i)
                   (at0 (uuidAfter pd (Cardinality (DomainNum pd))) i)
                   (at0 (cosetEvals (CS1 pd) (DomainNum pd)) i)
                   (at0 (cosetEvals (CS2 pd) (DomainNum pd)) i)
                   (at0 (cosetEvals (CS3 pd) (DomainNum pd)) i)).
Proof.
  intros Hi. unfold orderingEvals.
  rewrite list_lookup_fmap, lookup_seq_lt by lia. reflexivity.
Qed.

Lemma evalConstraintOrdering_spec {BOP OP} (pd : PublicRaw BOP OP)
    (z zu evalL evalR evalO : slice) (zv zuv lv rv ov : list fr) (st : store) :
  0 < Cardinality (DomainNum pd) ->
  st !! z = Some zv -> st !! zu = Some zuv ->
  st !! evalL = Some lv -> st !! evalR = Some rv -> st !! evalO = Some ov ->
  4 * Cardinality (DomainNum pd) <= length lv ->
  4 * Cardinality (DomainNum pd) <= length rv ->
  4 * Cardinality (DomainNum pd) <= length ov ->
  evalConstraintOrdering pd z zu evalL evalR evalO st
  = Some (length st + 28,
          st ++ (orderingTemps pd zv zuv ++ [orderingEvals pd zv zuv lv rv ov])).
Proof.
  intros Hc Hz Hzu HL HR HO Llv Lrv Lov.
  assert (HlL : evalL < length st) by (by eapply lookup_lt_Some).
  assert (HlR : evalR < length st) by (by eapply lookup_lt_Some).
  assert (HlO : evalO < length st) by (by eapply lookup_lt_Some).
  assert (Hlz : z < length st) by (by eapply lookup_lt_Some).
  assert (Hlzu : zu < length st) by (by eapply lookup_lt_Some).
  enough (Hwp : wp (evalConstraintOrdering pd z zu evalL evalR evalO)
            (fun res st' => res = length st + 28 /\
               st' = st ++ (orderingTemps pd zv zuv
                            ++ [orderingEvals pd zv zuv lv rv ov])) st).
  { apply wp_runs in Hwp as (a & st' & Hr & -> & ->). exact Hr. }
  unfold evalConstraintOrdering.
  do 5 (apply wp_bind, wp_make).
  rewrite !length_app. simpl length. rewrite <- !app_assoc. simpl app.
  replace (length st + 1 + 1) with (length st + 2) by lia.
  replace (length st + 2 + 1) with (length st + 3) by lia.
  replace (length st + 3 + 1) with (length st + 4) by lia.
  apply wp_bind. eapply wp_read; [by rewrite store_app_lookup_old|].
  cosets_into_new.
  apply wp_bind. eapply wp_read; [by rewrite store_app_lookup_old|].
  do 4 cosets_into_new.
  call_with @evalIDCosets_spec; [exact Hc|].
  rewrite <- app_assoc.
  match goal with |- context [st ++ ?l ++ idCosets pd] =>
    change (st ++ l ++ idCosets pd) with (st ++ orderingTemps pd zv zuv);
    change (length (st ++ l)) with (length (st ++ take 25 (orderingTemps pd zv zuv)))
  end.
  set (ts := orderingTemps pd zv zuv).
  assert (Lts : length ts = 28) by reflexivity.
  rewrite length_app, length_take, Lts. simpl Nat.min.
  replace (length st + 25 + 1) with (length st + 26) by lia.
  replace (length st + 25 + 2) with (length st + 27) by lia.
  apply wp_bind, wp_make.
  rewrite length_app, Lts, <- app_assoc.
  set (zs := replicate (4 * Cardinality (DomainNum pd)) Fr.zero).
  set (G := orderingEvals pd zv zuv lv rv ov).
  apply wp_bind.
  apply (wp_for (fun i st' => st' = st ++ (ts ++ [take i G ++ drop i zs]))).
  - reflexivity.
  - intros i st' Hi ->.
    assert (HG : length G = length zs)
      by (unfold G, zs; by rewrite length_orderingEvals, length_replicate).
    assert (Lzs : length zs = 4 * Cardinality (DomainNum pd)) by apply length_replicate.
    assert (Hold : forall s a, st !! s = Some a -> 4 * Cardinality (DomainNum pd) <= length a ->
              (st ++ (ts ++ [take i G ++ drop i zs])) !! s = Some a /\
              a !! i = Some (at0 a i)).
    { intros s a Hs La. split.
      - rewrite store_app_lookup_old; [done | by eapply lookup_lt_Some].
      - apply at0_lookup. lia. }
    assert (Hnew : forall k a, ts !! k = Some a -> length a = 4 * Cardinality (DomainNum pd) ->
              (st ++ (ts ++ [take i G ++ drop i zs])) !! (length st + k) = Some a /\
              a !! i = Some (at0 a i)).
    { intros k a Hk La. split; [by apply store_pre_lookup|].
      apply at0_lookup. lia. }
    destruct (Hold _ _ HL Llv) as [HL1 HL2].
    destruct (Hold _ _ HR Lrv) as [HR1 HR2].
    destruct (Hold _ _ HO Lov) as [HO1 HO2].
    destruct (Hnew 0 _ eq_refl (length_cosetEvals _ _)) as [Hz1 Hz2].
    rewrite Nat.add_0_r in Hz1.
    destruct (Hnew 1 _ eq_refl (length_cosetEvals _ _)) as [Hzu1 Hzu2].
    destruct (Hnew 2 _ eq_refl (length_cosetEvals _ _)) as [Hs11 Hs12].
    destruct (Hnew 3 _ eq_refl (length_cosetEvals _ _)) as [Hs21 Hs22].
    destruct (Hnew 4 _ eq_refl (length_cosetEvals _ _)) as [Hs31 Hs32].
    destruct (Hnew 25 _ eq_refl (length_idAfter _ _ (Nat.le_refl _))) as [Hid1 Hid2].
    destruct (Hnew 26 _ eq_refl (length_uidAfter pd _ (Nat.le_refl _))) as [Huid1 Huid2].
    destruct (Hnew 27 _ eq_refl (length_uuidAfter pd _)) as [Huu1 Huu2].
    apply wp_bind. eapply wp_load; [exact HL1 | exact HL2 |].
    apply wp_bind. eapply wp_load; [exact Hid1 | exact Hid2 |].
    apply wp_bind. eapply wp_load; [exact HR1 | exact HR2 |].
    apply wp_bind. eapply wp_load; [exact Huid1 | exact Huid2 |].
    apply wp_bind. eapply wp_load; [exact HO1 | exact HO2 |].
    apply wp_bind. eapply wp_load; [exact Huu1 | exact Huu2 |].
    apply wp_bind. eapply wp_load; [exact HL1 | exact HL2 |].
    apply wp_bind. eapply wp_load; [exact Hs11 | exact Hs12 |].
    apply wp_bind. eapply wp_load; [exact HR1 | exact HR2 |].
    apply wp_bind. eapply wp_load; [exact Hs21 | exact Hs22 |].
    apply wp_bind. eapply wp_load; [exact HO1 | exact HO2 |].
    apply wp_bind. eapply wp_load; [exact Hs31 | exact Hs32 |].
    apply wp_bind. eapply wp_load; [exact HL1 | exact HL2 |].
    apply wp_bind. eapply wp_load; [exact Hz1 | exact Hz2 |].
    apply wp_bind. eapply wp_load; [exact HL1 | exact HL2 |].
    apply wp_bind. eapply wp_load; [exact Hzu1 | exact Hzu2 |].
    eapply wp_storeAt;
      [by apply store_last_lookup | rewrite length_overwrite; lia |].
    rewrite store_last_set by done. do 3 f_equal.
    apply overwrite_step; [|lia].
    unfold G. by rewrite orderingEvals_lookup by lia.
  - intros st' ->. apply wp_ret. split; [done|].
    rewrite drop_ge by (unfold zs; rewrite length_replicate; lia).
    rewrite app_nil_r.
    rewrite take_ge by (unfold G; rewrite length_orderingEvals; lia).
    reflexivity.
Qed.

(** * The claims of the specification *)

(** C8: [shiftZ] returns, in a fresh slice, the left cyclic rotation of its
    non-empty input: [result[i] = z[i+1]] for every [i < len(z)-1] and
    [result[len(z)-1] = z[0]], that is [result[i] = z[(i+1) mod len(z)]],
    so that in Lagrange form [Zu(gen^i) = Z(gen^(i+1))]; the input slice
    and the rest of the store are left as they were. *)
Theorem shiftZ_rotates_left (z : slice) (zv : list fr) (st : store) :
  st !! z = Some zv -> 0 < length zv ->
  exists out,
    shiftZ z st = Some (length st, st ++ [out]) /\
    length out = length zv /\
    (forall i, i < length zv - 1 -> out !! i = zv !! (i + 1)) /\
    out !! (length zv - 1) = zv !! 0 /\
    (forall i, i < length zv -> out !! i = zv !! ((i + 1) mod length zv)).
Proof.
  intros Hz Hne. destruct zv as [|v tl]; [simpl in Hne; lia|].
  exists (tl ++ [v]). split; [by apply shiftZ_spec|].
  assert (Hlow : forall i, i < length tl -> (tl ++ [v]) !! i = (v :: tl) !! (i + 1)).
  { intros i Hi. rewrite lookup_app_l by lia.
    by replace (i + 1) with (S i) by lia. }
  assert (Hlast : (tl ++ [v]) !! length tl = (v :: tl) !! 0).
  { rewrite lookup_app_r by lia. by rewrite Nat.sub_diag. }
  repeat split.
  - rewrite length_app. simpl. lia.
  - intros i Hi. simpl in Hi. apply Hlow. lia.
  - simpl length. by replace (S (length tl) - 1) with (length tl) by lia.
  - intros i Hi. simpl length in *.
    destruct (decide (i = length tl)) as [->|Hn].
    + replace (length tl + 1) with (S (length tl)) by lia.
      by rewrite Nat.Div0.mod_same.
    + rewrite Nat.mod_small by lia. apply Hlow. lia.
Qed.

Lemma shiftZ_rotates_left_witness :
  exists out,
    shiftZ 0 [[1; 2; 3]%Z] = Some (1, [[1; 2; 3]%Z] ++ [out]) /\
    length out = 3 /\
    (forall i, i < 3 - 1 -> out !! i = [1; 2; 3]%Z !! (i + 1)) /\
    out !! (3 - 1) = [1; 2; 3]%Z !! 0 /\
    (forall i, i < 3 -> out !! i = [1; 2; 3]%Z !! ((i + 1) mod 3)).
Proof.
  apply (shiftZ_rotates_left 0 [1; 2; 3]%Z [[1; 2; 3]%Z]);
    [reflexivity | simpl; lia].
Defined.

(** An empty input makes [shiftZ] panic, on [res[0]]. *)
Lemma shiftZ_empty_panics (st : store) (z : slice) :
  st !! z = Some [] -> shiftZ z st = None.
Proof.
  intros Hz. unfold shiftZ, bind, len, make, read, copy, modify, load.
  assert (Hlt : z < length st) by (by eapply lookup_lt_Some).
  unfold slice in *.
  cbv beta. rewrite Hz. cbv beta iota. rewrite store_lookup_old, Hz by done.
  cbv beta iota. rewrite store_lookup_new. cbv beta iota.
  rewrite store_set_new, store_lookup_new. reflexivity.
Qed.

Lemma wirePadded_row sel solution rows n k i c :
  rows !! i = Some c ->
  is_Some (solution !! VariableID (sel c)) ->
  wirePadded sel solution rows n k !! i = solution !! VariableID (sel c).
Proof.
  intros Hc [v Hv]. unfold wirePadded.
  assert (Hi : i < length rows) by (by eapply lookup_lt_Some).
  rewrite lookup_app_l by (by rewrite length_wire).
  unfold wire. rewrite list_lookup_fmap, Hc. simpl. by rewrite Hv.
Qed.

Lemma wirePadded_pad sel solution rows n i :
  length rows <= i < n -> 0 < length solution ->
  wirePadded sel solution rows n (n - length rows) !! i = solution !! 0.
Proof.
  intros Hi Hs. unfold wirePadded.
  destruct (lookup_lt_is_Some_2 solution 0 Hs) as [v Hv].
  rewrite lookup_app_r by (rewrite length_wire; lia).
  rewrite length_wire, lookup_app_l by (rewrite length_replicate; lia).
  rewrite Hv. simpl. apply lookup_replicate_2. lia.
Qed.

(** C7: [ComputeLRO] returns three fresh sequences of length equal to the
    domain cardinality; entry [i] of each holds the solution at the L, R, O
    variable id of the [i]-th constraint, the entries after the constraints
    hold the same for the assertions in order, and every remaining entry of
    all three equals [solution[0]].  (The rows fit the domain and the
    solution covers every variable id the rows use.) *)
Theorem ComputeLRO_wires {BOP OP} (spr : SparseR1CS) (pd : PublicRaw BOP OP)
    (solution : list fr) (st : store) :
  let n := Cardinality (DomainNum pd) in
  let nc := length (Constraints spr) in
  let na := length (Assertions spr) in
  nc + na <= n ->
  idsInRange solution (Constraints spr ++ Assertions spr) = true ->
  (nc + na < n -> 0 < length solution) ->
  exists l r o,
    ComputeLRO spr pd solution st
    = Some ((length st, S (length st), S (S (length st))), st ++ [l; r; o]) /\
    length l = n /\ length r = n /\ length o = n /\
    (forall i c, Constraints spr !! i = Some c ->
       l !! i = solution !! VariableID (SparseR1C.L c) /\
       r !! i = solution !! VariableID (SparseR1C.R c) /\
       o !! i = solution !! VariableID (SparseR1C.O c)) /\
    (forall i c, Assertions spr !! i = Some c ->
       l !! (nc + i) = solution !! VariableID (SparseR1C.L c) /\
       r !! (nc + i) = solution !! VariableID (SparseR1C.R c) /\
       o !! (nc + i) = solution !! VariableID (SparseR1C.O c)) /\
    (forall i, nc + na <= i < n ->
       l !! i = solution !! 0 /\ r !! i = solution !! 0 /\
       o !! i = solution !! 0).
Proof.
  intros n nc na Hfit Hids Hpad.
  set (rows := Constraints spr ++ Assertions spr) in *.
  assert (Hrows : length rows = nc + na) by (unfold rows; by rewrite length_app).
  exists (wiresLRO solution rows n).1.1, (wiresLRO solution rows n).1.2,
         (wiresLRO solution rows n).2.
  split.
  { apply ComputeLRO_spec; fold rows; fold n; [lia | done | intros; apply Hpad; lia]. }
  pose proof (idsInRange_lookup spr solution Hids) as Hin. fold rows in Hin.
  simpl. rewrite !length_wirePadded by lia.
  split; [done|]. split; [done|]. split; [done|]. split; [|split].
  - intros i c Hc.
    assert (Hr : rows !! i = Some c) by (unfold rows; by apply lookup_app_l_Some).
    destruct (Hin c) as (? & ? & ?); [by eapply list_elem_of_lookup_2|].
    repeat split; by apply wirePadded_row.
  - intros i c Hc.
    assert (Hr : rows !! (nc + i) = Some c).
    { unfold rows, nc. rewrite lookup_app_r by lia.
      by replace (length (Constraints spr) + i - length (Constraints spr)) with i by lia. }
    destruct (Hin c) as (? & ? & ?); [by eapply list_elem_of_lookup_2|].
    repeat split; by apply wirePadded_row.
  - intros i Hi. repeat split; apply wirePadded_pad; lia.
Qed.

Lemma ComputeLRO_wires_witness :
  exists l r o,
    ComputeLRO Example.mulGate Example.publicData2 Example.assignment []
    = Some ((0, 1, 2), [l; r; o]) /\
    l = [3; 0]%Z /\ r = [4; 0]%Z /\ o = [12; 0]%Z.
Proof.
  destruct (ComputeLRO_wires Example.mulGate Example.publicData2
              Example.assignment [])
    as (l & r & o & Hrun & Hl & Hr & Ho & Hc & _ & Hp);
    [simpl; lia | reflexivity | simpl; lia |].
  exists l, r, o. split; [exact Hrun|].
  destruct (Hc 0 _ eq_refl) as (Hl0 & Hr0 & Ho0).
  destruct (Hp 1) as (Hl1 & Hr1 & Ho1); [simpl; lia|].
  simpl in *.
  destruct l as [|l0 [|l1 [|? ?]]]; try discriminate.
  destruct r as [|r0 [|r1 [|? ?]]]; try discriminate.
  destruct o as [|o0 [|o1 [|? ?]]]; try discriminate.
  cbn in Hl0, Hr0, Ho0, Hl1, Hr1, Ho1. by simplify_eq.
Defined.

(** C10: [evalConstraints] writes its pointwise result into the [evalL]
    buffer it receives and returns that same buffer: after the call the
    caller's first argument holds, at every one of the [4n] points, the
    combined gate-identity value [ql*l + qr*r + qm*l*r + qo*o + qk] built
    from its original contents, while [evalR], [evalO] and every other
    slice of the caller are unchanged.  (The three buffers are slices of
    [4n] entries and [evalL] is distinct from the other two.) *)
Theorem evalConstraints_overwrites_evalL {BOP OP} (pd : PublicRaw BOP OP)
    (evalL evalR evalO : slice) (lv rv ov : list fr) (st : store) :
  let d := DomainNum pd in
  st !! evalL = Some lv -> st !! evalR = Some rv -> st !! evalO = Some ov ->
  evalL <> evalR -> evalL <> evalO ->
  length lv = 4 * Cardinality d ->
  4 * Cardinality d <= length rv -> 4 * Cardinality d <= length ov ->
  exists st' out,
    evalConstraints pd evalL evalR evalO st = Some (evalL, st') /\
    st' !! evalL = Some out /\ length out = 4 * Cardinality d /\
    (forall i, i < 4 * Cardinality d ->
       out !! i
       = Some (Fr.add
                 (Fr.add
                    (Fr.add
                       (Fr.add (Fr.mul (at0 (cosetEvals (Ql pd) d) i) (at0 lv i))
                               (Fr.mul (at0 (cosetEvals (Qr pd) d) i) (at0 rv i)))
                       (Fr.mul (Fr.mul (at0 (cosetEvals (Qm pd) d) i) (at0 lv i))
                               (at0 rv i)))
                    (Fr.mul (at0 (cosetEvals (Qo pd) d) i) (at0 ov i)))
                 (at0 (cosetEvals (Qk pd) d) i))) /\
    st' !! evalR = Some rv /\ st' !! evalO = Some ov /\
    (forall s, s < length st -> s <> evalL -> st' !! s = st !! s).
Proof.
  intros d HL HR HO Hlr Hlo Llv Lrv Lov.
  exists (<[evalL := gateEvals pd lv rv ov]> (st ++ evalConstraintsTemps pd)),
         (gateEvals pd lv rv ov).
  assert (HlL : evalL < length st) by (by eapply lookup_lt_Some).
  assert (Hfr : forall s, s < length st -> s <> evalL ->
            <[evalL := gateEvals pd lv rv ov]> (st ++ evalConstraintsTemps pd) !! s
            = st !! s).
  { intros s Hs Hne. rewrite list_lookup_insert_ne by done.
    by apply store_app_lookup_old. }
  split; [by apply evalConstraints_spec|].
  split; [apply list_lookup_insert_eq; rewrite length_app; lia|].
  split; [apply length_gateEvals|].
  split; [intros i Hi; by apply gateEvals_lookup|].
  split; [rewrite Hfr; [done | by eapply lookup_lt_Some | done]|].
  split; [rewrite Hfr; [done | by eapply lookup_lt_Some | done]|].
  exact Hfr.
Qed.

Lemma evalConstraints_overwrites_evalL_witness :
  let st := [[1; 1; 1; 1]; [2; 2; 2; 2]; [3; 3; 3; 3]]%Z in
  exists st' out,
    evalConstraints Example.publicData1 0 1 2 st = Some (0, st') /\
    st' !! 0 = Some out /\ length out = 4 /\
    st' !! 1 = Some [2; 2; 2; 2]%Z /\ st' !! 2 = Some [3; 3; 3; 3]%Z.
Proof.
  intros st.
  destruct (evalConstraints_overwrites_evalL Example.publicData1 0 1 2
              [1; 1; 1; 1]%Z [2; 2; 2; 2]%Z [3; 3; 3; 3]%Z st)
    as (st' & out & Hrun & Hout & Hlen & _ & HR & HO & _);
    [reflexivity | reflexivity | reflexivity | lia | lia
    | reflexivity | simpl; lia | simpl; lia |].
  exists st', out. repeat split; assumption.
Defined.

(** ** Powers and products in the field, as integers *)

Lemma Fr_pow_Z (x : fr) (n : nat) : Fr.pow x n = ((x ^ Z.of_nat n) mod Fr.q)%Z.
Proof.
  induction n as [|n IH].
  - reflexivity.
  - simpl Fr.pow. rewrite IH. unfold Fr.mul.
    rewrite Z.mul_mod_idemp_l by (unfold Fr.q; lia).
    rewrite Nat2Z.inj_succ, Z.pow_succ_r by lia.
    f_equal. lia.
Qed.

Lemma Fr_mul_mod_l (a b : Z) : Fr.mul (a mod Fr.q)%Z b = ((a * b) mod Fr.q)%Z.
Proof. unfold Fr.mul. apply Z.mul_mod_idemp_l. unfold Fr.q. lia. Qed.

Lemma Fr_mul_mod_r (a b : Z) : Fr.mul a (b mod Fr.q)%Z = ((a * b) mod Fr.q)%Z.
Proof. unfold Fr.mul. apply Z.mul_mod_idemp_r. unfold Fr.q. lia. Qed.

(** The factor of coset [j] is the odd power [2j+1] of the finer generator. *)
Lemma mul_cosetFactor (d : Domain) (a : Z) (j : nat) :
  j < 4 ->
  Fr.mul a (cosetFactor d j)
  = ((a * FinerGenerator d ^ Z.of_nat (2 * j + 1)) mod Fr.q)%Z.
Proof.
  intros Hj. set (u := FinerGenerator d).
  assert (Huu : Fr.square u = ((u ^ 2) mod Fr.q)%Z)
    by (unfold Fr.square, Fr.mul; f_equal; lia).
  assert (H1 : cosetFactor d 1 = ((u ^ 3) mod Fr.q)%Z).
  { unfold cosetFactor. fold u. rewrite Huu, Fr_mul_mod_r. f_equal; lia. }
  assert (H2 : cosetFactor d 2 = ((u ^ 5) mod Fr.q)%Z).
  { change (cosetFactor d 2) with (Fr.mul (cosetFactor d 1) (Fr.square u)).
    rewrite H1, Huu, Fr_mul_mod_l, Z.mul_mod_idemp_r by (unfold Fr.q; lia).
    f_equal; lia. }
  assert (H3 : cosetFactor d 3 = ((u ^ 7) mod Fr.q)%Z).
  { change (cosetFactor d 3) with (Fr.mul (cosetFactor d 2) (Fr.square u)).
    rewrite H2, Huu, Fr_mul_mod_l, Z.mul_mod_idemp_r by (unfold Fr.q; lia).
    f_equal; lia. }
  destruct j as [|[|[|[|j]]]]; try lia.
  - change (cosetFactor d 0) with u. unfold Fr.mul. f_equal.
    change (Z.of_nat (2 * 0 + 1)) with 1%Z. lia.
  - rewrite H1, Fr_mul_mod_r. reflexivity.
  - rewrite H2, Fr_mul_mod_r. reflexivity.
  - rewrite H3, Fr_mul_mod_r. reflexivity.
Qed.

(** Entry [4i+j] of the identity sequence is the point
    [Generator^i * FinerGenerator^(2j+1)] of the extended domain. *)
Lemma idAfter_point (d : Domain) i j :
  i < Cardinality d -> j < 4 ->
  at0 (idAfter d (Cardinality d)) (4 * i + j)
  = ((Generator d ^ Z.of_nat i * FinerGenerator d ^ Z.of_nat (2 * j + 1))
       mod Fr.q)%Z.
Proof.
  intros Hi Hj. unfold idAfter.
  rewrite at0_interleave4_new, idRows_temp by lia.
  rewrite mul_cosetFactor, Fr_pow_Z by lia.
  rewrite Z.mul_mod_idemp_l by (unfold Fr.q; lia). reflexivity.
Qed.

(** Entry [4i+j] of the second sequence is the first shifter times the
    identity at that point. *)
Lemma uidAfter_point {BOP OP} (pd : PublicRaw BOP OP) i j :
  i < Cardinality (DomainNum pd) -> j < 4 ->
  at0 (uidAfter pd (Cardinality (DomainNum pd))) (4 * i + j)
  = Fr.mul (at0 (idAfter (DomainNum pd) (Cardinality (DomainNum pd))) (4 * i + j))
           (fst (Shifter pd)).
Proof.
  intros Hi Hj. unfold uidAfter, idAfter.
  rewrite !at0_interleave4_new by lia. by apply uidRows_temp.
Qed.

(** C4, as the code has it: for public data over a non-empty domain there
    is a sequence [uuid], fixed by the public data (the third result of
    [evalIDCosets]), such that [evalConstraintOrdering] returns a fresh
    slice holding at every extended point [4i+j]

      [Zu*(l+s1+gamma)*(r+s2+gamma)*(o+s3+gamma)*l
       - Z*(l+id+gamma)*(r+uid+gamma)*(o+uuid+gamma)*l]

    where [Z], [Zu], [s1], [s2], [s3] are the coset buffers of [z], [zu],
    [CS1], [CS2], [CS3], the identity is
    [id = Generator^i * FinerGenerator^(2j+1)] and [uid = id * Shifter[0]]:
    the shifted accumulator [Zu] multiplies the [s1], [s2], [s3] factors and
    the unshifted accumulator [Z] the identity factors.  Nothing the caller
    owns is modified. *)
Theorem evalConstraintOrdering_pointwise {BOP OP} (pd : PublicRaw BOP OP) :
  let d := DomainNum pd in
  let n := Cardinality d in
  0 < n ->
  exists uuid : list fr,
    length uuid = 4 * n /\
    forall (z zu evalL evalR evalO : slice) (zv zuv lv rv ov : list fr)
           (st : store),
      st !! z = Some zv -> st !! zu = Some zuv ->
      st !! evalL = Some lv -> st !! evalR = Some rv -> st !! evalO = Some ov ->
      4 * n <= length lv -> 4 * n <= length rv -> 4 * n <= length ov ->
      exists res out st',
        evalConstraintOrdering pd z zu evalL evalR evalO st = Some (res, st') /\
        st' !! res = Some out /\ length st <= res /\ length out = 4 * n /\
        (forall s, s < length st -> st' !! s = st !! s) /\
        forall i j, i < n -> j < 4 ->
          let m := 4 * i + j in
          let id := ((Generator d ^ Z.of_nat i
                      * FinerGenerator d ^ Z.of_nat (2 * j + 1)) mod Fr.q)%Z in
          let uid := Fr.mul id (fst (Shifter pd)) in
          let l := at0 lv m in
          let r := at0 rv m in
          let o := at0 ov m in
          let s1 := at0 (cosetEvals (CS1 pd) d) m in
          let s2 := at0 (cosetEvals (CS2 pd) d) m in
          let s3 := at0 (cosetEvals (CS3 pd) d) m in
          let g := Fr.mul (Fr.mul (Fr.add (Fr.add l s1) gamma)
                                  (Fr.add (Fr.add r s2) gamma))
                          (Fr.add (Fr.add o s3) gamma) in
          let f := Fr.mul (Fr.mul (Fr.add (Fr.add l id) gamma)
                                  (Fr.add (Fr.add r uid) gamma))
                          (Fr.add (Fr.add o (at0 uuid m)) gamma) in
          out !! m
          = Some (Fr.sub (Fr.mul (Fr.mul g l) (at0 (cosetEvals zuv d) m))
                         (Fr.mul (Fr.mul f l) (at0 (cosetEvals zv d) m))).
Proof.
  intros d n Hn. exists (uuidAfter pd n).
  split; [apply length_uuidAfter|].
  intros z zu evalL evalR evalO zv zuv lv rv ov st Hz Hzu HL HR HO Llv Lrv Lov.
  exists (length st + 28), (orderingEvals pd zv zuv lv rv ov),
         (st ++ (orderingTemps pd zv zuv ++ [orderingEvals pd zv zuv lv rv ov])).
  split; [by apply evalConstraintOrdering_spec|].
  split; [by apply store_last_lookup|].
  split; [lia|].
  split; [apply length_orderingEvals|].
  split; [intros s Hs; by apply store_app_lookup_old|].
  intros i j Hi Hj m id uid l r o s1 s2 s3 g f.
  rewrite orderingEvals_lookup by (fold d n; unfold m; lia).
  fold d n. unfold m at 6 7.
  unfold f, uid, id, n, d.
  rewrite uidAfter_point, idAfter_point by done.
  reflexivity.
Qed.

Lemma evalConstraintOrdering_pointwise_witness :
  exists res out st',
    evalConstraintOrdering Example.publicData1 0 1 2 3 4
      [[2]; [3]; [1; 1; 1; 1]; [1; 1; 1; 1]; [1; 1; 1; 1]]%Z
    = Some (res, st') /\
    st' !! res = Some out /\ length out = 4.
Proof.
  destruct (evalConstraintOrdering_pointwise Example.publicData1)
    as (uuid & _ & H); [simpl; lia|].
  destruct (H 0 1 2 3 4 [2]%Z [3]%Z [1; 1; 1; 1]%Z [1; 1; 1; 1]%Z [1; 1; 1; 1]%Z
              [[2]; [3]; [1; 1; 1; 1]; [1; 1; 1; 1]; [1; 1; 1; 1]]%Z)
    as (res & out & st' & Hrun & Hout & _ & Hlen & _);
    [reflexivity | reflexivity | reflexivity | reflexivity | reflexivity
    | simpl; lia | simpl; lia | simpl; lia |].
  exists res, out, st'. repeat split; assumption.
Defined.

(** C4, as stated, fails: on the domain of one point, with accumulator
    evaluations [Z = 2] and [Zu = 3], all wires 1, [s1, s2, s3 = 4, 5, 6] and
    shifters [2] and [4 = 2^2], the value returned at point 0 is
    [Zu*(l+s1+gamma)(r+s2+gamma)(o+s3+gamma)*l
     - Z*(l+id+gamma)(r+2*id+gamma)(o+4*id+gamma)*l], which is not the
    claimed [Zu*(l+id+gamma)(r+2*id+gamma)(o+4*id+gamma)*l
     - Z*(l+s1+gamma)(r+s2+gamma)(o+s3+gamma)*l]. *)
Lemma evalConstraintOrdering_pairing_counterexample :
  let id := Example.w8 in
  let idFactors :=
    (Fr.mul
       (Fr.mul (Fr.mul (Fr.add (Fr.add 1 id) gamma)
                       (Fr.add (Fr.add 1 (Fr.mul 2 id)) gamma))
               (Fr.add (Fr.add 1 (Fr.mul 4 id)) gamma))
       1)%Z in
  let sFactors :=
    (Fr.mul
       (Fr.mul (Fr.mul (Fr.add (Fr.add 1 4) gamma)
                       (Fr.add (Fr.add 1 5) gamma))
               (Fr.add (Fr.add 1 6) gamma))
       1)%Z in
  let claimed := Fr.sub (Fr.mul 3%Z idFactors) (Fr.mul 2%Z sFactors) in
  let returned := Fr.sub (Fr.mul 3%Z sFactors) (Fr.mul 2%Z idFactors) in
  exists res out st',
    evalConstraintOrdering Example.publicData1 0 1 2 3 4
      [[2]; [3]; [1; 1; 1; 1]; [1; 1; 1; 1]; [1; 1; 1; 1]]%Z
    = Some (res, st') /\
    st' !! res = Some out /\
    out !! 0 = Some returned /\
    returned <> claimed.
Proof.
  intros id idFactors sFactors claimed returned.
  eexists _, _, _. split; [vm_compute; reflexivity|].
  split; [reflexivity|].
  split; [vm_compute; reflexivity|].
  vm_compute. discriminate.
Qed.

(** ** [Prove] *)

(** [Prove] runs [Prove_populate] and replaces its result by [&Proof{}]. *)
Lemma Prove_drops_proof {BOP OP} Solve (spr : SparseR1CS)
    (pd : PublicRaw BOP OP) (witness : Witness) (st : store) :
  Prove Solve spr pd witness st
  = match Prove_populate Solve spr pd witness st with
    | Some (_, st') => Some (emptyProof, st')
    | None => None
    end.
Proof.
  unfold Prove, bind. by destruct (Prove_populate Solve spr pd witness st) as [[p st']|].
Qed.

(** Only the solution that [Solve] returns reaches the rest of [Prove]. *)
Lemma Prove_populate_solution_only {BOP OP} Solve1 Solve2 (spr : SparseR1CS)
    (pd : PublicRaw BOP OP) (witness : Witness) :
  fst (Solve1 spr witness) = fst (Solve2 spr witness) ->
  Prove_populate Solve1 spr pd witness = Prove_populate Solve2 spr pd witness.
Proof.
  intros H. unfold Prove_populate.
  destruct (Solve1 spr witness) as [s1 e1], (Solve2 spr witness) as [s2 e2].
  simpl in H. by subst.
Qed.

(** The populated proof of the example: the gate [3 * 4 = 12] over the
    domain of two points. *)
Lemma Prove_populate_example :
  exists p st',
    Prove_populate Example.solveOk Example.mulGate Example.publicData2
      Example.assignment [] = Some (p, st') /\
    LROHZ p <> LROHZ (@emptyProof (list fr) (fr * fr)) /\
    ZShift p <> Fr.zero /\
    BatchOpenings p <> None /\ OpeningZShift p <> None.
Proof.
  eexists _, _. split; [vm_compute; reflexivity|].
  repeat split; vm_compute; discriminate.
Qed.

(** C9, as the code has it: [Prove] discards the error that [Solve]
    returns.  Its outcome is a function of the solution vector alone: two
    solvers that return the same vector, whether or not either reports a
    failure, lead to the same result from the same store. *)
Theorem Prove_ignores_solver_error {BOP OP}
    (Solve1 Solve2 : SparseR1CS -> Witness -> list fr * option error)
    (spr : SparseR1CS) (pd : PublicRaw BOP OP) (witness : Witness)
    (st : store) :
  fst (Solve1 spr witness) = fst (Solve2 spr witness) ->
  Prove Solve1 spr pd witness st = Prove Solve2 spr pd witness st.
Proof.
  intros H. unfold Prove. by rewrite (Prove_populate_solution_only Solve1 Solve2).
Qed.

Lemma Prove_ignores_solver_error_witness :
  fst (Example.solveFails Example.mulGate Example.assignment)
  = fst (Example.solveOk Example.mulGate Example.assignment) /\
  Prove Example.solveFails Example.mulGate Example.publicData2
    Example.assignment []
  = Prove Example.solveOk Example.mulGate Example.publicData2
      Example.assignment [].
Proof.
  split; [reflexivity|].
  apply (Prove_ignores_solver_error Example.solveFails Example.solveOk).
  reflexivity.
Defined.

(** C9, as stated, fails: the solver reports a failure on the example, yet
    [Prove] neither panics nor reports anything: it returns a [Proof], after
    populating one from the vector the failed solve handed back. *)
Lemma Prove_failed_solve_counterexample :
  snd (Example.solveFails Example.mulGate Example.assignment) <> None /\
  exists st',
    Prove Example.solveFails Example.mulGate Example.publicData2
      Example.assignment [] = Some (emptyProof, st').
Proof.
  split; [discriminate|].
  destruct Prove_populate_example as (p & st' & Hrun & _).
  exists st'. rewrite Prove_drops_proof.
  rewrite (Prove_populate_solution_only Example.solveFails Example.solveOk)
    by reflexivity.
  by rewrite Hrun.
Qed.

(** C1 fails on the code: on the example [Prove] populates a [Proof] with
    non-zero evaluations and two opening proofs, and returns not that
    [Proof] but the empty one, whose evaluations are zero and whose opening
    proofs are nil. *)
Theorem Prove_returns_empty_Proof :
  exists p st',
    Prove_populate Example.solveOk Example.mulGate Example.publicData2
      Example.assignment [] = Some (p, st') /\
    Prove Example.solveOk Example.mulGate Example.publicData2
      Example.assignment [] = Some (emptyProof, st') /\
    LROHZ p <> LROHZ (@emptyProof (list fr) (fr * fr)) /\
    ZShift p <> ZShift (@emptyProof (list fr) (fr * fr)) /\
    BatchOpenings p <> None /\ OpeningZShift p <> None /\
    BatchOpenings (@emptyProof (list fr) (fr * fr)) = None /\
    OpeningZShift (@emptyProof (list fr) (fr * fr)) = None.
Proof.
  destruct Prove_populate_example as (p & st' & Hrun & HL & HZ & HB & HO).
  exists p, st'. split; [exact Hrun|].
  split; [by rewrite Prove_drops_proof, Hrun|].
  repeat split; done.
Qed.

(** ** [evaluateCosets] on the cosets 5 and 7 *)

(** The third and fourth work slices never go through an FFT: what
    [evaluateCosets] writes at [4i+2] and [4i+3] is entry [i] of the
    bit-reversed coefficients. *)
Lemma cosetEvals_untransformed (poly : list fr) (d : Domain) i j :
  i < Cardinality d -> j = 2 \/ j = 3 ->
  cosetEvals poly d !! (4 * i + j)
  = Some (at0 (BitReverse (padded poly d)) i).
Proof.
  intros Hi Hj. unfold cosetEvals.
  rewrite interleave4_lookup by lia.
  destruct Hj as [-> | ->]; reflexivity.
Qed.

(** C2 fails on the code: for the polynomial [X] over the domain of two
    points, [evaluateCosets] writes 0 at index [4*0+2], where the value of
    [X] at [generator^0 * finerGenerator^5] is [finerGenerator^5], not 0;
    and at index [4*0+0] it writes the result of two successive FFTs, not
    the value [finerGenerator] of [X] at [generator^0 * finerGenerator^1]. *)
Theorem evaluateCosets_wrong_cosets :
  exists st' out,
    evaluateCosets [0; 1]%Z 0 Example.d2 [replicate 8 Fr.zero] = Some (tt, st') /\
    st' !! 0 = Some out /\
    out !! (4 * 0 + 2) = Some 0%Z /\
    Eval [0; 1]%Z (extendedPoint Example.d2 0 2) <> 0%Z /\
    out !! (4 * 0 + 0) <> Some (Eval [0; 1]%Z (extendedPoint Example.d2 0 0)).
Proof.
  eexists _, _. split; [vm_compute; reflexivity|].
  split; [reflexivity|].
  split; [reflexivity|].
  split; vm_compute; discriminate.
Qed.

(** ** The gate identity in [Prove] *)

(** C3 fails on the code: [Prove] hands [evalConstraints] the coset
    evaluations of [Ql], [Qr], [Qm] in place of those of the wires.  On the
    domain of one point, for the satisfied gate [3 * 4 = 12] (wires
    [l = 3], [r = 4], [o = 12], selectors [Qm = 1], [Qo = -1], the others
    0), the identity [Ql*l + Qr*r + Qm*l*r + Qo*o + Qk] is 0 at every
    point, and [constraintsInd] holds [Qo*Qm = -1] at all four. *)
Theorem Prove_gate_uses_selectors :
  exists g st' l r o ci,
    Prove_gate Example.mulGate Example.publicData1 Example.assignment [] = Some (g, st') /\
    st' !! gs_l g = Some [l] /\ st' !! gs_r g = Some [r] /\
    st' !! gs_o g = Some [o] /\
    (l, r, o) = (3, 4, 12)%Z /\
    gs_constraintsInd g = gs_evalL g /\
    st' !! gs_constraintsInd g = Some ci /\
    ci = replicate 4 (Fr.q - 1)%Z /\
    forall i, i < 4 ->
      gate (Eval (Ql Example.publicData1) (at0 (idAfter Example.d1 1) i))
           (Eval (Qr Example.publicData1) (at0 (idAfter Example.d1 1) i))
           (Eval (Qm Example.publicData1) (at0 (idAfter Example.d1 1) i))
           (Eval (Qo Example.publicData1) (at0 (idAfter Example.d1 1) i))
           (Eval (Qk Example.publicData1) (at0 (idAfter Example.d1 1) i))
           (Eval [l] (at0 (idAfter Example.d1 1) i))
           (Eval [r] (at0 (idAfter Example.d1 1) i))
           (Eval [o] (at0 (idAfter Example.d1 1) i)) = 0%Z
      /\ ci !! i = Some (gate (at0 (cosetEvals (Ql Example.publicData1) Example.d1) i)
                              (at0 (cosetEvals (Qr Example.publicData1) Example.d1) i)
                              (at0 (cosetEvals (Qm Example.publicData1) Example.d1) i)
                              (at0 (cosetEvals (Qo Example.publicData1) Example.d1) i)
                              (at0 (cosetEvals (Qk Example.publicData1) Example.d1) i)
                              (at0 (cosetEvals (Ql Example.publicData1) Example.d1) i)
                              (at0 (cosetEvals (Qr Example.publicData1) Example.d1) i)
                              (at0 (cosetEvals (Qm Example.publicData1) Example.d1) i)).
Proof.
  eexists _, _, _, _, _, _. split; [vm_compute; reflexivity|].
  split; [reflexivity|]. split; [reflexivity|]. split; [reflexivity|].
  split; [reflexivity|]. split; [reflexivity|]. split; [reflexivity|].
  split; [reflexivity|].
  intros i Hi.
  destruct i as [|[|[|[|i]]]]; try lia; split; vm_compute; reflexivity.
Qed.

(** ** The factors of [computeH] *)

(** C5 fails on the code: over the domain of two points the factor that
    [computeH] applies to the first coset is the inverse of [u^2], not of
    [u^2 - 1], and the factor it applies to the second coset is 1, neither
    the inverse of [(u^3)^2 - 1] nor that of [(u^3)^2] ([u] the finer
    generator): with [constraintsInd = 1] and [constraintOrdering = 0] at
    every point, the buffer before the inverse FFT holds those factors. *)
Theorem computeH_wrong_factors :
  let d := Example.d2 in
  let u := FinerGenerator d in
  exists st' h,
    computeH_evals Example.publicData2 0 1
      [replicate 8 Fr.one; replicate 8 Fr.zero] = Some (2, st') /\
    st' !! 2 = Some h /\
    h !! (4 * 0 + 0) = Some (Fr.inverse (Fr.exp u 2)) /\
    Fr.inverse (Fr.exp u 2) <> Fr.inverse (vanishing d (extendedPoint d 0 0)) /\
    Fr.mul (vanishing d (extendedPoint d 0 0))
           (Fr.inverse (vanishing d (extendedPoint d 0 0))) = Fr.one /\
    h !! (4 * 0 + 1) = Some Fr.one /\
    Fr.one <> Fr.inverse (vanishing d (extendedPoint d 0 1)) /\
    Fr.one <> Fr.inverse (Fr.exp (extendedPoint d 0 1) 2).
Proof.
  intros d u. subst d u.
  eexists _, _. split; [vm_compute; reflexivity|].
  split; [reflexivity|].
  repeat split; vm_compute; (reflexivity || discriminate).
Qed.

(** ** The accumulator of [ComputeZ] *)

(** C6 fails on the code: on the example (wires [l = [3; 0]], [r = [4; 0]],
    [o = [12; 0]], shifters [u] and [u^2]) the accumulator has [Z[0] = 1]
    and its step from 0 to 1 uses [Shifter[1]^2 = u^4] in the factor of the
    o wire: [Z[1] * den = Z[0] * (l0+1+gamma)(r0+u+gamma)(o0+u^4+gamma)],
    which is not [Z[0] * (l0+1+gamma)(r0+u+gamma)(o0+u^2+gamma)]. *)
Theorem ComputeZ_squares_second_shifter :
  let u := fst (Shifter Example.publicData2) in
  let uu := snd (Shifter Example.publicData2) in
  let den := denominator 3%Z 4%Z 12%Z (at0 Example.ls1 0) (at0 Example.ls2 0)
                         (at0 Example.ls3 0) in
  exists st' z0 z1,
    ComputeZ 0 1 2 Example.publicData2 [[3; 0]; [4; 0]; [12; 0]]%Z
    = Some (3, st') /\
    st' !! 3 = Some [z0; z1] /\
    uu = Fr.square u /\
    z0 = Fr.one /\
    Fr.mul z1 den = Fr.mul z0 (numerator 3%Z 4%Z 12%Z Fr.one u (Fr.square uu)) /\
    Fr.mul z1 den <> Fr.mul z0 (numerator 3%Z 4%Z 12%Z Fr.one u uu).
Proof.
  intros u uu den. subst u uu den.
  eexists _, _, _. split; [vm_compute; reflexivity|].
  split; [reflexivity|].
  repeat split; vm_compute; (reflexivity || discriminate).
Qed.

(** * More reasoning about computations *)

(** ** Panics *)

Lemma bind_panics_l {A B} (c : M A) (k : A -> M B) (st : store) :
  c st = None -> bind c k st = None.
Proof. unfold bind. by intros ->. Qed.

Lemma bind_panics_r {A B} (c : M A) (k : A -> M B) (st st' : store) a :
  c st = Some (a, st') -> k a st' = None -> bind c k st = None.
Proof. unfold bind. by intros ->. Qed.

(** Running [c] then [k] panics when [c] establishes a condition under
    which [k] panics. *)
Lemma wp_then_panics {A B} (c : M A) (k : A -> M B) (Q : A -> store -> Prop) st :
  wp c Q st -> (forall a st', Q a st' -> k a st' = None) -> bind c k st = None.
Proof.
  intros Hwp Hk. apply wp_runs in Hwp as (a & st' & Hr & HQ).
  eapply bind_panics_r; [exact Hr | by apply Hk].
Qed.

(** A loop panics when some round within its range panics under a
    condition that every earlier round preserves. *)
Lemma forM_panics {A} (J : A -> store -> Prop) (body : nat -> A -> M A) k :
  forall n start a st,
    start <= k < start + n ->
    J a st ->
    (forall i a st a' st', start <= i < k -> J a st ->
       body i a st = Some (a', st') -> J a' st') ->
    (forall a st, J a st -> body k a st = None) ->
    forM start n a body st = None.
Proof.
  induction n as [|n IH]; intros start a st Hk HJ Hpres Hfail; [lia|].
  simpl. destruct (decide (start = k)) as [->|Hne].
  - apply bind_panics_l. by apply Hfail.
  - unfold bind. destruct (body start a st) as [[a' st']|] eqn:E; [|done].
    apply IH; [lia | | |done].
    + eapply Hpres; [|exact HJ|exact E]. lia.
    + intros i a0 st0 a1 st1 Hi. apply Hpres. lia.
Qed.

Lemma for_panics (J : store -> Prop) (body : nat -> M unit) k n start st :
  start <= k < start + n ->
  J st ->
  (forall i st st', start <= i < k -> J st ->
     body i st = Some (tt, st') -> J st') ->
  (forall st, J st -> body k st = None) ->
  for_ start n body st = None.
Proof.
  intros Hk HJ Hpres Hfail. unfold for_.
  apply (forM_panics (fun _ st => J st) _ k); [done | done | |].
  - intros i [] st0 [] st1 Hi. by apply Hpres.
  - intros [] st0. apply Hfail.
Qed.

Lemma storeAt_panics (s : slice) i v (a : list fr) (st : store) :
  st !! s = Some a -> length a <= i -> storeAt s i v st = None.
Proof.
  intros Hs Hi. unfold storeAt. unfold slice in *. rewrite Hs.
  destruct (decide (i < length a)); [lia | done].
Qed.

Lemma load_panics (s : slice) i (a : list fr) (st : store) :
  st !! s = Some a -> length a <= i -> load s i st = None.
Proof.
  intros Hs Hi. unfold load. unfold slice in *. rewrite Hs.
  by rewrite lookup_ge_None_2.
Qed.

Lemma index_panics (p : list fr) i (st : store) :
  length p <= i -> index p i st = None.
Proof. intros Hi. unfold index. by rewrite lookup_ge_None_2. Qed.

(** ** [ComputeZ] *)

Lemma length_zUpTo {BOP OP} (pd : PublicRaw BOP OP) lv rv ov k :
  k <= Cardinality (DomainNum pd) ->
  length (zUpTo pd lv rv ov k) = Cardinality (DomainNum pd).
Proof.
  intros. unfold zUpTo.
  rewrite length_app, length_map, length_seq, length_replicate. lia.
Qed.

Lemma zUpTo_lookup {BOP OP} (pd : PublicRaw BOP OP) lv rv ov k i :
  i < k -> zUpTo pd lv rv ov k !! i = Some (zValue pd lv rv ov i).
Proof.
  intros Hi. unfold zUpTo.
  rewrite lookup_app_l by (rewrite length_map, length_seq; lia).
  by rewrite list_lookup_fmap, lookup_seq_lt.
Qed.

(** Writing entry [k] of the accumulator, whatever value it is given
    first. *)
Lemma zUpTo_write {BOP OP} (pd : PublicRaw BOP OP) lv rv ov k v :
  k < Cardinality (DomainNum pd) ->
  <[k := zValue pd lv rv ov k]> (<[k := v]> (zUpTo pd lv rv ov k))
  = zUpTo pd lv rv ov (S k).
Proof.
  intros Hk. rewrite list_insert_insert_eq. unfold zUpTo.
  assert (Hl : length (map (zValue pd lv rv ov) (seq 0 k)) = k)
    by (by rewrite length_map, length_seq).
  rewrite insert_app_r_alt by lia. rewrite Hl, Nat.sub_diag.
  replace (Cardinality (DomainNum pd) - k)
    with (S (Cardinality (DomainNum pd) - S k)) by lia.
  rewrite seq_S, map_app, <- app_assoc. reflexivity.
Qed.

(** [ComputeZ] allocates one slice and fills it with the accumulator; the
    wires are only read. *)
Lemma ComputeZ_spec {BOP OP} (pd : PublicRaw BOP OP) (l r o : slice)
    (lv rv ov : list fr) (st : store) :
  let n := Cardinality (DomainNum pd) in
  0 < n ->
  st !! l = Some lv -> st !! r = Some rv -> st !! o = Some ov ->
  n - 1 <= length lv -> n - 1 <= length rv -> n - 1 <= length ov ->
  n - 1 <= length (LS1 pd) -> n - 1 <= length (LS2 pd) ->
  n - 1 <= length (LS3 pd) ->
  ComputeZ l r o pd st = Some (length st, st ++ [zAcc pd lv rv ov]).
Proof.
  intros n Hn Hl Hr Ho Ll Lr Lo L1 L2 L3.
  assert (Hll : l < length st) by (by eapply lookup_lt_Some).
  assert (Hlr : r < length st) by (by eapply lookup_lt_Some).
  assert (Hlo : o < length st) by (by eapply lookup_lt_Some).
  enough (Hwp : wp (ComputeZ l r o pd)
            (fun res st' => res = length st /\ st' = st ++ [zAcc pd lv rv ov]) st).
  { apply wp_runs in Hwp as (a & st' & Hrun & -> & ->). exact Hrun. }
  unfold ComputeZ. fold n.
  set (g := Generator (DomainNum pd)).
  apply wp_bind, wp_make.
  apply wp_bind, wp_storeAt_new; [rewrite length_replicate; lia|].
  assert (H0 : <[0 := Fr.one]> (replicate n Fr.zero) = zUpTo pd lv rv ov 1).
  { unfold zUpTo. fold n. simpl. destruct n as [|n']; [lia|].
    simpl. by rewrite Nat.sub_0_r. }
  rewrite H0. clear H0.
  apply wp_bind.
  apply (wp_forM (fun i u st' =>
    u = (scaled Fr.one g i, scaled (fst (Shifter pd)) g i,
         scaled (Fr.square (snd (Shifter pd))) g i) /\
    st' = st ++ [zUpTo pd lv rv ov (S i)])).
  - done.
  - intros i u st' Hi [-> ->].
    assert (Hcur : forall s a, st !! s = Some a -> n - 1 <= length a ->
              (st ++ [zUpTo pd lv rv ov (S i)]) !! s = Some a /\
              a !! i = Some (at0 a i)).
    { intros s a Hs La. split.
      - rewrite store_lookup_old; [done | by eapply lookup_lt_Some].
      - apply at0_lookup. lia. }
    destruct (Hcur _ _ Hl Ll) as [Hl1 Hl2].
    destruct (Hcur _ _ Hr Lr) as [Hr1 Hr2].
    destruct (Hcur _ _ Ho Lo) as [Ho1 Ho2].
    apply wp_bind. eapply wp_load; [exact Hl1 | exact Hl2 |].
    apply wp_bind. eapply wp_load; [exact Hr1 | exact Hr2 |].
    apply wp_bind. eapply wp_load; [exact Ho1 | exact Ho2 |].
    apply wp_bind. eapply wp_load; [exact Hl1 | exact Hl2 |].
    apply wp_bind. eapply wp_index; [apply at0_lookup; lia|].
    apply wp_bind. eapply wp_load; [exact Hr1 | exact Hr2 |].
    apply wp_bind. eapply wp_index; [apply at0_lookup; lia|].
    apply wp_bind. eapply wp_load; [exact Ho1 | exact Ho2 |].
    apply wp_bind. eapply wp_index; [apply at0_lookup; lia|].
    apply wp_bind. eapply wp_load;
      [apply store_lookup_new | apply zUpTo_lookup; lia |].
    replace (i + 1) with (S i) by lia.
    apply wp_bind, wp_storeAt_new; [rewrite length_zUpTo; fold n; lia|].
    apply wp_bind. eapply wp_load;
      [apply store_lookup_new | apply list_lookup_insert_eq; rewrite length_zUpTo; fold n; lia |].
    apply wp_bind, wp_storeAt_new;
      [rewrite length_insert, length_zUpTo; fold n; lia|].
    apply wp_ret. split; [reflexivity|].
    do 2 f_equal. apply (zUpTo_write pd lv rv ov (S i)). fold n. lia.
  - intros u st' [_ ->]. apply wp_ret. split; [done|].
    replace (S (0 + (n - 1))) with n by lia.
    unfold zUpTo, zAcc. fold n. rewrite Nat.sub_diag. simpl.
    by rewrite app_nil_r.
Qed.

(** On a domain without points [ComputeZ] panics, on [z[0]]. *)
Lemma ComputeZ_empty_domain_panics {BOP OP} (pd : PublicRaw BOP OP)
    (l r o : slice) (st : store) :
  Cardinality (DomainNum pd) = 0 -> ComputeZ l r o pd st = None.
Proof.
  intros Hn. unfold ComputeZ. rewrite Hn.
  eapply bind_panics_r; [reflexivity|].
  apply bind_panics_l.
  eapply storeAt_panics; [apply store_lookup_new | simpl; lia].
Qed.

(** ** [computeH] *)

Lemma length_hCombined {BOP OP} (pd : PublicRaw BOP OP) ci co :
  length (hCombined pd ci co) = 4 * Cardinality (DomainNum pd).
Proof. unfold hCombined. by rewrite length_map, length_seq. Qed.

Lemma hCombined_lookup {BOP OP} (pd : PublicRaw BOP OP) ci co m :
  m < 4 * Cardinality (DomainNum pd) ->
  hCombined pd ci co !! m
  = Some (Fr.add (at0 ci m) (Fr.mul alpha (at0 co m))).
Proof.
  intros Hm. unfold hCombined. by rewrite list_lookup_fmap, lookup_seq_lt.
Qed.

Lemma hRows_temp {BOP OP} (pd : PublicRaw BOP OP) ci co j i :
  j < 4 -> i < Cardinality (DomainNum pd) ->
  tempAt (hRows pd ci co) j i
  = Fr.mul (at0 (hCombined pd ci co) (4 * i + j)) (hFactor (DomainNum pd) j).
Proof.
  intros Hj Hi. unfold tempAt, hRows.
  rewrite list_lookup_fmap, lookup_seq_lt by lia. simpl.
  by rewrite list_lookup_fmap, lookup_seq_lt.
Qed.

Lemma length_hEvals {BOP OP} (pd : PublicRaw BOP OP) ci co :
  length (hEvals pd ci co) = 4 * Cardinality (DomainNum pd).
Proof. apply length_interleave4. Qed.

(** Entry [4i+j] of the buffer before the inverse FFT. *)
Lemma hEvals_lookup {BOP OP} (pd : PublicRaw BOP OP) ci co i j :
  i < Cardinality (DomainNum pd) -> j < 4 ->
  hEvals pd ci co !! (4 * i + j)
  = Some (Fr.mul (Fr.add (at0 ci (4 * i + j)) (Fr.mul alpha (at0 co (4 * i + j))))
                 (hFactor (DomainNum pd) j)).
Proof.
  intros Hi Hj. unfold hEvals.
  rewrite interleave4_lookup, hRows_temp by lia.
  unfold at0 at 1. by rewrite hCombined_lookup by lia.
Qed.

(** The second loop of [computeH], one round. *)
Lemma hEvals_round {BOP OP} (pd : PublicRaw BOP OP) ci co i :
  i < Cardinality (DomainNum pd) ->
  let d := DomainNum pd in
  let c0 := interleave4 (hRows pd ci co) i ++ drop (4 * i) (hCombined pd ci co) in
  let c1 := <[4 * i := Fr.mul (at0 c0 (4 * i)) (hFactor d 0)]> c0 in
  let c2 := <[4 * i + 1 := Fr.mul (at0 c1 (4 * i + 1)) (hFactor d 1)]> c1 in
  let c3 := <[4 * i + 2 := Fr.mul (at0 c2 (4 * i + 2)) (hFactor d 2)]> c2 in
  <[4 * i + 3 := Fr.mul (at0 c3 (4 * i + 3)) (hFactor d 3)]> c3
  = interleave4 (hRows pd ci co) (S i) ++ drop (4 * S i) (hCombined pd ci co).
Proof.
  intros Hi d c0 c1 c2 c3.
  assert (H0 : forall j, at0 c0 (4 * i + j) = at0 (hCombined pd ci co) (4 * i + j)).
  { intros j. unfold c0. apply at0_rows_old. }
  assert (E0 : at0 c0 (4 * i) = at0 (hCombined pd ci co) (4 * i + 0))
    by (rewrite <- H0; f_equal; lia).
  assert (E1 : at0 c1 (4 * i + 1) = at0 (hCombined pd ci co) (4 * i + 1))
    by (unfold c1; rewrite at0_insert_ne by lia; apply H0).
  assert (E2 : at0 c2 (4 * i + 2) = at0 (hCombined pd ci co) (4 * i + 2))
    by (unfold c2, c1; rewrite !at0_insert_ne by lia; apply H0).
  assert (E3 : at0 c3 (4 * i + 3) = at0 (hCombined pd ci co) (4 * i + 3))
    by (unfold c3, c2, c1; rewrite !at0_insert_ne by lia; apply H0).
  rewrite E3. unfold c3. rewrite E2. unfold c2. rewrite E1. unfold c1.
  rewrite E0. unfold c0.
  rewrite <- interleave4_write by (rewrite length_hCombined; lia).
  by rewrite !hRows_temp by lia.
Qed.

(** The pointwise part of [computeH]: one fresh slice, the inputs only
    read. *)
Lemma computeH_evals_spec {BOP OP} (pd : PublicRaw BOP OP)
    (constraintsInd constraintOrdering : slice) (ci co : list fr) (st : store) :
  let n := Cardinality (DomainNum pd) in
  st !! constraintsInd = Some ci -> st !! constraintOrdering = Some co ->
  4 * n <= length ci -> 4 * n <= length co ->
  computeH_evals pd constraintsInd constraintOrdering st
  = Some (length st, st ++ [hEvals pd ci co]).
Proof.
  intros n Hci Hco Lci Lco.
  enough (Hwp : wp (computeH_evals pd constraintsInd constraintOrdering)
            (fun res st' => res = length st /\ st' = st ++ [hEvals pd ci co]) st).
  { apply wp_runs in Hwp as (a & st' & Hrun & -> & ->). exact Hrun. }
  unfold computeH_evals. fold n.
  apply wp_bind, wp_make.
  set (zs := replicate (4 * n) Fr.zero).
  set (H1 := hCombined pd ci co).
  assert (LH1 : length H1 = 4 * n) by apply length_hCombined.
  assert (Lzs : length zs = 4 * n) by apply length_replicate.
  apply wp_bind.
  apply (wp_for (fun i st' => st' = st ++ [take i H1 ++ drop i zs])).
  - done.
  - intros i st' Hi ->.
    apply wp_bind. eapply wp_load;
      [rewrite store_lookup_old; [exact Hco | by eapply lookup_lt_Some]
      | apply at0_lookup; lia |].
    apply wp_bind. eapply wp_load;
      [rewrite store_lookup_old; [exact Hci | by eapply lookup_lt_Some]
      | apply at0_lookup; lia |].
    apply wp_storeAt_new; [rewrite length_overwrite; lia|].
    do 2 f_equal. apply overwrite_step; [|lia].
    unfold H1. apply hCombined_lookup. fold n. lia.
  - intros st' ->. rewrite Nat.add_0_l.
    rewrite drop_ge by lia. rewrite app_nil_r, take_ge by lia.
    assert (HF : forall j, j < 4 ->
              hFactor (DomainNum pd) j
              = match computeH_u (DomainNum pd) with
                | (u0, u1, u2, u3) =>
                    match j with 0 => u0 | 1 => u1 | 2 => u2 | _ => u3 end
                end) by reflexivity.
    assert (HF0 := HF 0). assert (HF1 := HF 1).
    assert (HF2 := HF 2). assert (HF3 := HF 3). clear HF.
    destruct (computeH_u (DomainNum pd)) as [[[u0 u1] u2] u3].
    cbv beta iota in HF0, HF1, HF2, HF3. cbv beta iota.
    rewrite <- HF0, <- HF1, <- HF2, <- HF3 by lia.
    apply wp_bind.
    apply (wp_for (fun i st' =>
      st' = st ++ [interleave4 (hRows pd ci co) i ++ drop (4 * i) H1])).
    + by rewrite Nat.mul_0_r, drop_0.
    + intros i st' Hi ->.
      assert (Lc : length (interleave4 (hRows pd ci co) i ++ drop (4 * i) H1) = 4 * n)
        by (rewrite length_app, length_interleave4, length_drop; lia).
      apply wp_bind, wp_mulTo_new; [lia | lia |].
      apply wp_bind, wp_mulTo_new; [rewrite ?length_insert; lia ..|].
      apply wp_bind, wp_mulTo_new; [rewrite ?length_insert; lia ..|].
      apply wp_mulTo_new; [rewrite ?length_insert; lia ..|].
      do 2 f_equal. apply hEvals_round. fold n. lia.
    + intros st' ->. apply wp_ret. split; [done|].
      rewrite drop_ge by lia. by rewrite app_nil_r.
Qed.

Lemma computeH_spec {BOP OP} (pd : PublicRaw BOP OP)
    (constraintsInd constraintOrdering : slice) (ci co : list fr) (st : store) :
  let n := Cardinality (DomainNum pd) in
  st !! constraintsInd = Some ci -> st !! constraintOrdering = Some co ->
  4 * n <= length ci -> 4 * n <= length co ->
  computeH pd constraintsInd constraintOrdering st
  = Some (length st, st ++ [hCoefficients pd ci co]).
Proof.
  intros n Hci Hco Lci Lco.
  enough (Hwp : wp (computeH pd constraintsInd constraintOrdering)
            (fun res st' => res = length st /\ st' = st ++ [hCoefficients pd ci co]) st).
  { apply wp_runs in Hwp as (a & st' & Hrun & -> & ->). exact Hrun. }
  unfold computeH.
  call_with @computeH_evals_spec; [exact Hci | exact Hco | done | done |].
  apply wp_bind. eapply wp_modify; [apply store_lookup_new|].
  rewrite store_set_new.
  apply wp_bind. eapply wp_modify; [apply store_lookup_new|].
  rewrite store_set_new.
  by apply wp_ret.
Qed.

(** ** [Prove], from end to end *)

Lemma shiftZ_rotated (z : slice) (zv : list fr) (st : store) :
  st !! z = Some zv -> 0 < length zv ->
  shiftZ z st = Some (length st, st ++ [rotated zv]).
Proof.
  intros Hz Hl. destruct zv as [|v tl]; [simpl in Hl; lia|].
  rewrite (shiftZ_spec z v tl st Hz). unfold rotated. simpl. by rewrite drop_0.
Qed.

Lemma length_zAcc {BOP OP} (pd : PublicRaw BOP OP) lv rv ov :
  length (zAcc pd lv rv ov) = Cardinality (DomainNum pd).
Proof. unfold zAcc. by rewrite length_map, length_seq. Qed.

Lemma wellFormed_unfold {BOP OP} (spr : SparseR1CS) (pd : PublicRaw BOP OP)
    (solution : list fr) :
  wellFormed spr pd solution = true ->
  let n := Cardinality (DomainNum pd) in
  let rows := Constraints spr ++ Assertions spr in
  0 < n /\ length rows <= n /\ idsInRange solution rows = true /\
  (length rows < n -> 0 < length solution) /\
  n - 1 <= length (LS1 pd) /\ n - 1 <= length (LS2 pd) /\
  n - 1 <= length (LS3 pd).
Proof.
  intros H n rows. unfold wellFormed in H. fold n rows in H.
  repeat (apply andb_prop in H as [H ?]).
  repeat match goal with
         | H : (_ <? _) = true |- _ => apply Nat.ltb_lt in H
         | H : (_ <=? _) = true |- _ => apply Nat.leb_le in H
         end.
  repeat split; try done.
  intros Hlt.
  match goal with
  | Ho : (_ || _) = true |- _ =>
      apply orb_prop in Ho as [Ho|Ho];
        [apply Nat.leb_le in Ho; lia | by apply Nat.ltb_lt in Ho]
  end.
Qed.

Lemma length_wiresLRO (solution : list fr) (rows : list SparseR1C.t) n :
  length rows <= n ->
  length (wiresLRO solution rows n).1.1 = n /\
  length (wiresLRO solution rows n).1.2 = n /\
  length (wiresLRO solution rows n).2 = n.
Proof.
  intros H. unfold wiresLRO. simpl. rewrite !length_wirePadded by lia. done.
Qed.

(** In-place transformation of a slice at a known place after [st]. *)
Ltac modify_at :=
  apply wp_bind; eapply wp_modify;
  [ first [ rewrite store_app_lookup | rewrite store_app_lookup0 ]; reflexivity
  | first [ rewrite store_app_set | rewrite store_app_set0 ];
    simpl list_insert ].

Ltac read_at :=
  apply wp_bind; eapply wp_read;
  [ first [ rewrite store_app_lookup | rewrite store_app_lookup0 ]; reflexivity | ].

(** The slices in the store once [Prove] has evaluated the gate identity:
    the wires, the three coset buffers (the first one overwritten by
    [evalConstraints]) and the work slices. *)
Lemma Prove_gate_spec {BOP OP} (spr : SparseR1CS) (pd : PublicRaw BOP OP)
    (solution : list fr) (st : store) :
  let d := DomainNum pd in
  let n := Cardinality d in
  let rows := Constraints spr ++ Assertions spr in
  length rows <= n ->
  idsInRange solution rows = true ->
  (length rows < n -> 0 < length solution) ->
  Prove_gate spr pd solution st
  = Some (mkGateStage (length st) (length st + 1) (length st + 2)
                      (length st + 3) (length st + 4) (length st + 5)
                      (length st + 3),
          st ++ gateStore spr pd solution).
Proof.
  intros d n rows Hfit Hids Hpad.
  enough (Hwp : wp (Prove_gate spr pd solution)
            (fun g st' =>
               g = mkGateStage (length st) (length st + 1) (length st + 2)
                     (length st + 3) (length st + 4) (length st + 5)
                     (length st + 3) /\
               st' = st ++ gateStore spr pd solution) st).
  { apply wp_runs in Hwp as (g & st' & Hrun & -> & ->). exact Hrun. }
  unfold Prove_gate. fold d n.
  call_with @ComputeLRO_spec; [exact Hfit | exact Hids | exact Hpad |].
  fold rows n.
  replace (S (S (length st))) with (length st + 2) by lia.
  replace (S (length st)) with (length st + 1) by lia.
  do 3 (apply wp_bind, wp_make).
  rewrite !length_app. simpl length. rewrite <- !app_assoc. simpl app.
  replace (length st + 3 + 1) with (length st + 4) by lia.
  replace (length st + 4 + 1) with (length st + 5) by lia.
  do 3 cosets_into_new.
  call_with @evalConstraints_spec;
    [ rewrite store_app_lookup; reflexivity
    | rewrite store_app_lookup; reflexivity
    | rewrite store_app_lookup; reflexivity
    | lia | lia
    | apply length_cosetEvals
    | by rewrite length_cosetEvals
    | by rewrite length_cosetEvals
    | ].
  rewrite <- app_assoc, store_app_set. simpl list_insert.
  apply wp_ret. split; reflexivity.
Qed.

(** [Prove] up to its last line: on well-formed inputs it runs to the end
    and the local [proof] holds the evaluations and openings of
    [provePolys]; no slice of the caller is modified. *)
Lemma Prove_populate_spec {BOP OP} Solve (spr : SparseR1CS)
    (pd : PublicRaw BOP OP) (witness : Witness) (st : store) :
  let solution := fst (Solve spr witness) in
  wellFormed spr pd solution = true ->
  exists st',
    Prove_populate Solve spr pd witness st
    = Some (populatedProof pd (provePolys spr pd solution), st') /\
    forall s, s < length st -> st' !! s = st !! s.
Proof.
  intros solution Hwf.
  destruct (wellFormed_unfold spr pd solution Hwf)
    as (Hn & Hfit & Hids & Hpad & L1 & L2 & L3).
  destruct (length_wiresLRO solution _ _ Hfit) as (Ll & Lr & Lo).
  enough (Hwp : wp (Prove_populate Solve spr pd witness)
            (fun p st' => p = populatedProof pd (provePolys spr pd solution) /\
                          forall s, s < length st -> st' !! s = st !! s) st).
  { apply wp_runs in Hwp as (p & st' & Hrun & -> & Hfr). by exists st'. }
  unfold Prove_populate. subst solution.
  destruct (Solve spr witness) as [solution err]. simpl fst in *.
  call_with @Prove_gate_spec; [exact Hfit | exact Hids | exact Hpad |].
  cbv beta iota.
  unfold gateStore, evalConstraintsTemps, cosetTemps. simpl app.
  set (d := DomainNum pd) in *. set (n := Cardinality d) in *.
  set (rows := Constraints spr ++ Assertions spr) in *.
  set (lw := wirePadded SparseR1C.L solution rows n (n - length rows)).
  set (rw := wirePadded SparseR1C.R solution rows n (n - length rows)).
  set (ow := wirePadded SparseR1C.O solution rows n (n - length rows)).
  assert (Hlw : length lw = n) by (unfold lw; apply length_wirePadded; lia).
  assert (Hrw : length rw = n) by (unfold rw; apply length_wirePadded; lia).
  assert (How : length ow = n) by (unfold ow; apply length_wirePadded; lia).
  set (cR := cosetEvals (Qr pd) d). set (cO := cosetEvals (Qm pd) d).
  set (ci := gateEvals pd (cosetEvals (Ql pd) d) cR cO).
  call_with @ComputeZ_spec;
    [ exact Hn
    | rewrite store_app_lookup0; reflexivity
    | rewrite store_app_lookup; reflexivity
    | rewrite store_app_lookup; reflexivity
    | fold d n; lia | fold d n; lia | fold d n; lia
    | exact L1 | exact L2 | exact L3 | ].
  set (zl := zAcc pd lw rw ow).
  assert (Hzl : length zl = n) by apply length_zAcc.
  rewrite length_app. simpl length. rewrite <- app_assoc. simpl app.
  call_with shiftZ_rotated;
    [ rewrite store_app_lookup; reflexivity | lia | ].
  rewrite length_app. simpl length. rewrite <- app_assoc. simpl app.
  do 4 modify_at.
  fold (canonical d zl). fold (canonical d (rotated zl)).
  set (zc := canonical d zl). set (zuc := canonical d (rotated zl)).
  call_with @evalConstraintOrdering_spec;
    [ exact Hn
    | rewrite store_app_lookup; reflexivity
    | rewrite store_app_lookup; reflexivity
    | rewrite store_app_lookup; reflexivity
    | rewrite store_app_lookup; reflexivity
    | rewrite store_app_lookup; reflexivity
    | unfold ci; by rewrite length_gateEvals
    | unfold cR; by rewrite length_cosetEvals
    | unfold cO; by rewrite length_cosetEvals
    | ].
  set (co := orderingEvals pd zc zuc ci cR cO).
  rewrite length_app. simpl length. rewrite <- app_assoc.
  unfold orderingTemps, idCosets, cosetTemps. simpl app.
  replace (length st + 45 + 28) with (length st + 73) by lia.
  call_with @computeH_spec;
    [ rewrite store_app_lookup; reflexivity
    | rewrite store_app_lookup; reflexivity
    | unfold ci; by rewrite length_gateEvals
    | unfold co; by rewrite length_orderingEvals
    | ].
  rewrite length_app. simpl length. rewrite <- app_assoc. simpl app.
  do 6 modify_at.
  do 5 read_at.
  apply wp_ret. split; [reflexivity|].
  intros s Hs. by apply store_app_lookup_old.
Qed.

(** ** When [ComputeLRO] panics *)

Lemma bind_panics_after {A B} (c : M A) (k : A -> M B) (st : store) :
  (forall a st', k a st' = None) -> bind c k st = None.
Proof. intros Hk. unfold bind. destruct (c st) as [[a st']|]; [apply Hk | done]. Qed.

Lemma index_inv (p : list fr) i (st st' : store) v :
  index p i st = Some (v, st') -> p !! i = Some v /\ st' = st.
Proof.
  unfold index. destruct (p !! i); [|done]. intros [= -> ->]. done.
Qed.

Lemma storeAt_inv (s : slice) i v (st st' : store) :
  storeAt s i v st = Some (tt, st') ->
  exists a, st !! s = Some a /\ i < length a /\ st' = <[s := <[i := v]> a]> st.
Proof.
  unfold storeAt. destruct (st !! s) as [a|]; [|done].
  destruct (decide (i < length a)); [|done]. intros [= <-]. by exists a.
Qed.

(** A loop that returns keeps every condition its rounds keep. *)
Lemma forM_preserves {A} (J : A -> store -> Prop) (body : nat -> A -> M A) :
  forall n start a st a' st',
    (forall i a st a' st', J a st -> body i a st = Some (a', st') -> J a' st') ->
    J a st -> forM start n a body st = Some (a', st') -> J a' st'.
Proof.
  induction n as [|n IH]; intros start a st a' st' Hpres HJ Hrun; simpl in Hrun.
  - by injection Hrun as <- <-.
  - unfold bind in Hrun.
    destruct (body start a st) as [[a1 st1]|] eqn:E; [|done].
    eapply IH; [exact Hpres | | exact Hrun]. by eapply Hpres.
Qed.

Lemma for_preserves (J : store -> Prop) (body : nat -> M unit) n start st st' :
  (forall i st st', J st -> body i st = Some (tt, st') -> J st') ->
  J st -> for_ start n body st = Some (tt, st') -> J st'.
Proof.
  intros Hpres HJ Hrun. unfold for_ in Hrun.
  eapply (forM_preserves (fun _ st => J st)); [|exact HJ|exact Hrun].
  intros i [] st0 [] st1. apply Hpres.
Qed.

Lemma setRow_keeps_wires (st st1 st2 : store) n solution i ia ib ic :
  wiresOf st n st1 ->
  setRow (length st) (S (length st)) (S (S (length st))) solution i ia ib ic st1
  = Some (tt, st2) ->
  wiresOf st n st2.
Proof.
  intros (a & b & c & -> & La & Lb & Lc). unfold setRow, bind.
  destruct (index solution ia _) as [[va s1]|] eqn:E1; [|done].
  apply index_inv in E1 as [_ ->].
  destruct (storeAt (length st) i va _) as [[[] s2]|] eqn:E2; [|done].
  apply storeAt_inv in E2 as (a' & Ha' & Hi & ->).
  rewrite (proj1 (store3_lookup _ _ _ _)) in Ha'. injection Ha' as <-.
  rewrite (proj1 (store3_set _ _ _ _ _)).
  destruct (index solution ib _) as [[vb s3]|] eqn:E3; [|done].
  apply index_inv in E3 as [_ ->].
  destruct (storeAt (S (length st)) i vb _) as [[[] s4]|] eqn:E4; [|done].
  apply storeAt_inv in E4 as (b' & Hb' & Hi' & ->).
  rewrite (proj1 (proj2 (store3_lookup _ _ _ _))) in Hb'. injection Hb' as <-.
  rewrite (proj1 (proj2 (store3_set _ _ _ _ _))).
  destruct (index solution ic _) as [[vc s5]|] eqn:E5; [|done].
  apply index_inv in E5 as [_ ->].
  intros E6. apply storeAt_inv in E6 as (c' & Hc' & Hi'' & ->).
  rewrite (proj2 (proj2 (store3_lookup _ _ _ _))) in Hc'. injection Hc' as <-.
  rewrite (proj2 (proj2 (store3_set _ _ _ _ _))).
  eexists _, _, _. split; [reflexivity|]. by rewrite !length_insert.
Qed.

(** A row beyond the end of the wires panics. *)
Lemma setRow_panics_bound (st st1 : store) n solution i ia ib ic :
  wiresOf st n st1 -> n <= i ->
  setRow (length st) (S (length st)) (S (S (length st))) solution i ia ib ic st1
  = None.
Proof.
  intros (a & b & c & -> & La & Lb & Lc) Hi. unfold setRow.
  unfold bind at 1.
  destruct (index solution ia _) as [[va s1]|] eqn:E1; [|done].
  apply index_inv in E1 as [_ ->].
  apply bind_panics_l.
  eapply storeAt_panics; [apply store3_lookup | lia].
Qed.

(** A row with a variable id outside the solution panics, whatever the
    store. *)
Lemma setRow_panics_id (l r o : slice) solution i ia ib ic (st : store) :
  length solution <= ia \/ length solution <= ib \/ length solution <= ic ->
  setRow l r o solution i ia ib ic st = None.
Proof.
  intros Hid. unfold setRow, bind.
  destruct (index solution ia st) as [[va s1]|] eqn:E1; [|done].
  destruct (storeAt l i va s1) as [[[] s2]|]; [|done].
  destruct (index solution ib s2) as [[vb s3]|] eqn:E3; [|done].
  destruct (storeAt r i vb s3) as [[[] s4]|]; [|done].
  destruct (index solution ic s4) as [[vc s5]|] eqn:E5; [|done].
  apply index_inv in E1 as [E1 _]. apply index_inv in E3 as [E3 _].
  apply index_inv in E5 as [E5 _].
  apply lookup_lt_Some in E1, E3, E5. lia.
Qed.

Lemma rowInRange_false solution c :
  rowInRange solution c = false ->
  length solution <= VariableID (SparseR1C.L c) \/
  length solution <= VariableID (SparseR1C.R c) \/
  length solution <= VariableID (SparseR1C.O c).
Proof.
  unfold rowInRange. intros H.
  apply andb_false_iff in H as [H|H]; [apply andb_false_iff in H as [H|H]|];
    apply Nat.ltb_ge in H; auto.
Qed.

Lemma forallb_false_lookup {A} (f : A -> bool) (l : list A) :
  forallb f l = false -> exists k x, l !! k = Some x /\ f x = false.
Proof.
  induction l as [|y l IH]; simpl; [done|].
  intros H. apply andb_false_iff in H as [H|H].
  - by exists 0, y.
  - destruct (IH H) as (k & x & Hk & Hx). by exists (S k), x.
Qed.

Lemma constraintAt_setRow_keeps_wires (st st1 st2 : store) n solution
    (cs : list SparseR1C.t) k i :
  wiresOf st n st1 ->
  (let* c := constraintAt cs k in
   setRow (length st) (S (length st)) (S (S (length st))) solution i
     (VariableID (SparseR1C.L c)) (VariableID (SparseR1C.R c))
     (VariableID (SparseR1C.O c))) st1 = Some (tt, st2) ->
  wiresOf st n st2.
Proof.
  intros HW. unfold bind, constraintAt.
  destruct (cs !! k) as [c|]; [|done]. by apply setRow_keeps_wires.
Qed.

Lemma constraintAt_setRow_panics_bound (st st1 : store) n solution
    (cs : list SparseR1C.t) k i :
  wiresOf st n st1 -> n <= i ->
  (let* c := constraintAt cs k in
   setRow (length st) (S (length st)) (S (S (length st))) solution i
     (VariableID (SparseR1C.L c)) (VariableID (SparseR1C.R c))
     (VariableID (SparseR1C.O c))) st1 = None.
Proof.
  intros HW Hi. unfold bind, constraintAt.
  destruct (cs !! k) as [c|]; [|done]. by eapply setRow_panics_bound.
Qed.

Lemma constraintAt_setRow_panics_id (l r o : slice) solution
    (cs : list SparseR1C.t) k i c (st : store) :
  cs !! k = Some c -> rowInRange solution c = false ->
  (let* c := constraintAt cs k in
   setRow l r o solution i
     (VariableID (SparseR1C.L c)) (VariableID (SparseR1C.R c))
     (VariableID (SparseR1C.O c))) st = None.
Proof.
  intros Hc Hbad. unfold bind, constraintAt. rewrite Hc.
  by apply setRow_panics_id, rowInRange_false.
Qed.

(** [ComputeLRO] panics as soon as its input is out of range: more rows
    than domain points, a variable id without a value, or a padded row
    with no dummy slot. *)
Lemma ComputeLRO_out_of_range_panics {BOP OP} (spr : SparseR1CS)
    (pd : PublicRaw BOP OP) (solution : list fr) (st : store) :
  lroInRange spr pd solution = false ->
  ComputeLRO spr pd solution st = None.
Proof.
  intros Hbad. unfold lroInRange in Hbad.
  set (n := Cardinality (DomainNum pd)) in *.
  set (cs := Constraints spr) in *. set (asr := Assertions spr) in *.
  assert (Hrows : length (cs ++ asr) = length cs + length asr) by apply length_app.
  unfold ComputeLRO. fold n cs asr.
  do 3 (eapply bind_panics_r; [reflexivity|]).
  rewrite !length_app. simpl length. rewrite <- !app_assoc. simpl app.
  replace (length st + 1) with (S (length st)) by lia.
  replace (S (length st) + 1) with (S (S (length st))) by lia.
  set (zs := replicate n Fr.zero).
  assert (W0 : wiresOf st n (st ++ [zs; zs; zs])).
  { exists zs, zs, zs. unfold zs. by rewrite length_replicate. }
  revert W0. generalize (st ++ [zs; zs; zs]). intros st0 W0.
  apply andb_false_iff in Hbad as [Hbad|Hpad];
    [apply andb_false_iff in Hbad as [Hfit|Hids]|].
  - (* more rows than points *)
    apply Nat.leb_gt in Hfit. rewrite Hrows in Hfit.
    destruct (decide (n < length cs)) as [Hc|Hc].
    + apply bind_panics_l.
      apply (for_panics (wiresOf st n) _ n); [lia | exact W0 | |].
      * intros i s1 s2 _ HW. by apply constraintAt_setRow_keeps_wires.
      * intros s1 HW. by eapply constraintAt_setRow_panics_bound.
    + unfold bind at 1.
      destruct (for_ 0 (length cs) _ st0) as [[[] st1]|] eqn:E1; [|done].
      assert (W1 : wiresOf st n st1).
      { eapply for_preserves; [|exact W0|exact E1].
        intros i s1 s2 HW. by apply constraintAt_setRow_keeps_wires. }
      apply bind_panics_l.
      apply (for_panics (wiresOf st n) _ (n - length cs)); [lia | exact W1 | |].
      * intros i s1 s2 _ HW. by apply constraintAt_setRow_keeps_wires.
      * intros s1 HW. eapply constraintAt_setRow_panics_bound; [exact HW | lia].
  - (* a variable id without a value *)
    apply forallb_false_lookup in Hids as (k & c & Hk & Hc).
    change (rowInRange solution c = false) in Hc.
    destruct (decide (k < length cs)) as [Hlt|Hge].
    + rewrite lookup_app_l in Hk by lia.
      apply bind_panics_l.
      apply (for_panics (fun _ => True) _ k);
        [apply lookup_lt_Some in Hk; lia | done | done |].
      intros s1 _. by eapply constraintAt_setRow_panics_id.
    + rewrite lookup_app_r in Hk by lia.
      apply bind_panics_after. intros [] s1.
      apply bind_panics_l.
      apply (for_panics (fun _ => True) _ (k - length cs));
        [apply lookup_lt_Some in Hk; lia | done | done |].
      intros s2 _. by eapply constraintAt_setRow_panics_id.
  - (* a padded row and no dummy slot *)
    apply orb_false_iff in Hpad as [Hlt H0].
    apply Nat.leb_gt in Hlt. apply Nat.ltb_ge in H0. rewrite Hrows in Hlt.
    apply bind_panics_after. intros [] s1.
    apply bind_panics_after. intros [] s2.
    apply bind_panics_l.
    apply (for_panics (fun _ => True) _ 0); [lia | done | done |].
    intros s3 _. apply setRow_panics_id. lia.
Qed.

(** ** [evaluateCosets]: what it reads and when it panics *)

Lemma padded_take (poly : list fr) (d : Domain) :
  padded poly d
  = take (Cardinality d) poly ++ replicate (Cardinality d - length poly) Fr.zero.
Proof.
  unfold padded, copyInto. by rewrite length_replicate, drop_replicate.
Qed.

Lemma load_inv (s : slice) i (st st' : store) v :
  load s i st = Some (v, st') -> st' = st.
Proof.
  unfold load. destruct (st !! s) as [a|]; [|done].
  destruct (a !! i); [|done]. by intros [= _ <-].
Qed.

Lemma setTo_keeps_only (base st1 st2 : store) res len e i k :
  res < length base -> onlySlice base res len st1 ->
  setTo res k e i st1 = Some (tt, st2) -> onlySlice base res len st2.
Proof.
  intros Hres (cur & -> & Hlen). unfold setTo, bind.
  destruct (load e i _) as [[v s1]|] eqn:E; [|done].
  apply load_inv in E as ->. intros E.
  apply storeAt_inv in E as (a & Ha & Hk & ->).
  rewrite list_lookup_insert_eq in Ha by done. injection Ha as <-.
  rewrite list_insert_insert_eq.
  eexists. split; [reflexivity|]. by rewrite length_insert.
Qed.

Lemma setTo_panics_bound (base st1 : store) res len e i k :
  res < length base -> onlySlice base res len st1 -> len <= k ->
  setTo res k e i st1 = None.
Proof.
  intros Hres (cur & -> & Hlen) Hk. unfold setTo, bind.
  destruct (load e i _) as [[v s1]|] eqn:E; [|done].
  apply load_inv in E as ->.
  eapply storeAt_panics; [by apply list_lookup_insert_eq | lia].
Qed.

Lemma modify_runs (s : slice) f (a : list fr) (st : store) :
  st !! s = Some a -> modify s f st = Some (tt, <[s := f a]> st).
Proof. intros Hs. unfold modify. unfold slice in *. by rewrite Hs. Qed.

Ltac modify_then :=
  eapply bind_panics_r;
  [ apply modify_runs;
    first [ rewrite store_app_lookup0 | rewrite store_app_lookup ]; reflexivity
  | first [ rewrite store_app_set0 | rewrite store_app_set ];
    simpl list_insert ].

(** One [res[k] = e[i]] followed by more work [K]. *)
Lemma setTo_then_inv {B} (base st1 st2 : store) res len e i k
    (K : unit -> M B) (b : B) :
  res < length base -> onlySlice base res len st1 ->
  (let* v := load e i in bind (storeAt res k v) K) st1 = Some (b, st2) ->
  exists s, onlySlice base res len s /\ K tt s = Some (b, st2).
Proof.
  intros Hres HJ. unfold bind.
  destruct (load e i st1) as [[v s1]|] eqn:E; [|done].
  destruct (storeAt res k v s1) as [[[] s2]|] eqn:E'; [|done].
  intros HK. exists s2. split; [|done].
  apply (setTo_keeps_only base st1 s2 res len e i k Hres HJ).
  unfold setTo, bind. by rewrite E.
Qed.

Lemma setTo_then_panics_bound {B} (base st1 : store) res len e i k
    (K : unit -> M B) :
  res < length base -> onlySlice base res len st1 -> len <= k ->
  (let* v := load e i in bind (storeAt res k v) K) st1 = None.
Proof.
  intros Hres HJ Hk.
  pose proof (setTo_panics_bound base st1 res len e i k Hres HJ Hk) as Hp.
  unfold setTo, bind in *.
  destruct (load e i st1) as [[v s1]|]; [|done]. by rewrite Hp.
Qed.

Lemma setTo_then_panics_later {B} (base st1 : store) res len e i k
    (K : unit -> M B) :
  res < length base -> onlySlice base res len st1 ->
  (forall s, onlySlice base res len s -> K tt s = None) ->
  (let* v := load e i in bind (storeAt res k v) K) st1 = None.
Proof.
  intros Hres HJ HK.
  destruct ((let* v := load e i in bind (storeAt res k v) K) st1)
    as [[b s2]|] eqn:E; [|done].
  apply (setTo_then_inv base st1 s2 res len e i k K b Hres HJ) in E
    as (s & Hs & HKs).
  rewrite HK in HKs; done.
Qed.

(** X4: [evaluateCosets] panics when the result buffer [res] has fewer
    than [4n] entries: its last loop writes [res[4i+j]] for every [i < n]
    and [j < 4]. *)
Theorem evaluateCosets_short_res_panics (poly : list fr) (res : slice) (d : Domain)
    (old : list fr) (st : store) :
  st !! res = Some old -> length old < 4 * Cardinality d ->
  evaluateCosets poly res d st = None.
Proof.
  intros Hres Hold.
  assert (Hlt : res < length st) by (by eapply lookup_lt_Some).
  unfold evaluateCosets.
  do 4 (eapply bind_panics_r; [reflexivity|]).
  rewrite !length_app. simpl length. rewrite <- !app_assoc. simpl app.
  replace (length st + 1 + 1) with (length st + 2) by lia.
  replace (length st + 2 + 1) with (length st + 3) by lia.
  unfold copy.
  do 12 modify_then.
  match goal with |- for_ _ _ _ (st ++ ?ts) = None => set (base := st ++ ts) end.
  assert (Hb : res < length base) by (unfold base; rewrite length_app; lia).
  set (k := length old / 4).
  assert (Hk : 4 * k <= length old < 4 * k + 4).
  { unfold k. pose proof (Nat.div_mod_eq (length old) 4).
    pose proof (Nat.mod_upper_bound (length old) 4). lia. }
  apply (for_panics (onlySlice base res (length old)) _ k); [lia | | |].
  - exists old. split; [|done]. symmetry. apply list_insert_id.
    unfold base. by rewrite store_app_lookup_old.
  - intros i s0 s4 _ HJ E.
    eapply setTo_then_inv in E as (s1 & HJ1 & E); [|exact Hb|exact HJ].
    eapply setTo_then_inv in E as (s2 & HJ2 & E); [|exact Hb|exact HJ1].
    eapply setTo_then_inv in E as (s3 & HJ3 & E); [|exact Hb|exact HJ2].
    exact (setTo_keeps_only _ _ _ _ _ _ _ _ Hb HJ3 E).
  - intros s0 HJ.
    destruct (decide (length old <= 4 * k)) as [H0|H0].
    { by eapply setTo_then_panics_bound. }
    eapply setTo_then_panics_later; [exact Hb | exact HJ |].
    intros s1 HJ1.
    destruct (decide (length old <= 4 * k + 1)) as [H1|H1].
    { by eapply setTo_then_panics_bound. }
    eapply setTo_then_panics_later; [exact Hb | exact HJ1 |].
    intros s2 HJ2.
    destruct (decide (length old <= 4 * k + 2)) as [H2|H2].
    { by eapply setTo_then_panics_bound. }
    eapply setTo_then_panics_later; [exact Hb | exact HJ2 |].
    intros s3 HJ3.
    apply (setTo_panics_bound _ _ _ _ _ _ _ Hb HJ3). lia.
Qed.

Lemma evaluateCosets_short_res_panics_witness :
  evaluateCosets [1; 2]%Z 0 Example.d2 [[0; 0; 0; 0; 0; 0; 0]%Z] = None.
Proof.
  apply (evaluateCosets_short_res_panics [1; 2]%Z 0 Example.d2
           [0; 0; 0; 0; 0; 0; 0]%Z);
    [reflexivity | simpl; lia].
Defined.

(** ** What [evalIDCosets] returns *)

Lemma evalIDCosets_empty_panics {BOP OP} (pd : PublicRaw BOP OP) (st : store) :
  Cardinality (DomainNum pd) = 0 -> evalIDCosets pd st = None.
Proof.
  intros Hc. unfold evalIDCosets. rewrite Hc.
  eapply bind_panics_r; [reflexivity|].
  apply bind_panics_l.
  eapply storeAt_panics; [apply store_lookup_new | simpl; lia].
Qed.

(** Entry [m] of [id] while round [m mod c] of the second loop reads it for
    [uuid]: already on its coset when its row is at most [m mod c], still
    the bare power of the generator otherwise. *)
Lemma idAfter_during (d : Domain) i j k :
  i < Cardinality d -> j < 4 -> k < Cardinality d ->
  at0 (idAfter d (S k)) (4 * i + j)
  = if i <=? k
    then Fr.mul (Fr.pow (Generator d) i) (cosetFactor d j)
    else Fr.pow (Generator d) i.
Proof.
  intros Hi Hj Hk. unfold idAfter.
  destruct (Nat.leb_spec i k) as [Hle|Hgt].
  - rewrite at0_interleave4_new by lia. by apply idRows_temp.
  - rewrite at0_interleave4_old by lia. by apply at0_idStart.
Qed.

Lemma uuidAfter_at {BOP OP} (pd : PublicRaw BOP OP) k m :
  let c := Cardinality (DomainNum pd) in
  k <= c -> m < 4 * c ->
  at0 (uuidAfter pd k) m
  = if m mod c <? k
    then Fr.mul (at0 (idAfter (DomainNum pd) (S (m mod c))) m) (snd (Shifter pd))
    else Fr.zero.
Proof.
  intros c. induction k as [|k IH]; intros Hk Hm.
  - unfold uuidAfter, at0. simpl fold_left.
    rewrite lookup_replicate_2 by (fold c; lia). reflexivity.
  - rewrite uuidAfter_S. unfold uuidRound. fold c.
    assert (Hc : 0 < c) by lia.
    pose proof (Nat.div_mod_eq m c) as Hdm.
    pose proof (Nat.mod_upper_bound m c ltac:(lia)) as Hmod.
    assert (Hdiv : m / c < 4) by (apply Nat.Div0.div_lt_upper_bound; lia).
    pose proof (length_uuidAfter pd k) as Hlen. fold c in Hlen.
    destruct (decide (m mod c = k)) as [Heq|Hne].
    + destruct (Nat.ltb_spec (m mod c) (S k)) as [_|?]; [|lia].
      rewrite Heq.
      assert (Hcases : m = k \/ m = k + c \/ m = k + 2 * c \/ m = k + 3 * c).
      { destruct (m / c) as [|[|[|[|t]]]]; lia. }
      destruct Hcases as [->|[->|[->| ->]]].
      * rewrite !at0_insert_ne by lia. rewrite at0_insert_eq by lia. done.
      * rewrite !at0_insert_ne by lia. rewrite at0_insert_eq
          by (rewrite !length_insert; lia). done.
      * rewrite !at0_insert_ne by lia. rewrite at0_insert_eq
          by (rewrite !length_insert; lia). done.
      * rewrite at0_insert_eq by (rewrite !length_insert; lia). done.
    + assert (m <> k /\ m <> k + c /\ m <> k + 2 * c /\ m <> k + 3 * c)
        as (N0 & N1 & N2 & N3).
      { repeat split; intros ->; apply Hne.
        - apply Nat.mod_small. lia.
        - replace (k + c) with (k + 1 * c) by lia.
          rewrite Nat.Div0.mod_add. apply Nat.mod_small. lia.
        - rewrite Nat.Div0.mod_add. apply Nat.mod_small. lia.
        - rewrite Nat.Div0.mod_add. apply Nat.mod_small. lia. }
      rewrite !at0_insert_ne by done. rewrite IH by lia.
      destruct (Nat.ltb_spec (m mod c) k), (Nat.ltb_spec (m mod c) (S k));
        try lia; reflexivity.
Qed.

(** ** The identity values of [ComputeZ], as integers *)

Lemma Fr_add_mod_r (a b : Z) : Fr.add a (b mod Fr.q)%Z = Fr.add a b.
Proof. unfold Fr.add. apply Z.add_mod_idemp_r. unfold Fr.q. lia. Qed.

Lemma scaled_mod (x g : fr) (i : nat) :
  (scaled x g i mod Fr.q = (x * g ^ Z.of_nat i) mod Fr.q)%Z.
Proof.
  induction i as [|i IH].
  - simpl. f_equal. lia.
  - simpl scaled. unfold Fr.mul. rewrite Z.mod_mod by (unfold Fr.q; lia).
    rewrite <- Z.mul_mod_idemp_l, IH, Z.mul_mod_idemp_l by (unfold Fr.q; lia).
    rewrite Nat2Z.inj_succ, Z.pow_succ_r by lia. f_equal. lia.
Qed.

Lemma wireProduct_mod (l r o x y w : fr) :
  wireProduct l r o (x mod Fr.q)%Z (y mod Fr.q)%Z (w mod Fr.q)%Z
  = wireProduct l r o x y w.
Proof. unfold wireProduct. by rewrite !Fr_add_mod_r. Qed.

Lemma zNum_Z {BOP OP} (pd : PublicRaw BOP OP) (lv rv ov : list fr) (i : nat) :
  let g := Generator (DomainNum pd) in
  zNum pd lv rv ov i
  = wireProduct (at0 lv i) (at0 rv i) (at0 ov i)
      ((g ^ Z.of_nat i) mod Fr.q)%Z
      ((fst (Shifter pd) * g ^ Z.of_nat i) mod Fr.q)%Z
      ((snd (Shifter pd) ^ 2 * g ^ Z.of_nat i) mod Fr.q)%Z.
Proof.
  intros g. unfold zNum. fold g.
  rewrite <- (wireProduct_mod _ _ _ (scaled Fr.one g i)).
  rewrite !scaled_mod.
  unfold Fr.square, Fr.mul, Fr.one.
  rewrite Z.mul_mod_idemp_l by (unfold Fr.q; lia).
  do 3 f_equal; lia.
Qed.

Lemma zAcc_lookup {BOP OP} (pd : PublicRaw BOP OP) lv rv ov i :
  i < Cardinality (DomainNum pd) ->
  zAcc pd lv rv ov !! i = Some (zValue pd lv rv ov i).
Proof.
  intros Hi. unfold zAcc. by rewrite list_lookup_fmap, lookup_seq_lt.
Qed.

(** ** When [ComputeZ] panics *)

(** A permutation sequence with fewer than [n-1] entries is indexed past
    its end. *)
Lemma ComputeZ_short_sequence {BOP OP} (pd : PublicRaw BOP OP)
    (l r o : slice) (st : store) :
  let n := Cardinality (DomainNum pd) in
  length (LS1 pd) < n - 1 \/ length (LS2 pd) < n - 1 \/ length (LS3 pd) < n - 1 ->
  ComputeZ l r o pd st = None.
Proof.
  intros n Hshort. unfold ComputeZ. fold n.
  apply bind_panics_after. intros z st1.
  apply bind_panics_after. intros [] st2.
  apply bind_panics_l.
  destruct Hshort as [H|[H|H]].
  - apply (forM_panics (fun _ _ => True) _ (length (LS1 pd)));
      [lia | done | done |].
    intros [[u0 u1] u2] s _.
    do 4 (apply bind_panics_after; intros ? ?).
    apply bind_panics_l, index_panics. lia.
  - apply (forM_panics (fun _ _ => True) _ (length (LS2 pd)));
      [lia | done | done |].
    intros [[u0 u1] u2] s _.
    do 6 (apply bind_panics_after; intros ? ?).
    apply bind_panics_l, index_panics. lia.
  - apply (forM_panics (fun _ _ => True) _ (length (LS3 pd)));
      [lia | done | done |].
    intros [[u0 u1] u2] s _.
    do 8 (apply bind_panics_after; intros ? ?).
    apply bind_panics_l, index_panics. lia.
Qed.

Lemma bind_inv {A B} (c : M A) (k : A -> M B) (st st' : store) (b : B) :
  bind c k st = Some (b, st') ->
  exists a s, c st = Some (a, s) /\ k a s = Some (b, st').
Proof.
  unfold bind. destruct (c st) as [[a s]|]; [|done]. intros H. by exists a, s.
Qed.

Lemma storeAt_runs (s : slice) i v (a : list fr) (st : store) :
  st !! s = Some a -> i < length a ->
  storeAt s i v st = Some (tt, <[s := <[i := v]> a]> st).
Proof.
  intros Hs Hi. unfold storeAt. unfold slice in *. rewrite Hs.
  destruct (decide (i < length a)); [done | lia].
Qed.

(** One round of [ComputeZ] writes the accumulator and nothing else. *)
Lemma ComputeZ_round_keeps {BOP OP} (pd : PublicRaw BOP OP) (l r o : slice)
    (st : store) (zc : list fr) i (u u' : fr * fr * fr) (st' : store)
    (K : fr * fr * fr -> fr * fr * fr) :
  (let '(u0, u1, u2) := u in
   let* li := load l i in
   let* ri := load r i in
   let* oi := load o i in
   let* li' := load l i in
   let* s1 := index (LS1 pd) i in
   let* ri' := load r i in
   let* s2 := index (LS2 pd) i in
   let* oi' := load o i in
   let* s3 := index (LS3 pd) i in
   let* zi := load (length st) i in
   storeAt (length st) (i + 1)
     (Fr.mul zi
        (Fr.mul (Fr.mul (Fr.add (Fr.add li u0) gamma)
                        (Fr.add (Fr.add ri u1) gamma))
                (Fr.add (Fr.add oi u2) gamma))) ;;;
   let* zn := load (length st) (i + 1) in
   storeAt (length st) (i + 1)
     (Fr.div zn
        (Fr.mul (Fr.mul (Fr.add (Fr.add li' s1) gamma)
                        (Fr.add (Fr.add ri' s2) gamma))
                (Fr.add (Fr.add oi' s3) gamma))) ;;;
   ret (K u)) (st ++ [zc]) = Some (u', st') ->
  exists zc', st' = st ++ [zc'].
Proof.
  destruct u as [[u0 u1] u2]. intros E.
  apply bind_inv in E as (li & s & E1 & E). apply load_inv in E1 as ->.
  apply bind_inv in E as (ri & s & E1 & E). apply load_inv in E1 as ->.
  apply bind_inv in E as (oi & s & E1 & E). apply load_inv in E1 as ->.
  apply bind_inv in E as (li' & s & E1 & E). apply load_inv in E1 as ->.
  apply bind_inv in E as (s1 & s & E1 & E). apply index_inv in E1 as [_ ->].
  apply bind_inv in E as (ri' & s & E1 & E). apply load_inv in E1 as ->.
  apply bind_inv in E as (s2 & s & E1 & E). apply index_inv in E1 as [_ ->].
  apply bind_inv in E as (oi' & s & E1 & E). apply load_inv in E1 as ->.
  apply bind_inv in E as (s3 & s & E1 & E). apply index_inv in E1 as [_ ->].
  apply bind_inv in E as (zi & s & E1 & E). apply load_inv in E1 as ->.
  apply bind_inv in E as ([] & s & E1 & E).
  apply storeAt_inv in E1 as (a & Ha & _ & ->).
  rewrite store_lookup_new in Ha. injection Ha as <-.
  rewrite store_set_new in E.
  apply bind_inv in E as (zn & s & E1 & E). apply load_inv in E1 as ->.
  apply bind_inv in E as ([] & s & E1 & E).
  apply storeAt_inv in E1 as (a & Ha & _ & ->).
  rewrite store_lookup_new in Ha. injection Ha as <-.
  rewrite store_set_new in E.
  injection E as _ <-. by eexists.
Qed.

(** A read leaves the store as it is: what follows it panics if it panics
    for every value read. *)
Lemma load_then_panics {B} (s : slice) i (k : fr -> M B) (st : store) :
  (forall v, k v st = None) -> bind (load s i) k st = None.
Proof.
  intros Hk. unfold bind.
  destruct (load s i st) as [[v st']|] eqn:E; [|done].
  apply load_inv in E as ->. apply Hk.
Qed.

(** A wire with fewer than [n-1] entries is read past its end. *)
Lemma ComputeZ_short_wire {BOP OP} (pd : PublicRaw BOP OP) (l r o : slice)
    (lv rv ov : list fr) (st : store) :
  let n := Cardinality (DomainNum pd) in
  st !! l = Some lv -> st !! r = Some rv -> st !! o = Some ov ->
  length lv < n - 1 \/ length rv < n - 1 \/ length ov < n - 1 ->
  ComputeZ l r o pd st = None.
Proof.
  intros n Hl Hr Ho Hshort.
  assert (Hll : l < length st) by (by eapply lookup_lt_Some).
  assert (Hlr : r < length st) by (by eapply lookup_lt_Some).
  assert (Hlo : o < length st) by (by eapply lookup_lt_Some).
  assert (Hn : 1 < n) by lia.
  unfold ComputeZ. fold n.
  eapply bind_panics_r; [reflexivity|].
  eapply bind_panics_r;
    [ apply storeAt_runs; [apply store_lookup_new | rewrite length_replicate; lia] |].
  rewrite store_set_new.
  apply bind_panics_l.
  set (g := Generator (DomainNum pd)).
  set (k := Nat.min (length lv) (Nat.min (length rv) (length ov))).
  apply (forM_panics (fun _ s => exists zc, s = st ++ [zc]) _ k);
    [lia | by eexists | |].
  - intros i [[u0 u1] u2] s u' s' _ (zc & ->) E.
    exact (ComputeZ_round_keeps pd l r o st zc i (u0, u1, u2) u' s'
             (fun '(u0, u1, u2) => (Fr.mul u0 g, Fr.mul u1 g, Fr.mul u2 g)) E).
  - intros [[u0 u1] u2] s (zc & ->).
    assert (Hcur : forall x xv, st !! x = Some xv ->
              (st ++ [zc]) !! x = Some xv).
    { intros x xv Hx. rewrite store_lookup_old; [done | by eapply lookup_lt_Some]. }
    destruct (decide (length lv <= k)) as [Hk|Hk].
    { apply bind_panics_l. eapply load_panics; [by apply Hcur | done]. }
    apply load_then_panics. intros li.
    destruct (decide (length rv <= k)) as [Hk'|Hk'].
    { apply bind_panics_l. eapply load_panics; [by apply Hcur | done]. }
    apply load_then_panics. intros ri.
    apply bind_panics_l. eapply load_panics; [by apply Hcur | lia].
Qed.

(** ** The inputs [ComputeLRO] and [Prove] accept *)

Lemma lroInRange_unfold {BOP OP} (spr : SparseR1CS) (pd : PublicRaw BOP OP)
    (solution : list fr) :
  lroInRange spr pd solution = true ->
  let n := Cardinality (DomainNum pd) in
  let rows := Constraints spr ++ Assertions spr in
  length rows <= n /\ idsInRange solution rows = true /\
  (length rows < n -> 0 < length solution).
Proof.
  intros H n rows. unfold lroInRange in H. fold n rows in H.
  apply andb_prop in H as [H Hpad]. apply andb_prop in H as [Hfit Hids].
  apply Nat.leb_le in Hfit. split; [done|]. split; [done|].
  intros Hlt. apply orb_prop in Hpad as [Hp|Hp].
  - apply Nat.leb_le in Hp. lia.
  - by apply Nat.ltb_lt in Hp.
Qed.

(** An input that is not well formed fails one of the three checks. *)
Lemma wellFormed_false {BOP OP} (spr : SparseR1CS) (pd : PublicRaw BOP OP)
    (solution : list fr) :
  wellFormed spr pd solution = false ->
  let n := Cardinality (DomainNum pd) in
  n = 0 \/ lroInRange spr pd solution = false \/
  (length (LS1 pd) < n - 1 \/ length (LS2 pd) < n - 1 \/
   length (LS3 pd) < n - 1).
Proof.
  intros H n. unfold wellFormed in H. fold n in H.
  unfold lroInRange. fold n.
  destruct (Nat.ltb_spec 0 n); [|left; lia].
  destruct (Nat.leb_spec (n - 1) (length (LS1 pd))); [|right; right; lia].
  destruct (Nat.leb_spec (n - 1) (length (LS2 pd))); [|right; right; lia].
  destruct (Nat.leb_spec (n - 1) (length (LS3 pd))); [|right; right; lia].
  right. left. simpl in H. rewrite !andb_true_r in H.
  exact H.
Qed.

(** * The behaviour of the prover's functions on every input *)

(** ** [ComputeLRO] *)

(** X1: [ComputeLRO] panics exactly when the constraints and assertions
    outnumber the points of the domain, or a row names a variable id the
    solution has no value for, or a row has to be padded while the solution
    is empty (the padding reads [solution[0]]).  On every other input it
    returns. *)
Theorem ComputeLRO_panics_iff {BOP OP} (spr : SparseR1CS)
    (pd : PublicRaw BOP OP) (solution : list fr) (st : store) :
  let n := Cardinality (DomainNum pd) in
  let rows := Constraints spr ++ Assertions spr in
  ComputeLRO spr pd solution st = None
  <-> ~ (length rows <= n /\ idsInRange solution rows = true /\
         (length rows < n -> 0 < length solution)).
Proof.
  intros n rows. split.
  - intros Hnone (Hfit & Hids & Hpad).
    rewrite (ComputeLRO_spec spr pd solution Hfit Hids Hpad st) in Hnone.
    discriminate.
  - intros Hnot. apply ComputeLRO_out_of_range_panics.
    destruct (lroInRange spr pd solution) eqn:E; [|done].
    exfalso. apply Hnot. by apply lroInRange_unfold.
Qed.

Lemma ComputeLRO_panics_iff_witness :
  ComputeLRO Example.mulGate Example.publicData2 [] [] = None.
Proof.
  apply (proj2 (ComputeLRO_panics_iff Example.mulGate Example.publicData2 [] [])).
  intros (_ & Hids & _). vm_compute in Hids. discriminate.
Defined.

(** ** [ComputeZ] *)

(** X2: on a domain of [n > 0] points, with wires and permutation sequences of
    at least [n-1] entries, [ComputeZ] returns a fresh slice [z] of length
    [n] and changes nothing else.  [z[0] = 1] and, for every [i] with
    [i+1 < n],

      [z[i+1] = z[i] * (l[i]+g^i+gamma) * (r[i]+Shifter[0]*g^i+gamma)
                     * (o[i]+Shifter[1]^2*g^i+gamma)
                / ((l[i]+LS1[i]+gamma) * (r[i]+LS2[i]+gamma)
                   * (o[i]+LS3[i]+gamma))]

    with [g] the generator of the domain.  The last entry of the wires is
    not read. *)
Theorem ComputeZ_accumulator {BOP OP} (pd : PublicRaw BOP OP) (l r o : slice)
    (lv rv ov : list fr) (st : store) :
  let n := Cardinality (DomainNum pd) in
  let g := Generator (DomainNum pd) in
  0 < n ->
  st !! l = Some lv -> st !! r = Some rv -> st !! o = Some ov ->
  n - 1 <= length lv -> n - 1 <= length rv -> n - 1 <= length ov ->
  n - 1 <= length (LS1 pd) -> n - 1 <= length (LS2 pd) ->
  n - 1 <= length (LS3 pd) ->
  exists zv,
    ComputeZ l r o pd st = Some (length st, st ++ [zv]) /\
    length zv = n /\
    zv !! 0 = Some Fr.one /\
    forall i, i + 1 < n ->
      zv !! (i + 1)
      = Some (Fr.div
                (Fr.mul (at0 zv i)
                   (wireProduct (at0 lv i) (at0 rv i) (at0 ov i)
                      ((g ^ Z.of_nat i) mod Fr.q)%Z
                      ((fst (Shifter pd) * g ^ Z.of_nat i) mod Fr.q)%Z
                      ((snd (Shifter pd) ^ 2 * g ^ Z.of_nat i) mod Fr.q)%Z))
                (wireProduct (at0 lv i) (at0 rv i) (at0 ov i)
                   (at0 (LS1 pd) i) (at0 (LS2 pd) i) (at0 (LS3 pd) i))).
Proof.
  intros n g Hn Hl Hr Ho Ll Lr Lo L1 L2 L3.
  exists (zAcc pd lv rv ov).
  split; [by apply ComputeZ_spec|].
  split; [apply length_zAcc|].
  split; [by apply zAcc_lookup|].
  intros i Hi.
  rewrite zAcc_lookup by (fold n; lia).
  unfold at0 at 1. rewrite zAcc_lookup by (fold n; lia).
  replace (i + 1) with (S i) by lia.
  simpl zValue. simpl default. by rewrite zNum_Z.
Qed.

Lemma ComputeZ_accumulator_witness :
  exists zv,
    ComputeZ 0 1 2 Example.publicData2 [[3; 0]; [4; 0]; [12; 0]]%Z
    = Some (3, [[3; 0]; [4; 0]; [12; 0]]%Z ++ [zv]) /\
    length zv = 2 /\ zv !! 0 = Some Fr.one.
Proof.
  destruct (ComputeZ_accumulator Example.publicData2 0 1 2
              [3; 0]%Z [4; 0]%Z [12; 0]%Z [[3; 0]; [4; 0]; [12; 0]]%Z)
    as (zv & Hrun & Hlen & H0 & _);
    [ simpl; lia | reflexivity | reflexivity | reflexivity
    | simpl; lia | simpl; lia | simpl; lia
    | simpl; lia | simpl; lia | simpl; lia | ].
  exists zv. split; [exact Hrun|]. split; [exact Hlen | exact H0].
Defined.

(** X3: given the three wires, [ComputeZ] panics exactly when the domain
    has no point or one of the wires or of [LS1], [LS2], [LS3] has fewer
    than [n-1] entries. *)
Theorem ComputeZ_panics_iff {BOP OP} (pd : PublicRaw BOP OP) (l r o : slice)
    (lv rv ov : list fr) (st : store) :
  let n := Cardinality (DomainNum pd) in
  st !! l = Some lv -> st !! r = Some rv -> st !! o = Some ov ->
  (ComputeZ l r o pd st = None
   <-> n = 0 \/ length lv < n - 1 \/ length rv < n - 1 \/ length ov < n - 1
       \/ length (LS1 pd) < n - 1 \/ length (LS2 pd) < n - 1
       \/ length (LS3 pd) < n - 1).
Proof.
  intros n Hl Hr Ho. split.
  - intros Hnone.
    destruct (decide (n = 0)) as [|Hn]; [by left|].
    destruct (decide (length lv < n - 1)); [tauto|].
    destruct (decide (length rv < n - 1)); [tauto|].
    destruct (decide (length ov < n - 1)); [tauto|].
    destruct (decide (length (LS1 pd) < n - 1)); [tauto|].
    destruct (decide (length (LS2 pd) < n - 1)); [tauto|].
    destruct (decide (length (LS3 pd) < n - 1)); [tauto|].
    rewrite (ComputeZ_spec pd l r o lv rv ov st) in Hnone;
      [discriminate | fold n; lia | done | done | done | fold n; lia..].
  - intros [H0|[H|[H|[H|H]]]].
    + by apply ComputeZ_empty_domain_panics.
    + eapply ComputeZ_short_wire; [done..|]. fold n. tauto.
    + eapply ComputeZ_short_wire; [done..|]. fold n. tauto.
    + eapply ComputeZ_short_wire; [done..|]. fold n. tauto.
    + by apply ComputeZ_short_sequence.
Qed.

Lemma ComputeZ_panics_iff_witness :
  ComputeZ 0 1 2 Example.publicData2 [[]; [4; 0]; [12; 0]]%Z = None.
Proof.
  apply (proj2 (ComputeZ_panics_iff Example.publicData2 0 1 2
                  [] [4; 0]%Z [12; 0]%Z [[]; [4; 0]; [12; 0]]%Z
                  eq_refl eq_refl eq_refl)).
  right. left. simpl. lia.
Defined.

(** ** [evaluateCosets] *)

(** X5: with a result buffer of [4n] entries, [evaluateCosets] returns;
    it changes [res] and no other slice that existed before the call.
    With [p] the first [n] coefficients of [poly], followed by zeros up to
    [n] entries, [res] holds at [4i] entry [i] of the bit-reversed result
    of two successive FFTs of [p] (on the cosets 1, then 5), at [4i+1] the
    same for the cosets 3, then 7, and at both [4i+2] and [4i+3] entry [i]
    of the bit-reversed [p] itself. *)
Theorem evaluateCosets_result (poly : list fr) (res : slice) (d : Domain)
    (old : list fr) (st : store) :
  let n := Cardinality d in
  let p := take n poly ++ replicate (n - length poly) Fr.zero in
  st !! res = Some old -> length old = 4 * n ->
  exists st' out,
    evaluateCosets poly res d st = Some (tt, st') /\
    st' !! res = Some out /\ length out = 4 * n /\
    (forall s, s < length st -> s <> res -> st' !! s = st !! s) /\
    forall i, i < n ->
      out !! (4 * i) = Some (at0 (BitReverse (FFT d (FFT d p 1) 5)) i) /\
      out !! (4 * i + 1) = Some (at0 (BitReverse (FFT d (FFT d p 3) 7)) i) /\
      out !! (4 * i + 2) = Some (at0 (BitReverse p) i) /\
      out !! (4 * i + 3) = Some (at0 (BitReverse p) i).
Proof.
  intros n p Hres Hold.
  assert (Hlt : res < length st) by (by eapply lookup_lt_Some).
  exists (<[res := cosetEvals poly d]> (st ++ cosetTemps poly d)),
         (cosetEvals poly d).
  split; [by eapply evaluateCosets_spec|].
  split; [apply list_lookup_insert_eq; rewrite length_app; lia|].
  split; [apply length_cosetEvals|].
  split.
  { intros s Hs Hne. rewrite list_lookup_insert_ne by done.
    by apply lookup_app_l. }
  intros i Hi.
  assert (Hp : padded poly d = p) by apply padded_take.
  unfold cosetEvals.
  replace (4 * i) with (4 * i + 0) at 1 by lia.
  rewrite !interleave4_lookup by (fold n; lia).
  unfold cosetTemps. rewrite Hp.
  repeat split; reflexivity.
Qed.

Lemma evaluateCosets_result_witness :
  exists st' out,
    evaluateCosets [0; 1]%Z 0 Example.d2 [replicate 8 Fr.zero]
    = Some (tt, st') /\
    st' !! 0 = Some out /\
    out !! 2 = Some 0%Z /\ out !! 3 = Some 0%Z.
Proof.
  destruct (evaluateCosets_result [0; 1]%Z 0 Example.d2 (replicate 8 Fr.zero)
              [replicate 8 Fr.zero])
    as (st' & out & Hrun & Hout & _ & _ & Hv); [reflexivity | reflexivity |].
  exists st', out. split; [exact Hrun|]. split; [exact Hout|].
  destruct (Hv 0) as (_ & _ & H2 & H3); [simpl; lia|].
  split; [exact H2 | exact H3].
Defined.

(** ** [evalIDCosets] *)

(** X6: [evalIDCosets] panics exactly on a domain without points (it writes
    [id[0]]). *)
Theorem evalIDCosets_panics_iff {BOP OP} (pd : PublicRaw BOP OP) (st : store) :
  evalIDCosets pd st = None <-> Cardinality (DomainNum pd) = 0.
Proof.
  split.
  - intros Hnone. destruct (Cardinality (DomainNum pd)) eqn:E; [done|].
    rewrite evalIDCosets_spec in Hnone by lia. discriminate.
  - apply evalIDCosets_empty_panics.
Qed.

(** X7: over a non-empty domain [evalIDCosets] returns three fresh slices of
    [4n] entries and changes nothing else.  At every extended point [4i+j]
    the first holds [id = Generator^i * FinerGenerator^(2j+1)] and the
    second [id * Shifter[0]]. *)
Theorem evalIDCosets_identity {BOP OP} (pd : PublicRaw BOP OP) (st : store) :
  let d := DomainNum pd in
  let n := Cardinality d in
  0 < n ->
  exists idv uidv uuidv,
    evalIDCosets pd st
    = Some ((length st, length st + 1, length st + 2),
            st ++ [idv; uidv; uuidv]) /\
    length idv = 4 * n /\ length uidv = 4 * n /\ length uuidv = 4 * n /\
    forall i j, i < n -> j < 4 ->
      idv !! (4 * i + j)
      = Some ((Generator d ^ Z.of_nat i
               * FinerGenerator d ^ Z.of_nat (2 * j + 1)) mod Fr.q)%Z /\
      uidv !! (4 * i + j)
      = Some ((Generator d ^ Z.of_nat i
               * FinerGenerator d ^ Z.of_nat (2 * j + 1)
               * fst (Shifter pd)) mod Fr.q)%Z.
Proof.
  intros d n Hn. subst n d.
  exists (idAfter (DomainNum pd) (Cardinality (DomainNum pd))),
         (uidAfter pd (Cardinality (DomainNum pd))),
         (uuidAfter pd (Cardinality (DomainNum pd))).
  split; [by apply evalIDCosets_spec|].
  split; [by apply length_idAfter|].
  split; [by apply length_uidAfter|].
  split; [apply length_uuidAfter|].
  intros i j Hi Hj. split.
  - rewrite at0_lookup by (rewrite length_idAfter; lia).
    by rewrite idAfter_point.
  - rewrite at0_lookup by (rewrite length_uidAfter; lia).
    rewrite uidAfter_point, idAfter_point by done.
    by rewrite Fr_mul_mod_l.
Qed.

Lemma evalIDCosets_identity_witness :
  exists idv uidv uuidv,
    evalIDCosets Example.publicData2 []
    = Some ((0, 1, 2), [idv; uidv; uuidv]) /\
    length idv = 8 /\ length uidv = 8 /\ length uuidv = 8.
Proof.
  destruct (evalIDCosets_identity Example.publicData2 [])
    as (idv & uidv & uuidv & Hrun & Hi & Hu & Huu & _); [simpl; lia|].
  exists idv, uidv, uuidv. split; [exact Hrun|].
  split; [exact Hi|]. split; [exact Hu | exact Huu].
Defined.

(** X8: the third slice of [evalIDCosets] is written at [i], [i+n], [i+2n],
    [i+3n] in round [i], from [id] as it stands in that round: rows up to
    [i] are already on their cosets, later rows still hold the bare power
    of the generator.  So at the extended point [m = 4i+j] it holds
    [Generator^i * FinerGenerator^(2j+1) * Shifter[1]] when
    [i <= m mod n], and [Generator^i * Shifter[1]] otherwise. *)
Theorem evalIDCosets_third_sequence {BOP OP} (pd : PublicRaw BOP OP)
    (st : store) :
  let d := DomainNum pd in
  let n := Cardinality d in
  0 < n ->
  exists idv uidv uuidv,
    evalIDCosets pd st
    = Some ((length st, length st + 1, length st + 2),
            st ++ [idv; uidv; uuidv]) /\
    forall i j, i < n -> j < 4 ->
      uuidv !! (4 * i + j)
      = Some (if i <=? (4 * i + j) mod n
              then ((Generator d ^ Z.of_nat i
                     * FinerGenerator d ^ Z.of_nat (2 * j + 1)
                     * snd (Shifter pd)) mod Fr.q)%Z
              else ((Generator d ^ Z.of_nat i * snd (Shifter pd))
                    mod Fr.q)%Z).
Proof.
  intros d n Hn. subst n d.
  set (n := Cardinality (DomainNum pd)) in *.
  exists (idAfter (DomainNum pd) n), (uidAfter pd n), (uuidAfter pd n).
  split; [by apply evalIDCosets_spec|].
  intros i j Hi Hj.
  rewrite at0_lookup by (rewrite length_uuidAfter; fold n; lia).
  rewrite uuidAfter_at by (fold n; lia). fold n.
  pose proof (Nat.mod_upper_bound (4 * i + j) n ltac:(lia)) as Hmod.
  destruct (Nat.ltb_spec ((4 * i + j) mod n) n) as [_|?]; [|lia].
  rewrite idAfter_during by done.
  destruct (i <=? (4 * i + j) mod n).
  - rewrite mul_cosetFactor, Fr_pow_Z by done.
    rewrite Z.mul_mod_idemp_l by (unfold Fr.q; lia).
    by rewrite Fr_mul_mod_l.
  - by rewrite Fr_pow_Z, Fr_mul_mod_l.
Qed.

Lemma evalIDCosets_third_sequence_witness :
  exists idv uidv uuidv,
    evalIDCosets Example.publicData2 []
    = Some ((0, 1, 2), [idv; uidv; uuidv]) /\
    uuidv !! 4
    = Some ((Example.w2 ^ 1 * Example.shifter1) mod Fr.q)%Z.
Proof.
  destruct (evalIDCosets_third_sequence Example.publicData2 [])
    as (idv & uidv & uuidv & Hrun & Hv); [simpl; lia|].
  exists idv, uidv, uuidv. split; [exact Hrun|].
  apply (Hv 1 0); simpl; lia.
Defined.

(** ** [computeH] *)

Lemma hFactor_chain (d : Domain) :
  let u := FinerGenerator d in
  let n := Z.of_nat (Cardinality d) in
  hFactor d 0 = Fr.inverse (Fr.exp u n) /\
  hFactor d 1 = Fr.inverse (Fr.exp (Fr.mul (hFactor d 0) (Fr.square u)) n) /\
  hFactor d 2 = Fr.inverse (Fr.exp (Fr.mul (hFactor d 1) (Fr.square u)) n) /\
  hFactor d 3 = Fr.inverse (Fr.exp (Fr.mul (hFactor d 2) (Fr.square u)) n).
Proof.
  unfold hFactor, computeH_u. cbv beta iota zeta.
  split; [exact eq_refl|]. split; [exact eq_refl|].
  split; exact eq_refl.
Qed.

(** X9: given the two evaluation buffers with at least [4n] entries,
    [computeH] returns a fresh slice and changes nothing else.  The slice
    is the inverse FFT over [DomainH] (coset 1), bit-reversed, of the
    buffer that holds at every extended point [4i+j]

      [(constraintsInd[4i+j] + alpha * constraintOrdering[4i+j]) * f_j]

    where [f_0 = 1 / u^n] and [f_(j+1) = 1 / (f_j * u^2)^n], [u] being the
    finer generator. *)
Theorem computeH_pointwise {BOP OP} (pd : PublicRaw BOP OP)
    (constraintsInd constraintOrdering : slice) (ci co : list fr)
    (st : store) :
  let d := DomainNum pd in
  let n := Cardinality d in
  let u := FinerGenerator d in
  st !! constraintsInd = Some ci -> st !! constraintOrdering = Some co ->
  4 * n <= length ci -> 4 * n <= length co ->
  exists evals f0 f1 f2 f3,
    computeH pd constraintsInd constraintOrdering st
    = Some (length st,
            st ++ [BitReverse (FFTInverse (DomainH pd) evals 1)]) /\
    length evals = 4 * n /\
    f0 = Fr.inverse (Fr.exp u (Z.of_nat n)) /\
    f1 = Fr.inverse (Fr.exp (Fr.mul f0 (Fr.square u)) (Z.of_nat n)) /\
    f2 = Fr.inverse (Fr.exp (Fr.mul f1 (Fr.square u)) (Z.of_nat n)) /\
    f3 = Fr.inverse (Fr.exp (Fr.mul f2 (Fr.square u)) (Z.of_nat n)) /\
    forall i j, i < n -> j < 4 ->
      evals !! (4 * i + j)
      = Some (Fr.mul (Fr.add (at0 ci (4 * i + j))
                             (Fr.mul alpha (at0 co (4 * i + j))))
                     (at0 [f0; f1; f2; f3] j)).
Proof.
  intros d n u Hci Hco Lci Lco.
  exists (hEvals pd ci co),
         (hFactor d 0), (hFactor d 1), (hFactor d 2), (hFactor d 3).
  split; [exact (computeH_spec pd _ _ ci co st Hci Hco Lci Lco)|].
  split; [apply length_hEvals|].
  destruct (hFactor_chain d) as (F0 & F1 & F2 & F3).
  split; [exact F0|]. split; [exact F1|].
  split; [exact F2|]. split; [exact F3|].
  intros i j Hi Hj. rewrite hEvals_lookup by done.
  destruct j as [|[|[|[|j]]]]; [exact eq_refl..|lia].
Qed.

Lemma computeH_pointwise_witness :
  exists h,
    computeH Example.publicData2 0 1 [replicate 8 Fr.one; replicate 8 Fr.zero]
    = Some (2, [replicate 8 Fr.one; replicate 8 Fr.zero] ++ [h]).
Proof.
  destruct (computeH_pointwise Example.publicData2 0 1
              (replicate 8 Fr.one) (replicate 8 Fr.zero)
              [replicate 8 Fr.one; replicate 8 Fr.zero])
    as (evals & f0 & f1 & f2 & f3 & Hrun & _);
    [reflexivity | reflexivity | simpl; lia | simpl; lia |].
  eexists. exact Hrun.
Defined.

(** ** [shiftZ] *)

(** X10: [shiftZ] panics exactly on an empty input (it reads [res[0]]). *)
Theorem shiftZ_panics_iff_empty (z : slice) (zv : list fr) (st : store) :
  st !! z = Some zv -> (shiftZ z st = None <-> zv = []).
Proof.
  intros Hz. split.
  - intros Hnone. destruct zv as [|v tl]; [done|].
    rewrite (shiftZ_spec z v tl st Hz) in Hnone. discriminate.
  - intros ->. by apply shiftZ_empty_panics.
Qed.

Lemma shiftZ_panics_iff_empty_witness : shiftZ 0 [[]] = None.
Proof.
  apply (proj2 (shiftZ_panics_iff_empty 0 [] [[]] eq_refl)). reflexivity.
Defined.

(** ** [Prove] *)

Lemma Prove_populate_ill_formed {BOP OP} Solve (spr : SparseR1CS)
    (pd : PublicRaw BOP OP) (witness : Witness) (st : store) :
  wellFormed spr pd (fst (Solve spr witness)) = false ->
  Prove_populate Solve spr pd witness st = None.
Proof.
  intros Hwf. apply wellFormed_false in Hwf.
  unfold Prove_populate.
  destruct (Solve spr witness) as [solution err]. simpl fst in Hwf.
  destruct Hwf as [Hn|[Hlro|Hshort]].
  - apply bind_panics_after. intros [l r o eL eR eO ci] st1.
    apply bind_panics_l. by apply ComputeZ_empty_domain_panics.
  - apply bind_panics_l. unfold Prove_gate.
    apply bind_panics_l. by apply ComputeLRO_out_of_range_panics.
  - apply bind_panics_after. intros [l r o eL eR eO ci] st1.
    apply bind_panics_l. by apply ComputeZ_short_sequence.
Qed.

(** X11: [Prove] panics exactly when its inputs are not well formed: the
    domain has no point, or the rows outnumber its points, or the solution
    that [Solve] hands back misses a variable id a row uses (or is empty
    while rows are padded), or one of [LS1], [LS2], [LS3] has fewer than
    [n-1] entries.  The error of [Solve] plays no part.  (The solver, the
    FFT, the polynomial evaluation and the commitment scheme are external
    and taken to return.) *)
Theorem Prove_panics_iff {BOP OP}
    (Solve : SparseR1CS -> Witness -> list fr * option error)
    (spr : SparseR1CS) (pd : PublicRaw BOP OP) (witness : Witness)
    (st : store) :
  Prove Solve spr pd witness st = None
  <-> wellFormed spr pd (fst (Solve spr witness)) = false.
Proof.
  split.
  - intros Hnone.
    destruct (wellFormed spr pd (fst (Solve spr witness))) eqn:E; [|done].
    destruct (Prove_populate_spec Solve spr pd witness st E) as (st' & Hrun & _).
    unfold Prove, bind in Hnone. rewrite Hrun in Hnone. discriminate.
  - intros Hwf. unfold Prove. apply bind_panics_l.
    by apply Prove_populate_ill_formed.
Qed.

Lemma Prove_panics_iff_witness :
  Prove Example.solveFails Example.mulGate Example.publicData2 [] [] = None.
Proof.
  apply (proj2 (Prove_panics_iff Example.solveFails Example.mulGate
                  Example.publicData2 [] [])).
  reflexivity.
Defined.

(** X12: on well-formed inputs [Prove] runs to the end without a panic,
    returns the empty [Proof], and leaves every slice that existed before
    the call as it was.  (The solver, the FFT, the polynomial evaluation
    and the commitment scheme are external and taken to return.) *)
Theorem Prove_runs_on_well_formed {BOP OP}
    (Solve : SparseR1CS -> Witness -> list fr * option error)
    (spr : SparseR1CS) (pd : PublicRaw BOP OP) (witness : Witness)
    (st : store) :
  wellFormed spr pd (fst (Solve spr witness)) = true ->
  exists st',
    Prove Solve spr pd witness st = Some (emptyProof, st') /\
    forall s, s < length st -> st' !! s = st !! s.
Proof.
  intros Hwf.
  destruct (Prove_populate_spec Solve spr pd witness st Hwf)
    as (st' & Hrun & Hframe).
  exists st'. split; [|exact Hframe].
  unfold Prove, bind. by rewrite Hrun.
Qed.

Lemma Prove_runs_on_well_formed_witness :
  exists st',
    Prove Example.solveOk Example.mulGate Example.publicData2
          Example.assignment [[7]%Z]
    = Some (emptyProof, st') /\
    st' !! 0 = Some [7]%Z.
Proof.
  destruct (Prove_runs_on_well_formed Example.solveOk Example.mulGate
              Example.publicData2 Example.assignment [[7]%Z])
    as (st' & Hrun & Hframe); [reflexivity|].
  exists st'. split; [exact Hrun|]. apply (Hframe 0). simpl. lia.
Defined.

(** X13: what the local [proof] of [Prove] holds before it is dropped, on
    well-formed inputs: the evaluations at [zeta] of five polynomials
    [l, r, o, h, z], the evaluation of [z] at [zeta * Generator], the batch
    opening of the same five polynomials at [zeta] and the opening of [z]
    at [zeta * Generator].  [l], [r], [o] are the wires of [ComputeLRO] and
    [z] the accumulator of [ComputeZ] on those wires, each brought to
    coefficient form by the inverse FFT and the bit reversal; [h] has [4n]
    coefficients. *)
Theorem Prove_populate_fields {BOP OP}
    (Solve : SparseR1CS -> Witness -> list fr * option error)
    (spr : SparseR1CS) (pd : PublicRaw BOP OP) (witness : Witness)
    (st : store) :
  let solution := fst (Solve spr witness) in
  let d := DomainNum pd in
  let n := Cardinality d in
  let w := wiresLRO solution (Constraints spr ++ Assertions spr) n in
  let zzeta := Fr.mul zeta (Generator d) in
  wellFormed spr pd solution = true ->
  exists l r o h z st',
    Prove_populate Solve spr pd witness st
    = Some ({| LROHZ := [Eval l zeta; Eval r zeta; Eval o zeta; Eval h zeta;
                         Eval z zeta];
               ZShift := Eval z zzeta;
               BatchOpenings :=
                 Some (BatchOpenSinglePoint _ _ (CommitmentScheme pd)
                         zeta vBundle [l; r; o; h; z]);
               OpeningZShift :=
                 Some (Open _ _ (CommitmentScheme pd) zzeta z) |}, st') /\
    l = BitReverse (FFTInverse d w.1.1 0) /\
    r = BitReverse (FFTInverse d w.1.2 0) /\
    o = BitReverse (FFTInverse d w.2 0) /\
    z = BitReverse (FFTInverse d (zAcc pd w.1.1 w.1.2 w.2) 0) /\
    length h = 4 * n /\
    forall s, s < length st -> st' !! s = st !! s.
Proof.
  intros solution d n w zzeta Hwf.
  destruct (Prove_populate_spec Solve spr pd witness st Hwf)
    as (st' & Hrun & Hframe).
  eexists _, _, _, _, _, st'. split; [exact Hrun|].
  do 4 (split; [reflexivity|]).
  split; [|exact Hframe].
  unfold hCoefficients.
  by rewrite length_BitReverse, length_FFTInverse, length_hEvals.
Qed.

Lemma Prove_populate_fields_witness :
  exists l r o h z st',
    Prove_populate Example.solveOk Example.mulGate Example.publicData2
      Example.assignment []
    = Some ({| LROHZ := [Eval l zeta; Eval r zeta; Eval o zeta; Eval h zeta;
                         Eval z zeta];
               ZShift := Eval z (Fr.mul zeta Example.w2);
               BatchOpenings :=
                 Some (BatchOpenSinglePoint _ _ Example.scheme
                         zeta vBundle [l; r; o; h; z]);
               OpeningZShift :=
                 Some (Open _ _ Example.scheme (Fr.mul zeta Example.w2) z) |},
            st') /\
    length h = 8.
Proof.
  destruct (Prove_populate_fields Example.solveOk Example.mulGate
              Example.publicData2 Example.assignment [])
    as (l & r & o & h & z & st' & Hrun & _ & _ & _ & _ & Hlen & _);
    [reflexivity|].
  exists l, r, o, h, z, st'. split; [exact Hrun | exact Hlen].
Defined.

(** X14: the gate identity that [Prove] evaluates does not depend on the
    solution: for any two solutions that [ComputeLRO] accepts, the buffer
    [constraintsInd] (which is the buffer [evalL]) holds the same [4n]
    values. *)
Theorem Prove_gate_ignores_solution {BOP OP} (spr : SparseR1CS)
    (pd : PublicRaw BOP OP) (s1 s2 : list fr) (st : store) :
  let n := Cardinality (DomainNum pd) in
  let rows := Constraints spr ++ Assertions spr in
  length rows <= n ->
  idsInRange s1 rows = true -> (length rows < n -> 0 < length s1) ->
  idsInRange s2 rows = true -> (length rows < n -> 0 < length s2) ->
  exists g1 st1 g2 st2 ev,
    Prove_gate spr pd s1 st = Some (g1, st1) /\
    Prove_gate spr pd s2 st = Some (g2, st2) /\
    gs_constraintsInd g1 = gs_evalL g1 /\
    gs_constraintsInd g2 = gs_evalL g2 /\
    st1 !! gs_constraintsInd g1 = Some ev /\
    st2 !! gs_constraintsInd g2 = Some ev /\
    length ev = 4 * n.
Proof.
  intros n rows Hfit Hids1 Hpad1 Hids2 Hpad2.
  eexists _, _, _, _, _.
  split; [by apply Prove_gate_spec|].
  split; [by apply Prove_gate_spec|].
  split; [reflexivity|]. split; [reflexivity|].
  simpl gs_constraintsInd.
  split; [rewrite store_app_lookup; reflexivity|].
  split; [rewrite store_app_lookup; reflexivity|].
  apply length_gateEvals.
Qed.

Lemma Prove_gate_ignores_solution_witness :
  exists g1 st1 g2 st2 ev,
    Prove_gate Example.mulGate Example.publicData2 Example.assignment []
    = Some (g1, st1) /\
    Prove_gate Example.mulGate Example.publicData2 [0; 5; 6; 7]%Z []
    = Some (g2, st2) /\
    st1 !! gs_constraintsInd g1 = Some ev /\
    st2 !! gs_constraintsInd g2 = Some ev.
Proof.
  destruct (Prove_gate_ignores_solution Example.mulGate Example.publicData2
              Example.assignment [0; 5; 6; 7]%Z [])
    as (g1 & st1 & g2 & st2 & ev & H1 & H2 & _ & _ & E1 & E2 & _);
    [simpl; lia | reflexivity | simpl; lia | reflexivity | simpl; lia |].
  exists g1, st1, g2, st2, ev.
  split; [exact H1|]. split; [exact H2|]. split; [exact E1 | exact E2].
Defined.

(** ** [evalConstraintOrdering] *)

(** X15: given its five input buffers, [evalConstraintOrdering] panics exactly
    on a domain without points: [evalIDCosets] writes [id[0]]. *)
Theorem evalConstraintOrdering_panics_iff {BOP OP} (pd : PublicRaw BOP OP)
    (z zu evalL evalR evalO : slice) (zv zuv lv rv ov : list fr) (st : store) :
  let n := Cardinality (DomainNum pd) in
  st !! z = Some zv -> st !! zu = Some zuv ->
  st !! evalL = Some lv -> st !! evalR = Some rv -> st !! evalO = Some ov ->
  4 * n <= length lv -> 4 * n <= length rv -> 4 * n <= length ov ->
  (evalConstraintOrdering pd z zu evalL evalR evalO st = None <-> n = 0).
Proof.
  intros n Hz Hzu HL HR HO Ll Lr Lo. split.
  - intros Hnone. destruct (decide (n = 0)) as [|Hn]; [done|].
    rewrite (evalConstraintOrdering_spec pd z zu evalL evalR evalO
               zv zuv lv rv ov st) in Hnone; [discriminate | | done..].
    fold n. lia.
  - intros Hn. unfold evalConstraintOrdering.
    do 12 (apply bind_panics_after; intros ? ?).
    apply bind_panics_l. by apply evalIDCosets_empty_panics.
Qed.

Lemma evalConstraintOrdering_panics_iff_witness :
  evalConstraintOrdering
    (mkPublicRaw (mkDomain 0 1%Z 1%Z) (mkDomain 0 1%Z 1%Z)
                 [] [] [] [] [] [] [] [] [] [] [] (1%Z, 1%Z) Example.scheme)
    0 0 0 0 0 [[]]
  = None.
Proof.
  apply (proj2 (evalConstraintOrdering_panics_iff
                  (mkPublicRaw (mkDomain 0 1%Z 1%Z) (mkDomain 0 1%Z 1%Z)
                     [] [] [] [] [] [] [] [] [] [] [] (1%Z, 1%Z) Example.scheme)
                  0 0 0 0 0 [] [] [] [] [] [[]]
                  eq_refl eq_refl eq_refl eq_refl eq_refl
                  (le_n 0) (le_n 0) (le_n 0))).
  reflexivity.
Defined.
